(** * Terminal mirror: wrapper (tm-wrapper.js) and relay (mirror-server.js)

  A shallow embedding of the session relay subsystem: the scrollback ring
  buffer and the IPC server of the PTY wrapper, and the discovery,
  connection management, mailbox, authentication, file viewer and port
  scan of the multi-session mirror server; further the data handlers of
  both sides, the reading of request bodies, the shutdown of the relay
  and the session list (tm-list.js). *)

From stdpp Require Import base tactics option list numbers.
From Stdlib Require Strings.String.
From Stdlib Require Import Strings.Ascii.
From Stdlib Require DecimalString.
From Stdlib Require Sorting.Sorted.
Import String.StringSyntax.
Delimit Scope string_scope with string.

Local Open Scope nat_scope.

(** ** JavaScript values used by both programs *)

Module JS.

(** A JavaScript string is a sequence of UTF-16 code units. *)
Definition jsstring := list N.

(** A Buffer is a sequence of bytes. *)
Definition buffer := list N.

(** Source literals: the code units of an ASCII literal. *)
Definition lit (s : String.string) : jsstring :=
  List.map N_of_ascii (String.list_ascii_of_string s).
Arguments lit s%_string.

(** [s.length] counts code units. *)
Definition jslength (s : jsstring) : nat := length s.

(** JavaScript truthiness of a string: the empty string is falsy. *)
Definition truthy (s : jsstring) : bool :=
  match s with [] => false | _ => true end.

Definition code_eqb (a b : N) : bool := N.eqb a b.

Fixpoint str_eqb (a b : jsstring) : bool :=
  match a, b with
  | [], [] => true
  | x :: a', y :: b' => code_eqb x y && str_eqb a' b'
  | _, _ => false
  end.

(** [s.startsWith(p)] *)
Fixpoint startsWith (s p : jsstring) : bool :=
  match p, s with
  | [], _ => true
  | x :: p', y :: s' => code_eqb x y && startsWith s' p'
  | _ :: _, [] => false
  end.

(** [s.endsWith(p)] *)
Definition endsWith (s p : jsstring) : bool :=
  (length p <=? length s) && str_eqb (drop (length s - length p) s) p.

(** [s.slice(a)] for a non-negative [a]. *)
Definition slice_from (a : nat) (s : jsstring) : jsstring := drop a s.

(** [s.slice(a, -b)] for non-negative [a] and positive [b]: the end index
    is [max(length - b, 0)], and the result is empty when it does not lie
    after the start index. *)
Definition slice_neg (a b : nat) (s : jsstring) : jsstring :=
  drop a (take (length s - b) s).

(** [s.substring(0, n)] *)
Definition substring0 (n : nat) (s : jsstring) : jsstring := take n s.

(** [parts.join(sep)] *)
Fixpoint join (sep : jsstring) (parts : list jsstring) : jsstring :=
  match parts with
  | [] => []
  | [p] => p
  | p :: rest => p ++ sep ++ join sep rest
  end.

(** *** UTF-8 encoding, as done by [Buffer.from(str)] *)

Definition is_high_surrogate (c : N) : bool :=
  ((0xD800 <=? c) && (c <=? 0xDBFF))%N.
Definition is_low_surrogate (c : N) : bool :=
  ((0xDC00 <=? c) && (c <=? 0xDFFF))%N.

Definition utf8_of_code_point (cp : N) : buffer :=
  if (cp <? 0x80)%N then [cp]
  else if (cp <? 0x800)%N then
    [N.lor 0xC0 (N.shiftr cp 6); N.lor 0x80 (N.land cp 0x3F)]
  else if (cp <? 0x10000)%N then
    [N.lor 0xE0 (N.shiftr cp 12);
     N.lor 0x80 (N.land (N.shiftr cp 6) 0x3F);
     N.lor 0x80 (N.land cp 0x3F)]
  else
    [N.lor 0xF0 (N.shiftr cp 18);
     N.lor 0x80 (N.land (N.shiftr cp 12) 0x3F);
     N.lor 0x80 (N.land (N.shiftr cp 6) 0x3F);
     N.lor 0x80 (N.land cp 0x3F)].

(** The replacement character U+FFFD stands for an unpaired surrogate. *)
Definition replacement : buffer := [0xEF; 0xBF; 0xBD]%N.

Fixpoint utf8 (s : jsstring) : buffer :=
  match s with
  | [] => []
  | c :: rest =>
      if is_high_surrogate c then
        match rest with
        | d :: rest' =>
            if is_low_surrogate d then
              utf8_of_code_point
                (0x10000 + (c - 0xD800) * 0x400 + (d - 0xDC00))%N
                ++ utf8 rest'
            else replacement ++ utf8 rest
        | [] => replacement
        end
      else if is_low_surrogate c then replacement ++ utf8 rest
      else utf8_of_code_point c ++ utf8 rest
  end.

(** A string of ASCII characters only. *)
Definition all_ascii (s : jsstring) : Prop := Forall (fun c => (c < 0x80)%N) s.

(** [Buffer.from(str, 'utf-8')] *)
Definition Buffer_from (s : jsstring) : buffer := utf8 s.

(** The last [n] elements of a list. *)
Definition lastn {A} (n : nat) (l : list A) : list A :=
  drop (length l - n) l.

(** [buf.subarray(a, b)] with both indexes clamped to the length. *)
Definition subarray {A} (a b : nat) (buf : list A) : list A :=
  drop a (take b buf).

(** [src.copy(target, targetStart, sourceStart, sourceEnd)]: the bytes
    [src[sourceStart .. sourceEnd)] overwrite [target] from [targetStart]
    on; what does not fit in [target] is not copied. *)
Definition copy {A} (src target : list A)
    (targetStart sourceStart sourceEnd : nat) : list A :=
  let chunk := take (length target - targetStart)
                    (drop sourceStart (take sourceEnd src)) in
  take targetStart target ++ chunk ++ drop (targetStart + length chunk) target.

(** Template-literal conversion of an integer: its decimal digits. *)
Definition of_Z (z : Z) : jsstring :=
  lit (DecimalString.NilZero.string_of_int (Z.to_int z)).

(** *** [parseInt(s, 10)] *)

(** White space and line terminators skipped by [parseInt] and [trim]. *)
Definition is_whitespace (c : N) : bool :=
  ((9 <=? c) && (c <=? 13) || (c =? 32) || (c =? 0xA0) || (c =? 0x1680)
   || (0x2000 <=? c) && (c <=? 0x200A) || (c =? 0x2028) || (c =? 0x2029)
   || (c =? 0x202F) || (c =? 0x205F) || (c =? 0x3000) || (c =? 0xFEFF))%N.

Fixpoint skip_whitespace (s : jsstring) : jsstring :=
  match s with
  | c :: rest => if is_whitespace c then skip_whitespace rest else s
  | [] => []
  end.

Definition is_digit (c : N) : bool := ((48 <=? c) && (c <=? 57))%N.

(** The value of the longest prefix of decimal digits; [None] when there
    is no digit at all. *)
Fixpoint digits_value (acc : option Z) (s : jsstring) : option Z :=
  match s with
  | c :: rest =>
      if is_digit c then
        digits_value (Some (10 * default 0%Z acc + (Z.of_N c - 48))%Z) rest
      else acc
  | [] => acc
  end.

(** [parseInt(s, 10)]; [None] is [NaN].  The result is exact as long as
    it is a safe integer. *)
Definition parseInt (s : jsstring) : option Z :=
  match skip_whitespace s with
  | 45%N :: rest => Z.opp <$> digits_value None rest
  | 43%N :: rest => digits_value None rest
  | rest => digits_value None rest
  end.

(** [s.trim()] is never needed in full here: only whether it is empty. *)
Definition trim_is_empty (s : jsstring) : bool :=
  match skip_whitespace s with [] => true | _ => false end.

(** *** Base64, as done by [buf.toString('base64')] *)

Definition base64_alphabet : jsstring :=
  lit "ABCDEFGHIJKLMNOPQRSTUVWXYZabcdefghijklmnopqrstuvwxyz0123456789+/".

Definition base64_char (i : N) : N :=
  nth (N.to_nat i) base64_alphabet 61%N.

Fixpoint base64_fuel (fuel : nat) (b : buffer) : jsstring :=
  match fuel with
  | O => []
  | S fuel' =>
      match b with
      | [] => []
      | [x] =>
          [base64_char (N.shiftr x 2);
           base64_char (N.shiftl (N.land x 3) 4); 61%N; 61%N]
      | [x; y] =>
          [base64_char (N.shiftr x 2);
           base64_char (N.lor (N.shiftl (N.land x 3) 4) (N.shiftr y 4));
           base64_char (N.shiftl (N.land y 15) 2); 61%N]
      | x :: y :: z :: rest =>
          [base64_char (N.shiftr x 2);
           base64_char (N.lor (N.shiftl (N.land x 3) 4) (N.shiftr y 4));
           base64_char (N.lor (N.shiftl (N.land y 15) 2) (N.shiftr z 6));
           base64_char (N.land z 63)] ++ base64_fuel fuel' rest
      end
  end.

Definition toString_base64 (b : buffer) : jsstring :=
  base64_fuel (S (length b)) b.

End JS.

(** ** POSIX [path] functions of Node used by the programs *)

Module Path.
Import JS.

Definition slash : N := 47%N.

Definition isAbsolute (p : jsstring) : bool :=
  match p with c :: _ => code_eqb c slash | [] => false end.

Definition endsWithSlash (p : jsstring) : bool :=
  match List.rev p with c :: _ => code_eqb c slash | [] => false end.

(** The segments of a path between its separators. *)
Fixpoint split_aux (cur : jsstring) (p : jsstring) : list jsstring :=
  match p with
  | [] => [List.rev cur]
  | c :: rest =>
      if code_eqb c slash then List.rev cur :: split_aux [] rest
      else split_aux (c :: cur) rest
  end.

Definition split (p : jsstring) : list jsstring := split_aux [] p.

Definition dot : jsstring := lit ".".
Definition dotdot : jsstring := lit "..".

(** [normalizeString]: empty and [.] segments disappear; [..] removes the
    segment before it, is kept when there is none and the path may climb
    above its root, and is dropped otherwise.  [stack] holds the kept
    segments, last first. *)
Fixpoint normalizeSegments (allowAboveRoot : bool) (stack : list jsstring)
    (segs : list jsstring) : list jsstring :=
  match segs with
  | [] => List.rev stack
  | seg :: rest =>
      if str_eqb seg [] || str_eqb seg dot then
        normalizeSegments allowAboveRoot stack rest
      else if str_eqb seg dotdot then
        match stack with
        | top :: stack' =>
            if str_eqb top dotdot
            then normalizeSegments allowAboveRoot (seg :: stack) rest
            else normalizeSegments allowAboveRoot stack' rest
        | [] =>
            if allowAboveRoot
            then normalizeSegments allowAboveRoot [seg] rest
            else normalizeSegments allowAboveRoot [] rest
        end
      else normalizeSegments allowAboveRoot (seg :: stack) rest
  end.

Definition normalizeString (p : jsstring) (allowAboveRoot : bool) : jsstring :=
  join [slash] (normalizeSegments allowAboveRoot [] (split p)).

(** [path.normalize(p)] *)
Definition normalize (p : jsstring) : jsstring :=
  match p with
  | [] => dot
  | _ =>
      let abs := isAbsolute p in
      let trailing := endsWithSlash p in
      let q := normalizeString p (negb abs) in
      match q with
      | [] => if abs then [slash] else if trailing then lit "./" else dot
      | _ =>
          let q' := if trailing then q ++ [slash] else q in
          if abs then slash :: q' else q'
      end
  end.

(** [path.join(a, b)] *)
Definition join2 (a b : jsstring) : jsstring :=
  match List.filter truthy [a; b] with
  | [] => dot
  | parts => normalize (JS.join [slash] parts)
  end.

(** The loop of [path.resolve]: arguments are prepended from the right
    until an absolute one is met. *)
Fixpoint resolve_args (args_rev : list jsstring) (processCwd : jsstring)
    (resolvedPath : jsstring) : jsstring * bool :=
  match args_rev with
  | [] =>
      match processCwd with
      | [] => (resolvedPath, false)
      | _ => (processCwd ++ [slash] ++ resolvedPath, isAbsolute processCwd)
      end
  | p :: rest =>
      match p with
      | [] => resolve_args rest processCwd resolvedPath
      | _ =>
          if isAbsolute p then (p ++ [slash] ++ resolvedPath, true)
          else resolve_args rest processCwd (p ++ [slash] ++ resolvedPath)
      end
  end.

(** [path.resolve(a, b)] in a process whose working directory is
    [processCwd]. *)
Definition resolve2 (processCwd a b : jsstring) : jsstring :=
  let '(resolvedPath, resolvedAbsolute) := resolve_args [b; a] processCwd [] in
  let q := normalizeString resolvedPath (negb resolvedAbsolute) in
  if resolvedAbsolute then slash :: q
  else match q with [] => dot | _ => q end.

End Path.

(** ** The wrapper's scrollback ring buffer (tm-wrapper.js, class RingBuffer) *)

Module RingBuffer.
Import JS.

Record t := mk {
  buf : buffer;
  capacity : nat;
  writePos : nat;
  totalWritten : nat
}.

(** [constructor(capacity)]: [Buffer.alloc] zero-fills. *)
Definition new (cap : nat) : t :=
  {| buf := replicate cap 0%N; capacity := cap; writePos := 0; totalWritten := 0 |}.

(** [write(data)] on the bytes [src] of the data. *)
Definition write_bytes (rb : t) (src : buffer) : t :=
  if capacity rb <=? length src then
    {| buf := copy src (buf rb) 0 (length src - capacity rb) (length src);
       capacity := capacity rb;
       writePos := 0;
       totalWritten := totalWritten rb + length src |}
  else if writePos rb + length src <=? capacity rb then
    {| buf := copy src (buf rb) (writePos rb) 0 (length src);
       capacity := capacity rb;
       writePos := writePos rb + length src;
       totalWritten := totalWritten rb + length src |}
  else
    let firstPart := capacity rb - writePos rb in
    let buf1 := copy src (buf rb) (writePos rb) 0 firstPart in
    {| buf := copy src buf1 0 firstPart (length src);
       capacity := capacity rb;
       writePos := length src - firstPart;
       totalWritten := totalWritten rb + length src |}.

(** [write(data)] when [data] is a string: it is encoded first. *)
Definition write (rb : t) (data : jsstring) : t :=
  write_bytes rb (Buffer_from data).

(** [getContents()] *)
Definition getContents (rb : t) : buffer :=
  if totalWritten rb <=? capacity rb then
    subarray 0 (writePos rb) (buf rb)
  else
    subarray (writePos rb) (length (buf rb)) (buf rb)
      ++ subarray 0 (writePos rb) (buf rb).

(** A sequence of writes, applied in order. *)
Definition writes (rb : t) (ws : list buffer) : t :=
  fold_left write_bytes ws rb.

(** What a snapshot should be after the writes [ws]. *)
Definition expected (cap : nat) (ws : list buffer) : buffer :=
  lastn (Nat.min (length (concat ws)) cap) (concat ws).

(** The bytes of the buffer in logical order once it has wrapped. *)
Definition rotated (rb : t) : buffer :=
  drop (writePos rb) (buf rb) ++ take (writePos rb) (buf rb).

(** What holds of a buffer of capacity [cap] after the bytes [W] have
    been written to it. *)
Record inv (cap : nat) (rb : t) (W : buffer) : Prop := {
  inv_len : length (buf rb) = cap;
  inv_cap : capacity rb = cap;
  inv_pos : writePos rb ≤ cap;
  inv_total : totalWritten rb = length W;
  inv_low : length W < cap → writePos rb = length W ∧ take (length W) (buf rb) = W;
  inv_eq : length W = cap → writePos rb = cap ∨ writePos rb = 0;
  inv_high : cap ≤ length W → rotated rb = lastn cap W
}.

End RingBuffer.

(** ** The PTY wrapper process (tm-wrapper.js) *)

Module Wrapper.
Import JS.

Definition RING_BUFFER_SIZE : nat := 1 * 1024 * 1024.

(** The frames the wrapper sends on its socket, before [JSON.stringify]. *)
Inductive frame :=
| Hello (cwd : jsstring) (cols rows : Z) (pid : Z) (cmd : jsstring)
        (startedAt : jsstring)
| Scrollback (data : jsstring)
| Output (data : jsstring)
| Resize (cols rows : Z)
| Exit (exitCode : Z).

(** What a path of the file system holds. *)
Inductive fnode :=
| SocketFile
| RegularFile (mode : N) (content : jsstring).

(** What the process finds when it starts. *)
Record process := {
  pid : Z;
  cwd : jsstring;
  tmpdir : jsstring;
  command : jsstring;
  commandArgs : list jsstring;
  cols : Z;
  rows : Z;
  startedAt : jsstring
}.

Record pty := { pty_cols : Z; pty_rows : Z }.

(** A connected socket client is named by a number. *)
Definition client := nat.

(** The module-level state, with the file system, the frames written to
    each client, the local terminal output and the input given to the
    PTY. *)
Record state := {
  ringBuffer : RingBuffer.t;
  ptyProcess : option pty;
  socketServer : bool;
  socketPath : option jsstring;
  socketClients : list client;
  cleaningUp : bool;
  files : list (jsstring * fnode);
  sent : list (client * frame);
  stdout : list jsstring;
  ptyInput : list jsstring
}.

Definition init_ring (cap : nat) (fs : list (jsstring * fnode)) : state :=
  {| ringBuffer := RingBuffer.new cap; ptyProcess := None;
     socketServer := false; socketPath := None; socketClients := [];
     cleaningUp := false; files := fs; sent := []; stdout := [];
     ptyInput := [] |}.

Definition init : list (jsstring * fnode) -> state := init_ring RING_BUFFER_SIZE.

(** *** File system *)

Definition lookup_file (fs : list (jsstring * fnode)) (p : jsstring) : option fnode :=
  snd <$> List.find (fun e => str_eqb (fst e) p) fs.

(** [fs.unlinkSync(p)] inside [try { } catch { }] *)
Definition unlinkSync (fs : list (jsstring * fnode)) (p : jsstring)
    : list (jsstring * fnode) :=
  List.filter (fun e => negb (str_eqb (fst e) p)) fs.

(** *** Set of clients, in insertion order *)

Definition client_add (c : client) (s : list client) : list client :=
  if existsb (Nat.eqb c) s then s else s ++ [c].

Definition client_delete (c : client) (s : list client) : list client :=
  List.filter (fun x => negb (Nat.eqb c x)) s.

(** *** Sending *)

Definition with_sent (st : state) (l : list (client * frame)) : state :=
  {| ringBuffer := ringBuffer st; ptyProcess := ptyProcess st;
     socketServer := socketServer st; socketPath := socketPath st;
     socketClients := socketClients st; cleaningUp := cleaningUp st;
     files := files st; sent := l; stdout := stdout st;
     ptyInput := ptyInput st |}.

Definition sendToClient (st : state) (c : client) (obj : frame) : state :=
  with_sent st (sent st ++ [(c, obj)]).

Definition broadcastToMirrors (st : state) (obj : frame) : state :=
  with_sent st (sent st ++ List.map (fun c => (c, obj)) (socketClients st)).

(** *** [startSocketServer], with the outcome of [listen] *)

Definition socket_path (p : process) : jsstring :=
  Path.join2 (tmpdir p) (lit "tm-" ++ of_Z (pid p) ++ lit ".sock").

Definition token_path (p : process) : jsstring :=
  Path.join2 (tmpdir p) (lit "tm-" ++ of_Z (pid p) ++ lit ".token").

Definition startSocketServer (p : process) (listen_ok : bool) (st : state) : state :=
  let path := socket_path p in
  let fs1 := unlinkSync (files st) path in
  {| ringBuffer := ringBuffer st; ptyProcess := ptyProcess st;
     socketServer := true; socketPath := Some path;
     socketClients := socketClients st; cleaningUp := cleaningUp st;
     files := if listen_ok then fs1 ++ [(path, SocketFile)] else fs1;
     sent := sent st; stdout := stdout st; ptyInput := ptyInput st |}.

(** *** [spawnPty] *)

Definition spawnPty (p : process) (st : state) : state :=
  {| ringBuffer := ringBuffer st;
     ptyProcess := Some {| pty_cols := cols p; pty_rows := rows p |};
     socketServer := socketServer st; socketPath := socketPath st;
     socketClients := socketClients st; cleaningUp := cleaningUp st;
     files := files st; sent := sent st; stdout := stdout st;
     ptyInput := ptyInput st |}.

(** The start of the program: [startSocketServer(); spawnPty();] *)
Definition main (p : process) (listen_ok : bool) (fs : list (jsstring * fnode)) : state :=
  spawnPty p (startSocketServer p listen_ok (init fs)).

(** *** The connection handler of the socket server *)

Definition hello (p : process) (st : state) : frame :=
  Hello (cwd p)
        (match ptyProcess st with Some t => pty_cols t | None => cols p end)
        (match ptyProcess st with Some t => pty_rows t | None => rows p end)
        (pid p)
        (join (lit " ") (command p :: commandArgs p))
        (startedAt p).

Definition on_connection (p : process) (c : client) (st : state) : state :=
  let st1 :=
    {| ringBuffer := ringBuffer st; ptyProcess := ptyProcess st;
       socketServer := socketServer st; socketPath := socketPath st;
       socketClients := client_add c (socketClients st);
       cleaningUp := cleaningUp st; files := files st; sent := sent st;
       stdout := stdout st; ptyInput := ptyInput st |} in
  let st2 := sendToClient st1 c (hello p st1) in
  let scrollback := RingBuffer.getContents (ringBuffer st2) in
  if 0 <? length scrollback
  then sendToClient st2 c (Scrollback (toString_base64 scrollback))
  else st2.

(** What a new client is greeted with: the hello frame and, when the
    snapshot of the ring buffer is not empty, a scrollback frame. *)
Definition greeting (p : process) (st : state) : list frame :=
  let snapshot := RingBuffer.getContents (ringBuffer st) in
  hello p st
  :: (if 0 <? length snapshot then [Scrollback (toString_base64 snapshot)] else []).

(** *** The PTY handlers *)

Definition on_data (data : jsstring) (st : state) : state :=
  let st1 :=
    {| ringBuffer := RingBuffer.write (ringBuffer st) data;
       ptyProcess := ptyProcess st;
       socketServer := socketServer st; socketPath := socketPath st;
       socketClients := socketClients st; cleaningUp := cleaningUp st;
       files := files st; sent := sent st; stdout := stdout st ++ [data];
       ptyInput := ptyInput st |} in
  broadcastToMirrors st1 (Output (toString_base64 (Buffer_from data))).

(** [cleanup]: the clients are ended, the server closed and the socket
    file removed; the exit itself is left to the timer it sets. *)
Definition cleanup (st : state) : state :=
  if cleaningUp st then st
  else
    {| ringBuffer := ringBuffer st; ptyProcess := ptyProcess st;
       socketServer := socketServer st; socketPath := socketPath st;
       socketClients := socketClients st; cleaningUp := true;
       files := match socketPath st with
                | Some path => unlinkSync (files st) path
                | None => files st
                end;
       sent := sent st; stdout := stdout st; ptyInput := ptyInput st |}.

Definition on_exit (exitCode : Z) (st : state) : state :=
  cleanup (broadcastToMirrors st (Exit exitCode)).

(** The [resize] handler of the local terminal. *)
Definition on_resize (newCols newRows : Z) (st : state) : state :=
  let st1 :=
    {| ringBuffer := ringBuffer st;
       ptyProcess := match ptyProcess st with
                     | Some _ => Some {| pty_cols := newCols; pty_rows := newRows |}
                     | None => None
                     end;
       socketServer := socketServer st; socketPath := socketPath st;
       socketClients := socketClients st; cleaningUp := cleaningUp st;
       files := files st; sent := sent st; stdout := stdout st;
       ptyInput := ptyInput st |} in
  broadcastToMirrors st1 (Resize newCols newRows).

(** [handleClientMessage] for an [input] message carrying [data]. *)
Definition on_input (data : jsstring) (st : state) : state :=
  match ptyProcess st with
  | Some _ =>
      if truthy data then
        {| ringBuffer := ringBuffer st; ptyProcess := ptyProcess st;
           socketServer := socketServer st; socketPath := socketPath st;
           socketClients := socketClients st; cleaningUp := cleaningUp st;
           files := files st; sent := sent st; stdout := stdout st;
           ptyInput := ptyInput st ++ [data] |}
      else st
  | None => st
  end.

(** The [close] and [error] handlers of a client. *)
Definition on_client_gone (c : client) (st : state) : state :=
  {| ringBuffer := ringBuffer st; ptyProcess := ptyProcess st;
     socketServer := socketServer st; socketPath := socketPath st;
     socketClients := client_delete c (socketClients st);
     cleaningUp := cleaningUp st; files := files st; sent := sent st;
     stdout := stdout st; ptyInput := ptyInput st |}.

(** The events the wrapper reacts to, each handled to completion. *)
Inductive event :=
| Connection (c : client)
| Data (data : jsstring)
| ExitEv (exitCode : Z)
| ResizeEv (newCols newRows : Z)
| Input (data : jsstring)
| ClientGone (c : client).

Definition step (p : process) (st : state) (e : event) : state :=
  match e with
  | Connection c => on_connection p c st
  | Data d => on_data d st
  | ExitEv code => on_exit code st
  | ResizeEv c r => on_resize c r st
  | Input d => on_input d st
  | ClientGone c => on_client_gone c st
  end.

Definition run (p : process) (st : state) (es : list event) : state :=
  fold_left (step p) es st.

(** The frames written to one client, in order. *)
Definition frames_to (c : client) (st : state) : list frame :=
  snd <$> List.filter (fun e => Nat.eqb (fst e) c) (sent st).

Definition is_output (f : frame) : bool :=
  match f with Output _ => true | _ => false end.

End Wrapper.

(** ** The multi-session mirror server (mirror-server.js) *)

Module Relay.
Import JS.

(** *** Constants *)

Definition START_PORT : Z := 3456.
Definition MAX_PORT_SCAN : nat := 100.
Definition POLL_TIMEOUT_MS : Z := 120000.
Definition MAX_BODY_BYTES : nat := 1 * 1024 * 1024.
Definition MAX_FILE_READ_BYTES : N := 2 * 1024 * 1024.
Definition MAX_SELECTED_TEXT : nat := 80.
Definition MAX_MESSAGE_QUEUE : nat := 100.
Definition SOCKET_RECONNECT_MS : Z := 3000.
Definition SOCKET_RECONNECT_MAX : nat := 10.
Definition SESSION_SCAN_INTERVAL_MS : Z := 5000.

(** *** Data *)

Record wrapperInfo := {
  cwd : jsstring;
  cols : Z;
  rows : Z;
  pid : Z;
  cmd : jsstring;
  startedAt : option jsstring
}.

(** A mailbox entry: [{ text, at }]. *)
Record entry := { text : jsstring; at_ : jsstring }.

(** A pending long poll: [{ res, timer }], both named by numbers. *)
Record waiter := { res : nat; timer : nat }.

Record session := {
  s_pid : Z;
  sockPath : jsstring;
  socket : option nat;
  connected : bool;
  info : wrapperInfo;
  wrapperToken : option jsstring;
  lineBuf : jsstring;
  reconnects : nat;
  terminalClients : list nat;
  commentClients : list nat;
  messageQueue : list entry;
  pollWaiters : list waiter
}.

(** A comment of a submitted batch. *)
Record comment := { selectedText : jsstring; comment_text : jsstring }.

Record submit_body := {
  comments : list comment;
  message : jsstring;
  batchId : option jsstring
}.

(** One item of the [/api/sessions] answer. *)
Record session_item := {
  i_pid : Z;
  i_cmd : jsstring;
  i_cwd : jsstring;
  i_startedAt : option jsstring;
  i_connected : bool
}.

(** Response bodies, before [JSON.stringify]. *)
Inductive body :=
| JsonError (msg : jsstring)
| JsonSessions (l : list session_item)
| JsonStatus (cols rows pid : Z) (wrapperConnected : bool) (cmd : jsstring)
| JsonEntry (e : entry)
| JsonMessages (l : list entry)
| JsonSuccess
| JsonDone
| JsonFile (path relativePath content : jsstring)
| Raw (content : jsstring)
| NoBody.

Record response := { status : nat; resp_body : body }.

(** Messages sent to browser clients over a WebSocket. *)
Inductive ws_msg :=
| WsResize (cols rows : Z)
| WsStatus (connected : bool) (exitCode : option Z)
| WsBinary (buf : buffer)
| WsComments (batch : list (comment * jsstring)) (batchId : option jsstring)
| WsShutdown.

(** What a handler does to the outside, in order. *)
Inductive effect :=
| Respond (res : nat) (r : response)
| ClearTimeout (timer : nat)
| SetPollTimeout (timer : nat) (res : nat) (session : Z) (delay : Z)
| SetReconnect (session : Z) (delay : Z)
| SetCleanup (exitCode : Z) (delay : Z)
| CreateConnection (session : Z) (path : jsstring)
| SocketWrite (session : Z) (data : jsstring)
| WsSend (ws : nat) (m : ws_msg)
| Unlink (path : jsstring).

(** The outside, as a handler finds it. *)
Record fstat := { isFile : bool; size : N }.

(** [unlinkable p] tells whether a call of [fs.unlinkSync(p)] succeeds;
    it throws otherwise, for a path that is a directory or a file of
    another user in a sticky directory. *)
Record world := {
  tmpDir : jsstring;
  tmpEntries : option (list jsstring);
  alive : Z -> bool;
  accessible : jsstring -> bool;
  unlinkable : jsstring -> bool;
  readToken : jsstring -> option jsstring;
  statSync : jsstring -> option fstat;
  readFileSync : jsstring -> option jsstring;
  relative : jsstring -> jsstring -> jsstring;
  dateValue : jsstring -> option Z;
  processCwd : jsstring;
  homedir : jsstring;
  publicDir : jsstring;
  now : jsstring;
  wsOpen : nat -> bool
}.

(** The module-level state of the server. *)
Record relay := {
  sessions : list (Z * session);
  serverPort : option Z;
  masterToken : jsstring;
  remoteMode : bool
}.

Definition with_sessions (r : relay) (l : list (Z * session)) : relay :=
  {| sessions := l; serverPort := serverPort r;
     masterToken := masterToken r; remoteMode := remoteMode r |}.

(** *** Maps in insertion order ([Map]) and sets ([Set]) *)

Fixpoint map_get {V} (k : Z) (m : list (Z * V)) : option V :=
  match m with
  | [] => None
  | (k', v) :: rest => if Z.eqb k k' then Some v else map_get k rest
  end.

Definition map_has {V} (k : Z) (m : list (Z * V)) : bool :=
  match map_get k m with Some _ => true | None => false end.

(** [m.set(k, v)]: an existing key keeps its place. *)
Fixpoint map_set {V} (k : Z) (v : V) (m : list (Z * V)) : list (Z * V) :=
  match m with
  | [] => [(k, v)]
  | (k', v') :: rest =>
      if Z.eqb k k' then (k, v) :: rest else (k', v') :: map_set k v rest
  end.

Definition set_add (c : nat) (s : list nat) : list nat :=
  if existsb (Nat.eqb c) s then s else s ++ [c].

Definition set_delete (c : nat) (s : list nat) : list nat :=
  List.filter (fun x => negb (Nat.eqb c x)) s.

(** *** Field updates of a session *)

Definition set_socket (v : option nat) (s : session) : session :=
  {| s_pid := s_pid s; sockPath := sockPath s; socket := v;
     connected := connected s; info := info s;
     wrapperToken := wrapperToken s; lineBuf := lineBuf s;
     reconnects := reconnects s; terminalClients := terminalClients s;
     commentClients := commentClients s; messageQueue := messageQueue s;
     pollWaiters := pollWaiters s |}.

Definition set_connected (v : bool) (s : session) : session :=
  {| s_pid := s_pid s; sockPath := sockPath s; socket := socket s;
     connected := v; info := info s;
     wrapperToken := wrapperToken s; lineBuf := lineBuf s;
     reconnects := reconnects s; terminalClients := terminalClients s;
     commentClients := commentClients s; messageQueue := messageQueue s;
     pollWaiters := pollWaiters s |}.

Definition set_info (v : wrapperInfo) (s : session) : session :=
  {| s_pid := s_pid s; sockPath := sockPath s; socket := socket s;
     connected := connected s; info := v;
     wrapperToken := wrapperToken s; lineBuf := lineBuf s;
     reconnects := reconnects s; terminalClients := terminalClients s;
     commentClients := commentClients s; messageQueue := messageQueue s;
     pollWaiters := pollWaiters s |}.

Definition set_wrapperToken (v : option jsstring) (s : session) : session :=
  {| s_pid := s_pid s; sockPath := sockPath s; socket := socket s;
     connected := connected s; info := info s;
     wrapperToken := v; lineBuf := lineBuf s;
     reconnects := reconnects s; terminalClients := terminalClients s;
     commentClients := commentClients s; messageQueue := messageQueue s;
     pollWaiters := pollWaiters s |}.

Definition set_lineBuf (v : jsstring) (s : session) : session :=
  {| s_pid := s_pid s; sockPath := sockPath s; socket := socket s;
     connected := connected s; info := info s;
     wrapperToken := wrapperToken s; lineBuf := v;
     reconnects := reconnects s; terminalClients := terminalClients s;
     commentClients := commentClients s; messageQueue := messageQueue s;
     pollWaiters := pollWaiters s |}.

Definition set_reconnects (v : nat) (s : session) : session :=
  {| s_pid := s_pid s; sockPath := sockPath s; socket := socket s;
     connected := connected s; info := info s;
     wrapperToken := wrapperToken s; lineBuf := lineBuf s;
     reconnects := v; terminalClients := terminalClients s;
     commentClients := commentClients s; messageQueue := messageQueue s;
     pollWaiters := pollWaiters s |}.

Definition set_terminalClients (v : list nat) (s : session) : session :=
  {| s_pid := s_pid s; sockPath := sockPath s; socket := socket s;
     connected := connected s; info := info s;
     wrapperToken := wrapperToken s; lineBuf := lineBuf s;
     reconnects := reconnects s; terminalClients := v;
     commentClients := commentClients s; messageQueue := messageQueue s;
     pollWaiters := pollWaiters s |}.

Definition set_commentClients (v : list nat) (s : session) : session :=
  {| s_pid := s_pid s; sockPath := sockPath s; socket := socket s;
     connected := connected s; info := info s;
     wrapperToken := wrapperToken s; lineBuf := lineBuf s;
     reconnects := reconnects s; terminalClients := terminalClients s;
     commentClients := v; messageQueue := messageQueue s;
     pollWaiters := pollWaiters s |}.

Definition set_messageQueue (v : list entry) (s : session) : session :=
  {| s_pid := s_pid s; sockPath := sockPath s; socket := socket s;
     connected := connected s; info := info s;
     wrapperToken := wrapperToken s; lineBuf := lineBuf s;
     reconnects := reconnects s; terminalClients := terminalClients s;
     commentClients := commentClients s; messageQueue := v;
     pollWaiters := pollWaiters s |}.

Definition set_pollWaiters (v : list waiter) (s : session) : session :=
  {| s_pid := s_pid s; sockPath := sockPath s; socket := socket s;
     connected := connected s; info := info s;
     wrapperToken := wrapperToken s; lineBuf := lineBuf s;
     reconnects := reconnects s; terminalClients := terminalClients s;
     commentClients := commentClients s; messageQueue := messageQueue s;
     pollWaiters := v |}.

(** *** [createSession] *)

Definition createSession (w : world) (pid : Z) (sockPath : jsstring) : session :=
  {| s_pid := pid; sockPath := sockPath; socket := None; connected := false;
     info := {| cwd := processCwd w; cols := 80; rows := 24; pid := pid;
                cmd := []; startedAt := None |};
     wrapperToken := None; lineBuf := []; reconnects := 0;
     terminalClients := []; commentClients := [];
     messageQueue := []; pollWaiters := [] |}.

(** *** [resolveNextPoll] *)

Definition json (status : nat) (b : body) : response :=
  {| status := status; resp_body := b |}.

(** The loop runs while both lists are non-empty; each round shifts one
    waiter and one message. *)
Fixpoint resolve_loop (ws : list waiter) (q : list entry)
    : list waiter * list entry * list effect :=
  match ws, q with
  | w :: ws', msg :: q' =>
      let '(ws'', q'', effs) := resolve_loop ws' q' in
      (ws'', q'',
       ClearTimeout (timer w) :: Respond (res w) (json 200 (JsonEntry msg)) :: effs)
  | _, _ => (ws, q, [])
  end.

Definition resolveNextPoll (s : session) : session * list effect :=
  let '(ws, q, effs) := resolve_loop (pollWaiters s) (messageQueue s) in
  (set_pollWaiters ws (set_messageQueue q s), effs).

(** *** Broadcast helpers *)

Definition broadcastTerminalJSON (w : world) (s : session) (obj : ws_msg) : list effect :=
  List.map (fun ws => WsSend ws obj) (List.filter (wsOpen w) (terminalClients s)).

Definition broadcastTerminalBinary (w : world) (s : session) (buf : buffer) : list effect :=
  List.map (fun ws => WsSend ws (WsBinary buf)) (List.filter (wsOpen w) (terminalClients s)).

Definition broadcastCommentJSON (w : world) (s : session) (obj : ws_msg) : list effect :=
  List.map (fun ws => WsSend ws obj) (List.filter (wsOpen w) (commentClients s)).

(** *** Socket discovery *)

Definition with_tmpEntries (w : world) (l : option (list jsstring)) : world :=
  {| tmpDir := tmpDir w; tmpEntries := l; alive := alive w;
     accessible := accessible w; unlinkable := unlinkable w;
     readToken := readToken w;
     statSync := statSync w; readFileSync := readFileSync w;
     relative := relative w; dateValue := dateValue w;
     processCwd := processCwd w; homedir := homedir w;
     publicDir := publicDir w; now := now w; wsOpen := wsOpen w |}.

(** The body of the loop of [scanForWrappers] for one directory entry:
    the map of live wrappers so far and the entries on which
    [fs.unlinkSync] is called so far. *)
Definition scan_entry (w : world) (acc : list (Z * jsstring) * list jsstring)
    (entry : jsstring) : list (Z * jsstring) * list jsstring :=
  let '(found, unlinked) := acc in
  if startsWith entry (lit "tm-") && endsWith entry (lit ".sock") then
    let sockPath := Path.join2 (tmpDir w) entry in
    let pidStr := slice_neg 3 5 entry in
    match parseInt pidStr with
    | None => acc
    | Some pid =>
        if alive w pid then (map_set pid sockPath found, unlinked)
        else (found, unlinked ++ [entry])
    end
  else acc.

Definition str_in (x : jsstring) (l : list jsstring) : bool :=
  existsb (str_eqb x) l.

(** [scanForWrappers]: the live wrappers found, the effects, and the
    directory afterwards.  [Unlink] is the call of [fs.unlinkSync] inside
    [try { } catch { }]: the entry is gone from the directory when the
    call succeeds, and stays when it throws. *)
Definition scanForWrappers (w : world)
    : list (Z * jsstring) * list effect * world :=
  match tmpEntries w with
  | None => ([], [], w)
  | Some entries =>
      let '(found, unlinked) := fold_left (scan_entry w) entries ([], []) in
      (found,
       List.map (fun e => Unlink (Path.join2 (tmpDir w) e)) unlinked,
       with_tmpEntries w
         (Some (List.filter
                  (fun e => negb (str_in e unlinked
                                  && unlinkable w (Path.join2 (tmpDir w) e)))
                  entries)))
  end.

(** An entry that a scan takes for the socket of a dead wrapper. *)
Definition is_stale (w : world) (entry : jsstring) : bool :=
  startsWith entry (lit "tm-") && endsWith entry (lit ".sock")
  && match parseInt (slice_neg 3 5 entry) with
     | Some pid => negb (alive w pid)
     | None => false
     end.

(** [str.replace(/\.sock$/, '.token')] *)
Definition token_file (sockPath : jsstring) : jsstring :=
  if endsWith sockPath (lit ".sock")
  then take (length sockPath - 5) sockPath ++ lit ".token"
  else sockPath.

(** A token that is [null] or the empty string is falsy. *)
Definition no_token (t : option jsstring) : bool :=
  match t with None => true | Some t' => negb (truthy t') end.

(** [connectToWrapper], up to the registration of the socket handlers;
    [sock] names the connection it creates.  A token file that cannot be
    read leaves the token as it was. *)
Definition connectToWrapper (w : world) (sock : nat) (s : session)
    : session * list effect :=
  let s1 :=
    if no_token (wrapperToken s) && truthy (sockPath s) then
      match readToken w (token_file (sockPath s)) with
      | Some t => set_wrapperToken (Some t) s
      | None => s
      end
    else s in
  (set_lineBuf [] (set_socket (Some sock) s1),
   [CreateConnection (s_pid s) (sockPath s)]).

(** The first loop of [discoverAndConnect]; [sock] counts the connections
    created, to name them. *)
Fixpoint connect_new (w : world) (sock : nat) (found : list (Z * jsstring))
    (sessions : list (Z * session)) : list (Z * session) * list effect :=
  match found with
  | [] => (sessions, [])
  | (pid, sockPath) :: rest =>
      if map_has pid sessions then connect_new w sock rest sessions
      else
        let '(s, effs) := connectToWrapper w sock (createSession w pid sockPath) in
        let '(sessions', effs') :=
          connect_new w (S sock) rest (map_set pid s sessions) in
        (sessions', effs ++ effs')
  end.

(** [discoverAndConnect]; its second loop has an empty body. *)
Definition discoverAndConnect (w : world) (sock : nat) (r : relay)
    : relay * list effect * world :=
  let '(found, effs, w') := scanForWrappers w in
  let '(sessions', effs') := connect_new w' sock found (sessions r) in
  (with_sessions r sessions', effs ++ effs', w').

(** *** The handlers of a wrapper connection *)

Inductive error_code :=
| ENOENT
| ECONNREFUSED
| OtherError (code : jsstring).

(** [sock.on('connect', ...)] *)
Definition on_connect (w : world) (s : session) : session * list effect :=
  let s1 := set_reconnects 0 (set_connected true s) in
  (s1, broadcastTerminalJSON w s1 (WsStatus true None)).

(** The reconnect decision shared by the [close] and [error] handlers. *)
Definition try_reconnect (w : world) (s : session) : session * list effect :=
  if reconnects s <? SOCKET_RECONNECT_MAX then
    if accessible w (sockPath s) then
      (set_reconnects (S (reconnects s)) s,
       [SetReconnect (s_pid s) SOCKET_RECONNECT_MS])
    else (s, [])
  else (s, []).

(** [sock.on('close', ...)] *)
Definition on_close (w : world) (s : session) : session * list effect :=
  let s1 := set_socket None (set_connected false s) in
  let effs := broadcastTerminalJSON w s1 (WsStatus false None) in
  let '(s2, effs') := try_reconnect w s1 in
  (s2, effs ++ effs').

(** [err.code === 'ENOENT' || err.code === 'ECONNREFUSED'] *)
Definition connection_failed (err : error_code) : bool :=
  match err with
  | ENOENT | ECONNREFUSED => true
  | OtherError _ => false
  end.

(** [sock.on('error', ...)] *)
Definition on_error (w : world) (err : error_code) (s : session)
    : session * list effect :=
  if connection_failed err
  then try_reconnect w (set_socket None (set_connected false s))
  else (s, []).

(** The events of the connection manager of one session.  [TimerFired]
    is the reconnect timer calling [connectToWrapper]. *)
Inductive conn_event :=
| SockConnect
| SockClose
| SockError (err : error_code)
| TimerFired (sock : nat).

Definition is_reconnect (e : effect) : bool :=
  match e with SetReconnect _ _ => true | _ => false end.

Definition is_connection (e : effect) : bool :=
  match e with CreateConnection _ _ => true | _ => false end.

Definition count_reconnects (effs : list effect) : nat :=
  length (List.filter is_reconnect effs).

Definition count_connections (effs : list effect) : nat :=
  length (List.filter is_connection effs).

(** A session as the runtime sees it: with the number of its reconnect
    timers that are set and have not fired yet, and the number of its
    sockets that are created and not closed yet. *)
Record conn_state := { sess : session; pending : nat; live : nat }.

Definition handler_step (w : world) (s : session) (e : conn_event)
    : session * list effect :=
  match e with
  | SockConnect => on_connect w s
  | SockClose => on_close w s
  | SockError err => on_error w err s
  | TimerFired sock => connectToWrapper w sock s
  end.

(** One event.  A timer fires only when one is pending, and creates a
    socket; a socket event comes only from a socket that is not closed
    yet, and [close] is the last event of a socket; every timer a handler
    sets becomes pending. *)
Definition conn_step (w : world) (st : conn_state) (e : conn_event)
    : conn_state * list effect :=
  match e with
  | TimerFired _ =>
      match pending st with
      | O => (st, [])
      | S n =>
          let '(s', effs) := handler_step w (sess st) e in
          ({| sess := s'; pending := n + count_reconnects effs;
              live := S (live st) |}, effs)
      end
  | SockClose =>
      match live st with
      | O => (st, [])
      | S l =>
          let '(s', effs) := handler_step w (sess st) e in
          ({| sess := s'; pending := pending st + count_reconnects effs;
              live := l |}, effs)
      end
  | SockConnect | SockError _ =>
      match live st with
      | O => (st, [])
      | S _ =>
          let '(s', effs) := handler_step w (sess st) e in
          ({| sess := s'; pending := pending st + count_reconnects effs;
              live := live st |}, effs)
      end
  end.

(** A run of the connection manager; the outside may differ at each
    event. *)
Fixpoint conn_run (st : conn_state) (es : list (world * conn_event))
    : conn_state * list effect :=
  match es with
  | [] => (st, [])
  | (w, e) :: rest =>
      let '(st1, effs) := conn_step w st e in
      let '(st2, effs') := conn_run st1 rest in
      (st2, effs ++ effs')
  end.

Definition is_connect_event (e : world * conn_event) : bool :=
  match snd e with SockConnect => true | _ => false end.

(** A run in which no connection attempt succeeds. *)
Definition no_connect (es : list (world * conn_event)) : bool :=
  forallb (fun e => negb (is_connect_event e)) es.

(** [handleWrapperMessage] on a parsed frame of the wrapper.  Absent or
    falsy fields of [hello] are [None]. *)
Inductive wrapper_msg :=
| MHello (cwd : option jsstring) (cols rows pid : option Z)
         (cmd startedAt token : option jsstring)
| MScrollback (data : buffer)
| MOutput (data : buffer)
| MResize (cols rows : Z)
| MExit (exitCode : Z).

Definition handleWrapperMessage (w : world) (s : session) (msg : wrapper_msg)
    : session * list effect :=
  match msg with
  | MHello cwd cols rows pid cmd startedAt token =>
      let i := {| cwd := default (processCwd w) cwd;
                  cols := default 80%Z cols;
                  rows := default 24%Z rows;
                  pid := default (s_pid s) pid;
                  cmd := default [] cmd;
                  startedAt := startedAt |} in
      let s1 := set_info i s in
      let s2 := match token with
                | Some t =>
                    if no_token (wrapperToken s1)
                    then set_wrapperToken (Some t) s1 else s1
                | None => s1
                end in
      (s2, broadcastTerminalJSON w s2 (WsResize (Relay.cols i) (Relay.rows i)))
  | MScrollback data => (s, broadcastTerminalBinary w s data)
  | MOutput data => (s, broadcastTerminalBinary w s data)
  | MResize cols rows =>
      let i := info s in
      let s1 := set_info {| cwd := cwd i; cols := cols; rows := rows;
                            pid := pid i; cmd := cmd i;
                            startedAt := startedAt i |} s in
      (s1, broadcastTerminalJSON w s1 (WsResize cols rows))
  | MExit exitCode =>
      (s, broadcastTerminalJSON w s (WsStatus false (Some exitCode)))
  end.

(** [sendToWrapper] *)
Definition sendToWrapper (s : session) (data : jsstring) : list effect :=
  match socket s with
  | Some _ => if connected s then [SocketWrite (s_pid s) data] else []
  | None => []
  end.

(** *** Authentication *)

(** The result of a call that may throw. *)
Inductive outcome (A : Type) :=
| Returned (a : A)
| Thrown (err : jsstring).
Arguments Returned {A} a.
Arguments Thrown {A} err.

Fixpoint bytes_eqb (a b : buffer) : bool :=
  match a, b with
  | [], [] => true
  | x :: a', y :: b' => N.eqb x y && bytes_eqb a' b'
  | _, _ => false
  end.

(** [crypto.timingSafeEqual(a, b)] throws a [RangeError] when the two
    buffers differ in byte length. *)
Definition timingSafeEqual (a b : buffer) : outcome bool :=
  if length a =? length b then Returned (bytes_eqb a b)
  else Thrown (lit "RangeError").

(** [isValidToken] *)
Definition isValidToken (masterToken candidate : jsstring) : outcome bool :=
  if negb (truthy candidate) || negb (jslength candidate =? jslength masterToken)
  then Returned false
  else timingSafeEqual (Buffer_from candidate) (Buffer_from masterToken).

(** A request, with its URL already parsed; an absent header is the
    empty string. *)
Record request := {
  method : jsstring;
  pathname : jsstring;
  origin : jsstring;
  authorization : jsstring;
  query : list (jsstring * jsstring);
  req_body : option submit_body
}.

(** [url.searchParams.get(name)] *)
Definition searchParams_get (name : jsstring) (q : list (jsstring * jsstring))
    : option jsstring :=
  snd <$> List.find (fun kv => str_eqb (fst kv) name) q.

(** [url.searchParams.get('token') || ''] *)
Definition query_token (req : request) : jsstring :=
  default [] (searchParams_get (lit "token") (query req)).

(** [extractToken] *)
Definition extractToken (req : request) : jsstring :=
  if startsWith (authorization req) (lit "Bearer ")
  then slice_from 7 (authorization req)
  else query_token req.

(** [rejectUnauthorized] *)
Definition unauthorized : response := json 401 (JsonError (lit "Unauthorized")).

(** [getSessionFromQuery]: the key and the session found under it. *)
Definition getSessionFromQuery (r : relay) (req : request) : option (Z * session) :=
  match searchParams_get (lit "session") (query req) with
  | None => None
  | Some pidStr =>
      if truthy pidStr then
        match parseInt pidStr with
        | None => None
        | Some pid => (fun s => (pid, s)) <$> map_get pid (sessions r)
        end
      else None
  end.

(** *** The routes of the HTTP server *)

Definition missing_session : response :=
  json 400 (JsonError (lit "Missing or invalid session parameter")).

(** [GET /api/sessions]: the comparison function of the sort.  A date
    that does not parse makes the difference [NaN], which sorts as equal. *)
Definition compare_items (w : world) (a b : session_item) : Z :=
  match i_startedAt a, i_startedAt b with
  | None, None => 0
  | None, Some _ => 1
  | Some _, None => -1
  | Some x, Some y =>
      match dateValue w x, dateValue w y with
      | Some dx, Some dy => dy - dx
      | _, _ => 0
      end
  end%Z.

(** [Array.prototype.sort] is stable: an element goes after those before
    it that do not compare greater. *)
Fixpoint sort_insert {A} (cmp : A -> A -> Z) (x : A) (l : list A) : list A :=
  match l with
  | [] => [x]
  | y :: rest =>
      if (0 <? cmp y x)%Z then x :: y :: rest
      else y :: sort_insert cmp x rest
  end.

Definition sort {A} (cmp : A -> A -> Z) (l : list A) : list A :=
  fold_left (fun acc x => sort_insert cmp x acc) l [].

Definition session_item_of (kv : Z * session) : session_item :=
  {| i_pid := fst kv; i_cmd := cmd (info (snd kv)); i_cwd := cwd (info (snd kv));
     i_startedAt := startedAt (info (snd kv));
     i_connected := connected (snd kv) |}.

Definition sessions_list (w : world) (r : relay) : list session_item :=
  sort (compare_items w) (List.map session_item_of (sessions r)).

(** [POST /api/submit]: the text of a batch. *)
Definition quote : N := 34%N.

Definition comment_part (c : comment) : jsstring :=
  (if truthy (selectedText c)
   then lit "[Re: " ++ [quote] ++ substring0 MAX_SELECTED_TEXT (selectedText c)
          ++ [quote] ++ lit "] "
   else []) ++ comment_text c.

Definition submit_text (b : submit_body) : jsstring :=
  join [10; 10]%N
    (List.map comment_part (comments b)
       ++ (if truthy (message b) then [message b] else [])).

(** The queue part of the handler: drop the oldest entry at capacity,
    push, then serve waiting polls. *)
Definition enqueue (e : entry) (s : session) : session * list effect :=
  let q := if MAX_MESSAGE_QUEUE <=? length (messageQueue s)
           then tail (messageQueue s) else messageQueue s in
  resolveNextPoll (set_messageQueue (q ++ [e]) s).

Definition submit (w : world) (b : submit_body) (s : session)
    : session * list effect :=
  let text := submit_text b in
  if truthy text then
    let e := {| text := text; at_ := now w |} in
    let '(s1, effs) := enqueue e s in
    (s1,
     effs ++
     match comments b with
     | [] => []
     | cs => broadcastCommentJSON w s1
               (WsComments (List.map (fun c => (c, at_ e)) cs) (batchId b))
     end)
  else (s, []).

(** [GET /api/poll] *)
Definition poll (res timer : nat) (s : session) : session * list effect :=
  match messageQueue s with
  | msg :: q =>
      (set_messageQueue q s, [Respond res (json 200 (JsonEntry msg))])
  | [] =>
      (set_pollWaiters (pollWaiters s ++ [{| res := res; timer := timer |}]) s,
       [SetPollTimeout timer res (s_pid s) POLL_TIMEOUT_MS])
  end.

(** [pollWaiters.findIndex(w => w.res === res)] and [splice(idx, 1)] *)
Fixpoint remove_waiter (r : nat) (ws : list waiter) : list waiter :=
  match ws with
  | [] => []
  | w :: rest => if Nat.eqb (res w) r then rest else w :: remove_waiter r rest
  end.

(** The timer of a waiting poll fires. *)
Definition on_poll_timeout (r : nat) (s : session) : session * list effect :=
  (set_pollWaiters (remove_waiter r (pollWaiters s)) s,
   [Respond r {| status := 204; resp_body := NoBody |}]).

(** The request of a waiting poll is closed. *)
Definition on_poll_close (r timer : nat) (s : session) : session * list effect :=
  (set_pollWaiters (remove_waiter r (pollWaiters s)) s, [ClearTimeout timer]).

(** [GET /api/messages] *)
Definition drain (res : nat) (s : session) : session * list effect :=
  (set_messageQueue [] s, [Respond res (json 200 (JsonMessages (messageQueue s)))]).

(** [GET /api/file]: the working directory that relative paths start
    from, that of the session when the request names one. *)
Definition request_cwd (w : world) (r : relay) (req : request) : jsstring :=
  match getSessionFromQuery r req with
  | Some (_, s) => cwd (info s)
  | None => processCwd w
  end.

(** The path after the expansion of a leading [~/]. *)
Definition expand_home (w : world) (filePath : jsstring) : jsstring :=
  if startsWith filePath (lit "~/")
  then Path.join2 (homedir w) (slice_from 2 filePath)
  else filePath.

Definition file_route (w : world) (r : relay) (req : request) : response :=
  let cwd := request_cwd w r req in
  match searchParams_get (lit "path") (query req) with
  | None => json 400 (JsonError (lit "Missing path parameter"))
  | Some filePath0 =>
      if negb (truthy filePath0)
      then json 400 (JsonError (lit "Missing path parameter"))
      else
        let filePath := expand_home w filePath0 in
        let resolved := Path.resolve2 (processCwd w) cwd filePath in
        match statSync w resolved with
        | None => json 404 (JsonError (lit "File not found"))
        | Some st =>
            if negb (isFile st) then json 400 (JsonError (lit "Not a file"))
            else if (MAX_FILE_READ_BYTES <? size st)%N
            then json 413 (JsonError (lit "File too large (>2MB)"))
            else
              match readFileSync w resolved with
              | None => json 404 (JsonError (lit "File not found"))
              | Some content =>
                  json 200 (JsonFile resolved (relative w cwd resolved) content)
              end
        end
  end.


(** Static files of the public directory. *)
Definition static_route (w : world) (req : request) : response :=
  let requestedFile :=
    if str_eqb (pathname req) (lit "/") then lit "index.html"
    else slice_from 1 (pathname req) in
  let filePath := Path.resolve2 (processCwd w) (publicDir w) requestedFile in
  if negb (str_eqb filePath (publicDir w))
     && negb (startsWith filePath (publicDir w ++ [Path.slash]))
  then {| status := 403; resp_body := Raw (lit "Forbidden") |}
  else match readFileSync w filePath with
       | Some content => {| status := 200; resp_body := Raw content |}
       | None => {| status := 404; resp_body := Raw (lit "Not Found") |}
       end.

Definition update_session (r : relay) (pid : Z) (s : session) : relay :=
  with_sessions r (map_set pid s (sessions r)).

(** [req.method === m && pathname === p] *)
Definition at_route (req : request) (m p : String.string) : bool :=
  str_eqb (method req) (lit m) && str_eqb (pathname req) (lit p).
Arguments at_route req (m p)%_string.

(** The routes behind the token gate; [res] names the response and
    [timer] the timer a waiting poll would set. *)
Definition routes (w : world) (r : relay) (res timer : nat) (req : request)
    : relay * list effect :=
  if at_route req "GET" "/api/sessions" then
    (r, [Respond res (json 200 (JsonSessions (sessions_list w r)))])
  else if at_route req "GET" "/api/status" then
    match getSessionFromQuery r req with
    | None => (r, [Respond res missing_session])
    | Some (_, s) =>
        (r, [Respond res
               (json 200 (JsonStatus (cols (info s)) (rows (info s))
                            (pid (info s)) (connected s) (cmd (info s))))])
    end
  else if at_route req "POST" "/api/submit" then
    match getSessionFromQuery r req with
    | None => (r, [Respond res missing_session])
    | Some (k, s) =>
        match req_body req with
        | None => (r, [Respond res (json 400 (JsonError (lit "Invalid request")))])
        | Some b =>
            let '(s1, effs) := submit w b s in
            (update_session r k s1, effs ++ [Respond res (json 200 JsonSuccess)])
        end
    end
  else if at_route req "GET" "/api/poll" then
    match getSessionFromQuery r req with
    | None => (r, [Respond res missing_session])
    | Some (k, s) =>
        let '(s1, effs) := poll res timer s in (update_session r k s1, effs)
    end
  else if at_route req "GET" "/api/messages" then
    match getSessionFromQuery r req with
    | None => (r, [Respond res missing_session])
    | Some (k, s) =>
        let '(s1, effs) := drain res s in (update_session r k s1, effs)
    end
  else if at_route req "POST" "/api/done" then
    (r, [Respond res (json 200 JsonSuccess); SetCleanup 0 100])
  else if at_route req "GET" "/api/file" then
    (r, [Respond res (file_route w r req)])
  else if str_eqb (method req) (lit "GET") then
    (r, [Respond res (static_route w req)])
  else (r, [Respond res {| status := 404; resp_body := Raw (lit "Not Found") |}]).

(** The request handler of [httpServer]; the CORS headers it sets on every
    response are left out.  When [isValidToken] throws, the handler ends
    there and nothing is written to the response. *)
Definition handle_request (w : world) (r : relay) (res timer : nat) (req : request)
    : outcome (relay * list effect) :=
  if str_eqb (method req) (lit "OPTIONS") then
    Returned (r, [Respond res {| status := 204; resp_body := NoBody |}])
  else if startsWith (pathname req) (lit "/api/") then
    match isValidToken (masterToken r) (extractToken req) with
    | Thrown err => Thrown err
    | Returned false => Returned (r, [Respond res unauthorized])
    | Returned true => Returned (routes w r res timer req)
    end
  else Returned (routes w r res timer req).

(** Requests handled one after the other, each to completion; the
    responses and timers are numbered from [n] on.  When a handler throws,
    what was done before stays done and the rest is not served. *)
Fixpoint serve (w : world) (r : relay) (n : nat) (reqs : list request)
    : relay * list effect * option jsstring :=
  match reqs with
  | [] => (r, [], None)
  | req :: rest =>
      match handle_request w r n n req with
      | Thrown err => (r, [], Some err)
      | Returned (r1, effs) =>
          let '(r2, effs', err) := serve w r1 (S n) rest in
          (r2, effs ++ effs', err)
      end
  end.

(** *** The upgrade handler of [httpServer] *)

Inductive upgrade_result :=
| Forbidden403
| Unauthorized401
| BadRequest400
| Destroyed
| UpgradedTerminal (session : Z)
| UpgradedComments (session : Z).

Definition local_origin (r : relay) : jsstring :=
  lit "http://localhost:" ++
  match serverPort r with Some p => of_Z p | None => lit "null" end.

(** The origin check of the upgrade handler: a request passes in remote
    mode, without an [Origin] header, or from the local origin. *)
Definition origin_allowed (r : relay) (req : request) : bool :=
  negb (negb (remoteMode r) && truthy (origin req)
        && negb (str_eqb (origin req) (local_origin r))).

(** [ws] names the WebSocket that a successful upgrade creates. *)
Definition handle_upgrade (r : relay) (ws : nat) (req : request)
    : outcome (relay * upgrade_result * list effect) :=
  if negb (origin_allowed r req)
  then Returned (r, Forbidden403, [])
  else
    let wsToken := query_token req in
    match isValidToken (masterToken r) wsToken with
    | Thrown err => Thrown err
    | Returned false => Returned (r, Unauthorized401, [])
    | Returned true =>
        match getSessionFromQuery r req with
        | None => Returned (r, BadRequest400, [])
        | Some (k, s) =>
            if str_eqb (pathname req) (lit "/ws/terminal") then
              Returned
                (update_session r k
                   (set_terminalClients (set_add ws (terminalClients s)) s),
                 UpgradedTerminal k,
                 [WsSend ws (WsResize (cols (info s)) (rows (info s)));
                  WsSend ws (WsStatus (connected s) None)])
            else if str_eqb (pathname req) (lit "/ws/comments") then
              Returned
                (update_session r k
                   (set_commentClients (set_add ws (commentClients s)) s),
                 UpgradedComments k, [])
            else Returned (r, Destroyed, [])
        end
    end.

(** *** Port detection and start *)

Inductive listen_error :=
| EADDRINUSE
| ListenError (code : jsstring).

(** The loop of [listenOnAvailablePort] from index [i] with [n] attempts
    left; [tryListen] gives the error of listening on a port, if any.
    The ports tried are returned with the result. *)
Fixpoint listen_loop (tryListen : Z -> option listen_error) (startPort : Z)
    (i : Z) (n : nat) : outcome Z * list Z :=
  match n with
  | O => (Thrown (lit "No available port found"), [])
  | S n' =>
      let port := (startPort + i)%Z in
      match tryListen port with
      | None => (Returned port, [port])
      | Some EADDRINUSE =>
          let '(res, tried) := listen_loop tryListen startPort (i + 1)%Z n' in
          (res, port :: tried)
      | Some (ListenError code) => (Thrown code, [port])
      end
  end.

Definition listenOnAvailablePort (tryListen : Z -> option listen_error)
    (startPort : Z) (maxAttempts : nat) : outcome Z * list Z :=
  listen_loop tryListen startPort 0 maxAttempts.

(** The ports [startPort], [startPort + 1], ...: [k] of them. *)
Definition ports_from (startPort : Z) (k : nat) : list Z :=
  List.map (fun j => (startPort + Z.of_nat j)%Z) (seq 0 k).

(** Listening on the port fails because the address is in use. *)
Definition in_use (tryListen : Z -> option listen_error) (port : Z) : bool :=
  match tryListen port with Some EADDRINUSE => true | _ => false end.

(** [start().catch(err => { console.error(err); process.exit(1); })] *)
Inductive start_result :=
| Exited (code : Z)
| Running (r : relay) (effs : list effect) (w : world).

Definition start (tryListen : Z -> option listen_error) (w : world) (r : relay)
    : start_result :=
  match fst (listenOnAvailablePort tryListen START_PORT MAX_PORT_SCAN) with
  | Thrown _ => Exited 1
  | Returned port =>
      let r1 := {| sessions := sessions r; serverPort := Some port;
                   masterToken := masterToken r; remoteMode := remoteMode r |} in
      let '(r2, effs, w') := discoverAndConnect w 0 r1 in
      Running r2 effs w'
  end.

(** *** The mailbox of a session as a sequence of operations *)

Inductive mailbox_event :=
| Submit (w : world) (b : submit_body)
| Poll (res timer : nat)
| PollTimeout (res : nat)
| PollClose (res timer : nat)
| Drain (res : nat).

Definition mailbox_step (s : session) (e : mailbox_event) : session * list effect :=
  match e with
  | Submit w b => submit w b s
  | Poll res timer => poll res timer s
  | PollTimeout res => on_poll_timeout res s
  | PollClose res timer => on_poll_close res timer s
  | Drain res => drain res s
  end.

Fixpoint mailbox_run (s : session) (es : list mailbox_event)
    : session * list effect :=
  match es with
  | [] => (s, [])
  | e :: rest =>
      let '(s1, effs) := mailbox_step s e in
      let '(s2, effs') := mailbox_run s1 rest in
      (s2, effs ++ effs')
  end.

(** The entries handed to consumers, with the response each one went to. *)
Fixpoint delivered (effs : list effect) : list (nat * entry) :=
  match effs with
  | [] => []
  | Respond res {| status := _; resp_body := JsonEntry e |} :: rest =>
      (res, e) :: delivered rest
  | Respond res {| status := _; resp_body := JsonMessages l |} :: rest =>
      List.map (fun e => (res, e)) l ++ delivered rest
  | _ :: rest => delivered rest
  end.

(** The entry a submitted body becomes. *)
Definition entry_of (w : world) (b : submit_body) : entry :=
  {| text := submit_text b; at_ := now w |}.

(** The events of a list of submits and of a list of polls. *)
Definition submit_events (subs : list (world * submit_body)) : list mailbox_event :=
  List.map (fun wb => Submit (fst wb) (snd wb)) subs.


(** The entries that the submits of a run put in the queue. *)
Fixpoint submitted (es : list mailbox_event) : list entry :=
  match es with
  | [] => []
  | Submit w b :: rest =>
      (if truthy (submit_text b) then [entry_of w b] else []) ++ submitted rest
  | _ :: rest => submitted rest
  end.

(** What holds of every mailbox: the queue is bounded, and polls wait
    only while it is empty. *)
Definition mailbox_inv (s : session) : Prop :=
  length (messageQueue s) ≤ MAX_MESSAGE_QUEUE
  ∧ (messageQueue s = [] ∨ pollWaiters s = []).

(** A candidate that [isValidToken] can compare with the master token:
    when it has as many code units, it also has as many bytes. *)
Definition comparable (masterToken candidate : jsstring) : bool :=
  negb (jslength candidate =? jslength masterToken)
  || (length (Buffer_from candidate) =? length (Buffer_from masterToken)).

(** What [crypto.randomBytes(24).toString('hex')] can be: 48 hexadecimal
    digits. *)
Definition is_hex_digit (c : N) : bool :=
  ((48 <=? c) && (c <=? 57) || (97 <=? c) && (c <=? 102))%N.

Definition hex_token (t : jsstring) : bool :=
  (length t =? 48) && forallb is_hex_digit t.

End Relay.

(** ** Sample values *)

Module Examples.
Import JS Relay.

Definition process0 : Wrapper.process :=
  {| Wrapper.pid := 4242; Wrapper.cwd := lit "/home/u/proj";
     Wrapper.tmpdir := lit "/tmp"; Wrapper.command := lit "bash";
     Wrapper.commandArgs := [lit "-l"]; Wrapper.cols := 80;
     Wrapper.rows := 24; Wrapper.startedAt := lit "2026-01-01T00:00:00.000Z" |}.

(** A file system with one unrelated file. *)
Definition files0 : list (jsstring * Wrapper.fnode) :=
  [(lit "/tmp/notes.txt", Wrapper.RegularFile 420 (lit "n"))].

Definition world0 : world :=
  {| tmpDir := lit "/tmp";
     tmpEntries := Some [lit "tm-100.sock"; lit "tm-7.sock"; lit "notes.txt"];
     alive := fun pid => Z.eqb pid 100;
     accessible := fun _ => true;
     unlinkable := fun _ => true;
     readToken := fun _ => None;
     statSync := fun p => if str_eqb p (lit "/etc/passwd")
                          then Some {| isFile := true; size := 12 |} else None;
     readFileSync := fun p => if str_eqb p (lit "/etc/passwd")
                              then Some (lit "root:x:0:0::") else None;
     relative := fun _ to => to;
     dateValue := fun _ => None;
     processCwd := lit "/srv/mirror";
     homedir := lit "/home/u";
     publicDir := lit "/srv/mirror/public";
     now := lit "2026-01-01T00:00:00.000Z";
     wsOpen := fun _ => true |}.

Definition session0 : session := createSession world0 100 (lit "/tmp/tm-100.sock").

Definition message_body (m : jsstring) : submit_body :=
  {| comments := []; message := m; batchId := None |}.

Definition master0 : jsstring :=
  lit "0123456789abcdef0123456789abcdef0123456789abcdef".

(** A token of the right length with one character outside ASCII. *)
Definition wide_token : jsstring :=
  233%N :: lit "123456789abcdef0123456789abcdef0123456789abcdef".

(** A token of the right length that differs in its first character. *)
Definition wrong_token : jsstring :=
  lit "f123456789abcdef0123456789abcdef0123456789abcdef".

Definition get_sessions (method token origin : jsstring) : request :=
  {| method := method; pathname := lit "/api/sessions"; origin := origin;
     authorization := []; query := [(lit "token", token)];
     req_body := None |}.

Definition upgrade_terminal (token origin : jsstring) : request :=
  {| method := lit "GET"; pathname := lit "/ws/terminal"; origin := origin;
     authorization := [];
     query := [(lit "token", token); (lit "session", lit "100")];
     req_body := None |}.

Definition relay0 : relay :=
  {| sessions := [(100%Z, session0)]; serverPort := Some 3456%Z;
     masterToken := master0; remoteMode := false |}.

(** The wrapper 7 is running and its socket is in the directory. *)
Definition world_live7 : world :=
  with_tmpEntries
    {| tmpDir := tmpDir world0; tmpEntries := None;
       alive := fun pid => Z.eqb pid 7;
       accessible := accessible world0; unlinkable := unlinkable world0;
       readToken := readToken world0;
       statSync := statSync world0; readFileSync := readFileSync world0;
       relative := relative world0; dateValue := dateValue world0;
       processCwd := processCwd world0; homedir := homedir world0;
       publicDir := publicDir world0; now := now world0;
       wsOpen := wsOpen world0 |}
    (Some [lit "tm-7.sock"]).

(** The wrapper 7 was killed: the process is gone and its socket file is
    left behind. *)
Definition world_dead7 : world :=
  {| tmpDir := tmpDir world0; tmpEntries := Some [lit "tm-7.sock"];
     alive := fun _ => false;
     accessible := fun _ => false; unlinkable := unlinkable world0;
     readToken := readToken world0;
     statSync := statSync world0; readFileSync := readFileSync world0;
     relative := relative world0; dateValue := dateValue world0;
     processCwd := processCwd world0; homedir := homedir world0;
     publicDir := publicDir world0; now := now world0;
     wsOpen := wsOpen world0 |}.

Definition relay_empty : relay :=
  {| sessions := []; serverPort := Some 3456%Z;
     masterToken := master0; remoteMode := false |}.

(** The relay after it has discovered the wrapper 7 and connected to it. *)
Definition relay_tracking7 : relay :=
  let r1 := fst (fst (discoverAndConnect world_live7 0 relay_empty)) in
  match map_get 7 (sessions r1) with
  | Some s => update_session r1 7 (fst (on_connect world_live7 s))
  | None => r1
  end.

(** The same relay after the connection to the killed wrapper has
    closed. *)
Definition relay_closed7 : relay :=
  match map_get 7 (sessions relay_tracking7) with
  | Some s => update_session relay_tracking7 7 (fst (on_close world_dead7 s))
  | None => relay_tracking7
  end.


Definition post_submit (m : jsstring) : request :=
  {| method := lit "POST"; pathname := lit "/api/submit"; origin := [];
     authorization := lit "Bearer " ++ master0;
     query := [(lit "session", lit "100")];
     req_body := Some (message_body m) |}.

Definition get_poll : request :=
  {| method := lit "GET"; pathname := lit "/api/poll"; origin := [];
     authorization := lit "Bearer " ++ master0;
     query := [(lit "session", lit "100")];
     req_body := None |}.

(** Every port from 3456 on is taken. *)
Definition all_taken : Z -> option listen_error := fun _ => Some EADDRINUSE.

(** The ports 3456 and 3457 are taken, and listening on 3458 is refused
    for another reason. *)
Definition third_refused : Z -> option listen_error :=
  fun port => if (port <? 3458)%Z then Some EADDRINUSE
              else if (port =? 3458)%Z then Some (ListenError (lit "EACCES"))
              else None.

(** A session that has used up its reconnect attempts. *)
Definition session_exhausted : session :=
  set_reconnects SOCKET_RECONNECT_MAX session0.

End Examples.

(** ** Further sample values *)

Module Samples.
Import JS.

(** Three writes to a buffer of capacity 4. *)
Definition writes0 : list buffer := [lit "ab"; lit "cde"; lit "f"].

End Samples.

(** ** Vocabulary for runs of the wrapper *)

Module WrapperTrace.
Import JS Wrapper.

(** The frame that the handler of an event broadcasts, if any, while the
    child is running. *)
Definition broadcast_of (e : event) : list frame :=
  match e with
  | Data d => [Output (toString_base64 (Buffer_from d))]
  | ResizeEv c r => [Resize c r]
  | _ => []
  end.

(** How often the client is in the set of clients. *)
Definition membership (c : client) (st : state) : nat :=
  length (List.filter (Nat.eqb c) (socketClients st)).

(** The event attaches or detaches the client, or ends the session. *)
Definition concerns (c : client) (e : event) : bool :=
  match e with
  | Connection c' | ClientGone c' => Nat.eqb c c'
  | ExitEv _ => true
  | _ => false
  end.

(** A run during which the client stays as it is and the child runs. *)
Definition undisturbed (c : client) (es : list event) : bool :=
  forallb (fun e => negb (concerns c e)) es.

(** The event is a connection of the client. *)
Definition connects (c : client) (e : event) : bool :=
  match e with Connection c' => Nat.eqb c c' | _ => false end.

Definition never_connects (c : client) (es : list event) : bool :=
  forallb (fun e => negb (connects c e)) es.

End WrapperTrace.

(** ** Vocabulary for runs of a mailbox *)

Module MailboxTrace.
Import JS Relay.

(** The responses that the effects write to, in order. *)
Definition responded (effs : list effect) : list nat :=
  flat_map (fun e => match e with Respond r _ => [r] | _ => [] end) effs.

(** The response that an event brings with it or names, if any. *)
Definition request_of (e : mailbox_event) : list nat :=
  match e with
  | Poll r _ | PollTimeout r | Drain r => [r]
  | Submit _ _ | PollClose _ _ => []
  end.

Definition requests (es : list mailbox_event) : list nat :=
  flat_map request_of es.

(** The response of a request that asks for entries, if the event is
    one. *)
Definition consumer_of (e : mailbox_event) : list nat :=
  match e with
  | Poll r _ | Drain r => [r]
  | Submit _ _ | PollTimeout _ | PollClose _ _ => []
  end.

Definition consumers (es : list mailbox_event) : list nat :=
  flat_map consumer_of es.

(** The timers that the effects clear. *)
Definition cleared (effs : list effect) : list nat :=
  flat_map (fun e => match e with ClearTimeout t => [t] | _ => [] end) effs.

End MailboxTrace.

(** ** Sample runs of a mailbox *)

Module MailboxSamples.
Import JS Relay.



End MailboxSamples.

(** ** Further sample requests *)

Module Requests.
Import JS Relay.

(** The file that the static route looks for. *)
Definition requested_path (w : world) (req : request) : jsstring :=
  Path.resolve2 (processCwd w) (publicDir w)
    (if str_eqb (pathname req) (lit "/") then lit "index.html"
     else slice_from 1 (pathname req)).

(** A file system in which the public directory holds the page of the
    relay, and nothing else. *)
Definition world_public : world :=
  {| tmpDir := tmpDir Examples.world0; tmpEntries := tmpEntries Examples.world0;
     alive := alive Examples.world0; accessible := accessible Examples.world0;
     unlinkable := unlinkable Examples.world0;
     readToken := readToken Examples.world0; statSync := statSync Examples.world0;
     readFileSync := fun p => if str_eqb p (lit "/srv/mirror/public/index.html")
                              then Some (lit "<html></html>")
                              else readFileSync Examples.world0 p;
     relative := relative Examples.world0;
     dateValue := dateValue Examples.world0;
     processCwd := processCwd Examples.world0; homedir := homedir Examples.world0;
     publicDir := publicDir Examples.world0; now := now Examples.world0;
     wsOpen := wsOpen Examples.world0 |}.

(** Requests without a token: for the page of the relay, and for a file
    that the public directory does not hold. *)
Definition get_root : request :=
  {| method := lit "GET"; pathname := lit "/"; origin := [];
     authorization := []; query := []; req_body := None |}.

Definition get_missing : request :=
  {| method := lit "GET"; pathname := lit "/etc/passwd"; origin := [];
     authorization := []; query := []; req_body := None |}.


(** A relay that tracks the sessions 100 and 7. *)
Definition relay_two : relay :=
  {| sessions := [(100%Z, Examples.session0);
                  (7%Z, createSession Examples.world0 7 (lit "/tmp/tm-7.sock"))];
     serverPort := Some 3456%Z;
     masterToken := Examples.master0; remoteMode := false |}.

End Requests.

(** ** Vocabulary for the list of sessions *)

Module SessionsList.
Import JS Relay.

(** The start time of the item is absent or a date that parses. *)
Definition date_parses (w : world) (i : session_item) : bool :=
  match i_startedAt i with
  | None => true
  | Some d => match dateValue w d with Some _ => true | None => false end
  end.

(** [a] may stand before [b] in a list sorted with [compare_items]. *)
Definition in_order (w : world) (a b : session_item) : Prop :=
  (compare_items w a b ≤ 0)%Z.

(** A relay whose sessions 100 and 7 have said when they started. *)
Definition with_start (started : jsstring) (s : session) : session :=
  set_info {| cwd := cwd (info s); cols := cols (info s); rows := rows (info s);
              pid := pid (info s); cmd := cmd (info s);
              startedAt := Some started |} s.

Definition world_dates : world :=
  {| tmpDir := tmpDir Examples.world0; tmpEntries := tmpEntries Examples.world0;
     alive := alive Examples.world0; accessible := accessible Examples.world0;
     unlinkable := unlinkable Examples.world0;
     readToken := readToken Examples.world0; statSync := statSync Examples.world0;
     readFileSync := readFileSync Examples.world0;
     relative := relative Examples.world0;
     dateValue := fun d => if str_eqb d (lit "2026-01-01") then Some 1%Z
                           else if str_eqb d (lit "2026-01-02") then Some 2%Z
                           else None;
     processCwd := processCwd Examples.world0; homedir := homedir Examples.world0;
     publicDir := publicDir Examples.world0; now := now Examples.world0;
     wsOpen := wsOpen Examples.world0 |}.

Definition relay_dated : relay :=
  {| sessions :=
       [(100%Z, with_start (lit "2026-01-01") Examples.session0);
        (5%Z, createSession Examples.world0 5 (lit "/tmp/tm-5.sock"));
        (7%Z, with_start (lit "2026-01-02")
                (createSession Examples.world0 7 (lit "/tmp/tm-7.sock")))];
     serverPort := Some 3456%Z;
     masterToken := Examples.master0; remoteMode := false |}.

End SessionsList.

(** ** Vocabulary for scans *)

Module Scan.
Import JS Relay.

(** The entry has the name of a wrapper socket. *)
Definition is_socket_name (entry : jsstring) : bool :=
  startsWith entry (lit "tm-") && endsWith entry (lit ".sock").

(** The pid that the name of a socket entry gives. *)
Definition pid_of_entry (entry : jsstring) : option Z :=
  parseInt (slice_neg 3 5 entry).

(** The scan calls [unlinkSync] on the entry and the call succeeds: the
    entry is gone afterwards. *)
Definition removed (w : world) (entry : jsstring) : bool :=
  is_stale w entry && unlinkable w (Path.join2 (tmpDir w) entry).

(** The scan calls [unlinkSync] on the entry and the call throws: the
    entry stays. *)
Definition unlink_failed (w : world) (entry : jsstring) : bool :=
  is_stale w entry && negb (unlinkable w (Path.join2 (tmpDir w) entry)).

(** The calls of [unlinkSync] of a scan on the directory that a scan
    left. *)
Definition retried (w : world) : list effect :=
  match tmpEntries w with
  | Some entries =>
      List.map (fun e => Unlink (Path.join2 (tmpDir w) e))
        (List.filter (unlink_failed w) entries)
  | None => []
  end.

(** A directory with the socket of the live wrapper 100, the sockets of
    the dead wrappers 7 and 8, of which the second cannot be unlinked, a
    token file, and another file. *)
Definition world_sticky : world :=
  {| tmpDir := tmpDir Examples.world0;
     tmpEntries := Some [lit "tm-100.sock"; lit "tm-7.sock"; lit "tm-8.sock";
                         lit "tm-7.token"; lit "notes.txt"];
     alive := alive Examples.world0; accessible := accessible Examples.world0;
     unlinkable := fun p => negb (str_eqb p (lit "/tmp/tm-8.sock"));
     readToken := readToken Examples.world0; statSync := statSync Examples.world0;
     readFileSync := readFileSync Examples.world0;
     relative := relative Examples.world0;
     dateValue := dateValue Examples.world0;
     processCwd := processCwd Examples.world0; homedir := homedir Examples.world0;
     publicDir := publicDir Examples.world0; now := now Examples.world0;
     wsOpen := wsOpen Examples.world0 |}.

(** A directory with the socket of the live wrapper 100, the socket and
    the token file of the dead wrapper 7, and another file. *)
Definition world_mixed : world :=
  with_tmpEntries Examples.world0
    (Some [lit "tm-100.sock"; lit "tm-7.sock"; lit "tm-7.token";
           lit "notes.txt"]).

End Scan.

(** ** Lines of newline-delimited JSON *)

Module Lines.
Import JS.

(** [s.indexOf('\n')]; [None] is [-1]. *)
Fixpoint indexOf_newline (s : jsstring) : option nat :=
  match s with
  | [] => None
  | c :: rest => if N.eqb c 10 then Some 0 else S <$> indexOf_newline rest
  end.

End Lines.

(** ** The data handler of a socket client (tm-wrapper.js) *)

Module WrapperInput.
Import JS Lines Wrapper.

(** A message of a client as [handleClientMessage] reads it.  The data
    of an input message is taken to be a string; data that is absent or
    falsy is the empty string. *)
Inductive client_msg :=
| CInput (data : jsstring)
| CResize.

(** [handleClientMessage] *)
Definition handleClientMessage (msg : client_msg) (st : state) : state :=
  match msg with
  | CInput data => on_input data st
  | CResize => st
  end.

Section Handler.

(** [JSON.parse(line)] and the reading of the type of the message:
    [None] when the parse throws and when the message is falsy or has no
    type that [handleClientMessage] knows. *)
Variable parse : jsstring -> option client_msg.

(** The [while] loop of [client.on('data', ...)], on the line buffer of
    the connection. *)
Fixpoint client_loop (fuel : nat) (lineBuf : jsstring) (st : state)
    : jsstring * state :=
  match fuel with
  | O => (lineBuf, st)
  | S fuel' =>
      match indexOf_newline lineBuf with
      | None => (lineBuf, st)
      | Some newlineIdx =>
          let line := take newlineIdx lineBuf in
          let lineBuf' := drop (newlineIdx + 1) lineBuf in
          if trim_is_empty line then client_loop fuel' lineBuf' st
          else
            match parse line with
            | Some msg => client_loop fuel' lineBuf' (handleClientMessage msg st)
            | None => client_loop fuel' lineBuf' st
            end
      end
  end.

(** [client.on('data', (chunk) => ...)], on the text [chunk.toString()]
    of the chunk; every round of the loop shortens the buffer. *)
Definition on_client_data (chunk : jsstring) (lineBuf : jsstring) (st : state)
    : jsstring * state :=
  client_loop (S (length (lineBuf ++ chunk))) (lineBuf ++ chunk) st.

(** The chunks of a connection, handled one after the other. *)
Fixpoint client_run (lineBuf : jsstring) (st : state) (chunks : list jsstring)
    : jsstring * state :=
  match chunks with
  | [] => (lineBuf, st)
  | chunk :: rest =>
      let '(lineBuf', st') := on_client_data chunk lineBuf st in
      client_run lineBuf' st' rest
  end.

End Handler.

(** What the loop does with one complete line. *)
Definition client_line (parse : jsstring -> option client_msg) (line : jsstring)
    (st : state) : state :=
  if trim_is_empty line then st
  else match parse line with
       | Some msg => handleClientMessage msg st
       | None => st
       end.

(** The input that a complete line asks to write to the PTY. *)
Definition input_of (parse : jsstring -> option client_msg) (line : jsstring)
    : list jsstring :=
  if trim_is_empty line then []
  else match parse line with
       | Some (CInput data) => if truthy data then [data] else []
       | _ => []
       end.

(** The complete lines of a text, and what follows the last newline. *)
Fixpoint split_lines (s : jsstring) : list jsstring * jsstring :=
  match s with
  | [] => ([], [])
  | c :: rest =>
      let '(ls, tl) := split_lines rest in
      if N.eqb c 10 then ([] :: ls, tl)
      else match ls with
           | [] => ([], c :: tl)
           | l :: ls' => ((c :: l) :: ls', tl)
           end
  end.

(** A parser for sample runs: a line that starts with [i] is an input
    message with the rest of the line as its data. *)
Definition parse_i (line : jsstring) : option client_msg :=
  match line with
  | 105%N :: data => Some (CInput data)
  | _ => None
  end.

End WrapperInput.

(** ** The data handler of a wrapper connection (mirror-server.js) *)

Module RelayData.
Import JS Lines Relay.

Section Handlers.

(** [JSON.parse(line)] and the reading of the fields of the message:
    [None] when the parse throws, when the message is falsy or has no
    type that [handleWrapperMessage] knows, and when the handling throws
    before it does anything, as for a [scrollback] or [output] message
    whose data is no string. *)
Variable parse : jsstring -> option wrapper_msg.

(** The [while] loop of [sock.on('data', ...)].  Every round removes a
    line and its newline from [session.lineBuf]. *)
Fixpoint data_loop (w : world) (fuel : nat) (s : session) : session * list effect :=
  match fuel with
  | O => (s, [])
  | S fuel' =>
      match indexOf_newline (lineBuf s) with
      | None => (s, [])
      | Some newlineIdx =>
          let line := take newlineIdx (lineBuf s) in
          let s1 := set_lineBuf (drop (newlineIdx + 1) (lineBuf s)) s in
          if trim_is_empty line then data_loop w fuel' s1
          else
            match parse line with
            | Some msg =>
                let '(s2, effs) := handleWrapperMessage w s1 msg in
                let '(s3, effs') := data_loop w fuel' s2 in
                (s3, effs ++ effs')
            | None => data_loop w fuel' s1
            end
      end
  end.

(** The loop with fuel for every round that it can make: no round
    leaves the buffer as long as it was. *)
Definition run_buf (w : world) (s : session) : session * list effect :=
  data_loop w (S (length (lineBuf s))) s.

(** [sock.on('data', (chunk) => ...)], on the text [chunk.toString()] of
    the chunk. *)
Definition on_data (w : world) (chunk : jsstring) (s : session)
    : session * list effect :=
  run_buf w (set_lineBuf (lineBuf s ++ chunk) s).

(** The texts of the chunks of a connection, handled one after the
    other. *)
Fixpoint data_run (w : world) (s : session) (chunks : list jsstring)
    : session * list effect :=
  match chunks with
  | [] => (s, [])
  | chunk :: rest =>
      let '(s1, effs) := on_data w chunk s in
      let '(s2, effs') := data_run w s1 rest in
      (s2, effs ++ effs')
  end.

(** What happens to a session on the side of the wrapper: an event of
    the connection manager, or data. *)
Inductive session_event :=
| Conn (e : conn_event)
| Chunk (chunk : jsstring).

Definition session_step (w : world) (s : session) (e : session_event)
    : session * list effect :=
  match e with
  | Conn e => handler_step w s e
  | Chunk chunk => on_data w chunk s
  end.

(** A run; the outside may differ at each event. *)
Fixpoint session_run (s : session) (es : list (world * session_event))
    : session * list effect :=
  match es with
  | [] => (s, [])
  | (w, e) :: rest =>
      let '(s1, effs) := session_step w s e in
      let '(s2, effs') := session_run s1 rest in
      (s2, effs ++ effs')
  end.

End Handlers.

(** A parser for sample runs, which knows two lines. *)
Definition parse0 (line : jsstring) : option wrapper_msg :=
  if str_eqb line (lit "exit 0") then Some (MExit 0)
  else if str_eqb line (lit "resize 100 40") then Some (MResize 100 40)
  else None.

End RelayData.

(** ** Vocabulary for the effects of a session *)

Module SessionTrace.
Import JS Relay.

(** The effect is one that the wrapper side of the session may have: a
    message to one of its terminal clients, a reconnect timer of its own
    or a connection of its own. *)
Definition wrapper_side_effect (s : session) (e : effect) : Prop :=
  match e with
  | WsSend ws _ => In ws (terminalClients s)
  | SetReconnect pid delay => pid = s_pid s ∧ delay = SOCKET_RECONNECT_MS
  | CreateConnection pid path => pid = s_pid s ∧ path = sockPath s
  | _ => False
  end.

(** What stays of a session on its wrapper side. *)
Definition same_mailbox (s s' : session) : Prop :=
  messageQueue s' = messageQueue s
  ∧ pollWaiters s' = pollWaiters s
  ∧ terminalClients s' = terminalClients s
  ∧ commentClients s' = commentClients s
  ∧ s_pid s' = s_pid s
  ∧ sockPath s' = sockPath s.

(** A session that has its token. *)
Definition session_with_token : session :=
  set_wrapperToken (Some (lit "secret")) Examples.session0.

(** A parser for sample runs, which knows a greeting with another
    token. *)
Definition parse_hello (line : jsstring) : option wrapper_msg :=
  if str_eqb line (lit "hello")
  then Some (MHello None None None None None None (Some (lit "other")))
  else None.

End SessionTrace.

(** ** [readBody] (mirror-server.js) *)

Module ReadBody.
Import JS Relay.

(** The events of the request that [readBody] listens to. *)
Inductive body_event :=
| BodyData (c : buffer)
| BodyEnd
| BodyError (err : jsstring).

(** How the promise is settled.  The value it is resolved with is
    [Buffer.concat(chunks).toString()], given here by the bytes that are
    decoded. *)
Inductive settlement :=
| Resolved (bytes : buffer)
| Rejected (err : jsstring).

(** The variables of the closure, the settlement of the promise, and
    whether the request was destroyed. *)
Record reader := {
  chunks : list buffer;
  totalBytes : nat;
  settled : bool;
  result : option settlement;
  destroyed : bool
}.

Definition new_reader : reader :=
  {| chunks := []; totalBytes := 0; settled := false; result := None;
     destroyed := false |}.

(** [req.on('data', ...)] *)
Definition on_body_data (c : buffer) (r : reader) : reader :=
  if settled r then r
  else
    let total := totalBytes r + length c in
    if MAX_BODY_BYTES <? total then
      {| chunks := chunks r; totalBytes := total; settled := true;
         result := Some (Rejected (lit "Request body too large"));
         destroyed := true |}
    else
      {| chunks := chunks r ++ [c]; totalBytes := total; settled := false;
         result := result r; destroyed := destroyed r |}.

(** [req.on('end', ...)] *)
Definition on_body_end (r : reader) : reader :=
  if settled r then r
  else
    {| chunks := chunks r; totalBytes := totalBytes r; settled := true;
       result := Some (Resolved (concat (chunks r)));
       destroyed := destroyed r |}.

(** [req.on('error', ...)] *)
Definition on_body_error (err : jsstring) (r : reader) : reader :=
  if settled r then r
  else
    {| chunks := chunks r; totalBytes := totalBytes r; settled := true;
       result := Some (Rejected err); destroyed := destroyed r |}.

Definition body_step (r : reader) (e : body_event) : reader :=
  match e with
  | BodyData c => on_body_data c r
  | BodyEnd => on_body_end r
  | BodyError err => on_body_error err r
  end.

(** [readBody(req)] on the events of the request. *)
Definition readBody (es : list body_event) : reader :=
  fold_left body_step es new_reader.

End ReadBody.

(** ** [cleanup] (mirror-server.js) *)

Module Shutdown.
Import JS Relay.

(** What [cleanup] does to the outside: effects as the handlers have
    them, and the closing of WebSockets, wrapper sockets, the scan timer
    and the server, and the exit timer. *)
Inductive action :=
| Effect (e : effect)
| WsClose (ws : nat) (code : Z) (reason : jsstring)
| SocketEnd (session : Z)
| ClearInterval
| ServerClose
| SetExit (exitCode : Z) (delay : Z).

(** The [while] loop that flushes the waiting polls of a session. *)
Fixpoint flush_polls (ws : list waiter) : list action :=
  match ws with
  | [] => []
  | w :: rest =>
      Effect (ClearTimeout (timer w))
      :: Effect (Respond (res w) (json 200 JsonDone))
      :: flush_polls rest
  end.

Definition shutdown_to (w : world) (clients : list nat) : list action :=
  List.map (fun ws => Effect (WsSend ws WsShutdown)) (List.filter (wsOpen w) clients).

Definition close_all (clients : list nat) : list action :=
  List.map (fun ws => WsClose ws 1000 (lit "Mirror shutting down")) clients.

(** The body of the loop over the sessions. *)
Definition cleanup_session (w : world) (kv : Z * session)
    : (Z * session) * list action :=
  let s := snd kv in
  ((fst kv, set_pollWaiters [] s),
   shutdown_to w (terminalClients s)
   ++ shutdown_to w (commentClients s)
   ++ close_all (terminalClients s)
   ++ close_all (commentClients s)
   ++ flush_polls (pollWaiters s)
   ++ match socket s with Some _ => [SocketEnd (s_pid s)] | None => [] end).

Fixpoint cleanup_sessions (w : world) (l : list (Z * session))
    : list (Z * session) * list action :=
  match l with
  | [] => ([], [])
  | kv :: rest =>
      let '(kv', acts) := cleanup_session w kv in
      let '(rest', acts') := cleanup_sessions w rest in
      (kv' :: rest', acts ++ acts')
  end.

(** [cleanup(exitCode)]; [scanTimer] tells whether the scan timer is
    set.  The server exists whenever [cleanup] can run. *)
Definition cleanup (w : world) (scanTimer : bool) (r : relay) (exitCode : Z)
    : relay * bool * list action :=
  let '(sessions', acts) := cleanup_sessions w (sessions r) in
  (with_sessions r sessions', false,
   (if scanTimer then [ClearInterval] else [])
   ++ acts ++ [ServerClose; SetExit exitCode 100]).

(** The effects among the actions. *)
Definition effects_of (acts : list action) : list effect :=
  flat_map (fun a => match a with Effect e => [e] | _ => [] end) acts.

(** The waiting polls of all sessions, in the order of the sessions. *)
Definition all_waiters (r : relay) : list waiter :=
  flat_map (fun kv => pollWaiters (snd kv)) (sessions r).

(** The responses written to, with what is written. *)
Definition responses (effs : list effect) : list (nat * response) :=
  flat_map (fun e => match e with Respond r resp => [(r, resp)] | _ => [] end) effs.

(** A relay with two polls waiting on the session 100 and one on the
    session 7. *)
Definition relay_waiting : relay :=
  {| sessions :=
       [(100%Z, set_pollWaiters [{| res := 1; timer := 11 |};
                                 {| res := 2; timer := 12 |}] Examples.session0);
        (7%Z, set_pollWaiters [{| res := 3; timer := 13 |}]
                (createSession Examples.world0 7 (lit "/tmp/tm-7.sock")))];
     serverPort := Some 3456%Z;
     masterToken := Examples.master0; remoteMode := false |}.

End Shutdown.

(** ** The session list (tm-list.js) *)

Module TmList.
Import JS Lines.

(** The outside: the directory of temporary files, its entries when it
    can be read, the processes that are alive, and how a date prints. *)
Record env := {
  tmpDir : jsstring;
  readdir : option (list jsstring);
  alive : Z -> bool;
  toLocaleString : jsstring -> jsstring
}.

(** An element of [entries]. *)
Record row := {
  r_pid : Z;
  r_cmd : jsstring;
  r_cwd : jsstring;
  r_startedAt : option jsstring
}.

(** A [hello] message as the data handler reads it; a field that is
    absent or falsy is [None]. *)
Record hello_msg := {
  h_pid : option Z;
  h_cmd : option jsstring;
  h_cwd : option jsstring;
  h_startedAt : option jsstring
}.

(** The variables of one round of the loop over the files that got as
    far as a connection, with whether its timer is set and whether
    [client.end()] was called. *)
Record probe := {
  sockPath : jsstring;
  pid : Z;
  lineBuf : jsstring;
  resolved : bool;
  timeoutSet : bool;
  ended : bool
}.

(** The variables of the module, with the lines logged and the paths
    unlinked.  [pending] is decremented by every call of [done]. *)
Record state := {
  entries : list row;
  stale : list jsstring;
  pending : Z;
  probes : list probe;
  logged : list jsstring;
  unlinked : list jsstring
}.

(** [s.padEnd(n)] *)
Definition padEnd (n : nat) (s : jsstring) : jsstring :=
  s ++ replicate (n - length s) 32%N.

Definition pidW : nat := 8.
Definition cmdW : nat := 30.
Definition cwdW : nat := 35.
Definition startedW : nat := 20.

(** [s.substring(0, n)] *)
Definition substring_to (n : nat) (s : jsstring) : jsstring := take n s.

Definition row_line (e : env) (r : row) : jsstring :=
  padEnd pidW (of_Z (r_pid r))
  ++ padEnd cmdW (substring_to (cmdW - 2) (r_cmd r))
  ++ padEnd cwdW (substring_to (cwdW - 2) (r_cwd r))
  ++ match r_startedAt r with
     | Some d => if truthy d then toLocaleString e d else lit "unknown"
     | None => lit "unknown"
     end.

Definition cleaned_line (stale : list jsstring) : jsstring :=
  lit "Cleaned " ++ of_Z (Z.of_nat (length stale)) ++ lit " stale socket(s).".

(** What [done] logs when nothing is pending any more. *)
Definition summary (e : env) (entries : list row) (stale : list jsstring)
    : list jsstring :=
  match entries with
  | [] =>
      lit "No active tm-wrapper sessions."
      :: (if 0 <? length stale then [cleaned_line stale] else [])
  | _ =>
      (padEnd pidW (lit "PID") ++ padEnd cmdW (lit "CMD")
       ++ padEnd cwdW (lit "CWD") ++ lit "STARTED")
      :: replicate (pidW + cmdW + cwdW + startedW) 45%N
      :: List.map (row_line e) entries
      ++ (if 0 <? length stale then [10%N :: cleaned_line stale] else [])
  end.

(** [done()] *)
Definition done (e : env) (st : state) : state :=
  let pending' := (pending st - 1)%Z in
  if (0 <? pending')%Z then
    {| entries := entries st; stale := stale st; pending := pending';
       probes := probes st; logged := logged st; unlinked := unlinked st |}
  else
    {| entries := entries st; stale := stale st; pending := pending';
       probes := probes st;
       logged := logged st ++ summary e (entries st) (stale st);
       unlinked := unlinked st ++ stale st |}.

Definition push_stale (path : jsstring) (st : state) : state :=
  {| entries := entries st; stale := stale st ++ [path]; pending := pending st;
     probes := probes st; logged := logged st; unlinked := unlinked st |}.

Definition push_entry (r : row) (st : state) : state :=
  {| entries := entries st ++ [r]; stale := stale st; pending := pending st;
     probes := probes st; logged := logged st; unlinked := unlinked st |}.

Definition with_probes (l : list probe) (st : state) : state :=
  {| entries := entries st; stale := stale st; pending := pending st;
     probes := l; logged := logged st; unlinked := unlinked st |}.

(** The name of a socket file, as the filter of the listing has it. *)
Definition is_sock (f : jsstring) : bool :=
  startsWith f (lit "tm-") && endsWith f (lit ".sock").

(** The body of the loop over the files, up to the registration of the
    handlers. *)
Definition probe_file (e : env) (st : state) (file : jsstring) : state :=
  let path := Path.join2 (tmpDir e) file in
  match parseInt (slice_neg 3 5 file) with
  | None => done e (push_stale path st)
  | Some p =>
      if alive e p then
        with_probes
          (probes st ++ [{| sockPath := path; pid := p; lineBuf := [];
                            resolved := false; timeoutSet := true;
                            ended := false |}]) st
      else done e (push_stale path st)
  end.

(** How the program goes on after its synchronous part. *)
Inductive started :=
| Exit (code : Z) (logged : list jsstring)
| Probing (st : state).

(** The synchronous part of the program.  The message of the exit with
    code 1 goes to the error output. *)
Definition main (e : env) : started :=
  match readdir e with
  | None => Exit 1 []
  | Some all =>
      match List.filter is_sock all with
      | [] => Exit 0 [lit "No active tm-wrapper sessions."]
      | files =>
          Probing
            (fold_left (probe_file e) files
               {| entries := []; stale := []; pending := Z.of_nat (length files);
                  probes := []; logged := []; unlinked := [] |})
      end
  end.

(** *** The handlers of a connection *)

Definition set_probe (i : nat) (p : probe) (st : state) : state :=
  with_probes (<[i := p]> (probes st)) st.

(** The connection is resolved: its timer has fired or is cleared, and
    the client is ended when [endClient] says so. *)
Definition resolve (endClient : bool) (p : probe) : probe :=
  {| sockPath := sockPath p; pid := pid p; lineBuf := lineBuf p;
     resolved := true; timeoutSet := false;
     ended := if endClient then true else ended p |}.

Definition with_lineBuf (b : jsstring) (p : probe) : probe :=
  {| sockPath := sockPath p; pid := pid p; lineBuf := b;
     resolved := resolved p; timeoutSet := timeoutSet p; ended := ended p |}.

(** The timer of the connection fires. *)
Definition on_timeout (e : env) (i : nat) (st : state) : state :=
  match probes st !! i with
  | Some p =>
      if resolved p then st
      else
        done e
          (push_entry {| r_pid := pid p; r_cmd := lit "(no response)";
                         r_cwd := lit "?"; r_startedAt := None |}
             (set_probe i (resolve true p) st))
  | None => st
  end.

Section Data.

(** [JSON.parse(line)] and the reading of the message: [None] when the
    parse throws or the message is not of type [hello]. *)
Variable parse : jsstring -> option hello_msg.

(** The [while] loop of the data handler, which returns at the first
    [hello]. *)
Fixpoint data_loop (e : env) (i : nat) (fuel : nat) (p : probe) (st : state)
    : state :=
  match fuel with
  | O => set_probe i p st
  | S fuel' =>
      match indexOf_newline (lineBuf p) with
      | None => set_probe i p st
      | Some idx =>
          let line := take idx (lineBuf p) in
          let p1 := with_lineBuf (drop (idx + 1) (lineBuf p)) p in
          if trim_is_empty line then data_loop e i fuel' p1 st
          else
            match parse line with
            | Some msg =>
                done e
                  (push_entry
                     {| r_pid := default (pid p) (h_pid msg);
                        r_cmd := default [] (h_cmd msg);
                        r_cwd := default [] (h_cwd msg);
                        r_startedAt := h_startedAt msg |}
                     (set_probe i (resolve true p1) st))
            | None => data_loop e i fuel' p1 st
            end
      end
  end.

(** [client.on('data', ...)], on the text of the chunk. *)
Definition on_data (e : env) (i : nat) (chunk : jsstring) (st : state) : state :=
  match probes st !! i with
  | Some p =>
      if resolved p then st
      else
        let p0 := with_lineBuf (lineBuf p ++ chunk) p in
        data_loop e i (S (length (lineBuf p0))) p0 st
  | None => st
  end.

(** [client.on('error', ...)] *)
Definition on_error (e : env) (i : nat) (st : state) : state :=
  match probes st !! i with
  | Some p =>
      if resolved p then st
      else done e (push_stale (sockPath p) (set_probe i (resolve false p) st))
  | None => st
  end.

(** [client.on('close', ...)] *)
Definition on_close (e : env) (i : nat) (st : state) : state :=
  match probes st !! i with
  | Some p =>
      if resolved p then st
      else done e (set_probe i (resolve false p) st)
  | None => st
  end.

(** What happens to the connection [i]. *)
Inductive event :=
| TimedOut (i : nat)
| Data (i : nat) (chunk : jsstring)
| Error (i : nat)
| Close (i : nat).

Definition step (e : env) (st : state) (ev : event) : state :=
  match ev with
  | TimedOut i => on_timeout e i st
  | Data i chunk => on_data e i chunk st
  | Error i => on_error e i st
  | Close i => on_close e i st
  end.

Definition run (e : env) (st : state) (evs : list event) : state :=
  fold_left (step e) evs st.

End Data.

(** The connections that are not resolved yet. *)
Definition unresolved (st : state) : nat :=
  length (List.filter (fun p => negb (resolved p)) (probes st)).

(** What holds whenever no handler is running: [pending] counts the
    connections that are not resolved, nothing is logged or unlinked
    while there is one, and the summary is logged and the stale sockets
    are unlinked once there is none. *)
Definition accounted (e : env) (st : state) : Prop :=
  pending st = Z.of_nat (unresolved st)
  ∧ (0 < unresolved st → logged st = [] ∧ unlinked st = [])
  ∧ (unresolved st = 0 →
     logged st = summary e (entries st) (stale st) ∧ unlinked st = stale st).

(** The files whose sockets the synchronous part takes for stale. *)
Definition dead_file (e : env) (file : jsstring) : bool :=
  match parseInt (slice_neg 3 5 file) with
  | Some p => negb (alive e p)
  | None => true
  end.

(** The paths of the files that the synchronous part takes for stale. *)
Definition dead_paths (e : env) (files : list jsstring) : list jsstring :=
  List.map (Path.join2 (tmpDir e)) (List.filter (dead_file e) files).

(** The connection [i] had an error. *)
Definition errored (i : nat) (evs : list event) : bool :=
  existsb (fun ev => match ev with Error j => Nat.eqb i j | _ => false end) evs.

(** A directory with the socket of the live wrapper 100, the socket of
    the dead wrapper 7, and a socket without a pid. *)
Definition env0 : env :=
  {| tmpDir := lit "/tmp";
     readdir := Some [lit "tm-100.sock"; lit "tm-7.sock"; lit "tm-x.sock";
                      lit "notes.txt"];
     alive := fun p => Z.eqb p 100;
     toLocaleString := fun d => d |}.

(** A parser for sample runs, which knows one line. *)
Definition parse0 (line : jsstring) : option hello_msg :=
  if str_eqb line (lit "hello")
  then Some {| h_pid := Some 100%Z; h_cmd := Some (lit "bash");
               h_cwd := Some (lit "/home/u"); h_startedAt := None |}
  else None.

End TmList.

(** * Properties *)

(** ** Lists *)

Module ListFacts.
Import JS.

Lemma lastn_app_ge {A} n (l k : list A) :
  length k ≤ n → lastn n (l ++ k) = lastn (n - length k) l ++ k.
Proof.
  intros H. unfold lastn. rewrite length_app.
  rewrite drop_app_le by lia. f_equal. f_equal. lia.
Qed.

Lemma lastn_app_le {A} n (l k : list A) :
  n ≤ length k → lastn n (l ++ k) = lastn n k.
Proof.
  intros H. unfold lastn. rewrite length_app.
  rewrite drop_app_ge by lia. f_equal. lia.
Qed.

Lemma lastn_all {A} n (l : list A) : length l ≤ n → lastn n l = l.
Proof. intros H. unfold lastn. replace (length l - n) with 0 by lia. done. Qed.

Lemma length_lastn {A} n (l : list A) : length (lastn n l) = Nat.min n (length l).
Proof. unfold lastn. rewrite length_drop. lia. Qed.

Lemma lastn_lastn {A} n m (l : list A) :
  n ≤ m → lastn n (lastn m l) = lastn n l.
Proof.
  intros H. unfold lastn. rewrite length_drop, drop_drop. f_equal. lia.
Qed.

Lemma lastn_app_lastn {A} n (l k : list A) :
  lastn n (lastn n l ++ k) = lastn n (l ++ k).
Proof.
  destruct (Nat.le_gt_cases (length l) n) as [H1|H1].
  - by rewrite (lastn_all n l).
  - destruct (Nat.le_gt_cases (length k) n) as [H2|H2].
    + rewrite !lastn_app_ge by done. f_equal.
      apply lastn_lastn. lia.
    + rewrite !lastn_app_le by lia. done.
Qed.

End ListFacts.

(** ** The ring buffer *)

Module RingBufferSpec.
Import JS RingBuffer ListFacts.

Lemma copy_fits {A} (src target : list A) ts ss se :
  ss ≤ se → se ≤ length src → ts + (se - ss) ≤ length target →
  copy src target ts ss se
  = take ts target ++ drop ss (take se src) ++ drop (ts + (se - ss)) target.
Proof.
  intros Hs He Ht. unfold copy.
  assert (Hlen : length (drop ss (take se src)) = se - ss).
  { rewrite length_drop, length_take. lia. }
  rewrite (take_ge (drop ss (take se src))) by lia.
  by rewrite Hlen.
Qed.

Lemma inv_new cap : inv cap (new cap) [].
Proof.
  split; simpl; try done.
  - by rewrite length_replicate.
  - lia.
  - intros <-. by left.
  - intros H. assert (cap = 0) as -> by lia. done.
Qed.

Lemma inv_write cap rb W src :
  inv cap rb W → inv cap (write_bytes rb src) (W ++ src).
Proof.
  intros [Hlen Hcap Hpos Htot Hlow Heq Hhigh]. unfold write_bytes. rewrite Hcap.
  destruct (Nat.leb_spec cap (length src)) as [Hbig|Hsmall].
  - (* the data is at least as long as the buffer *)
    assert (Hbuf : copy src (buf rb) 0 (length src - cap) (length src) = lastn cap src).
    { rewrite copy_fits by lia. simpl. rewrite take_ge by lia.
      rewrite (drop_ge (buf rb)) by lia. rewrite app_nil_r. done. }
    split; cbn [buf capacity writePos totalWritten]; rewrite ?Hbuf, ?length_app, ?length_lastn; try lia.
    intros _. unfold rotated; cbn [buf capacity writePos totalWritten]. rewrite take_0, drop_0, app_nil_r.
    by rewrite lastn_app_le.
  - destruct (Nat.leb_spec (writePos rb + length src) cap) as [Hfit|Hwrap].
    + (* the data fits before the end *)
      assert (Hbuf : copy src (buf rb) (writePos rb) 0 (length src)
                     = take (writePos rb) (buf rb) ++ src
                         ++ drop (writePos rb + length src) (buf rb)).
      { rewrite copy_fits by lia.
        rewrite (take_ge src) by lia. by rewrite drop_0, Nat.sub_0_r. }
      split; cbn [buf capacity writePos totalWritten]; rewrite ?Hbuf, ?length_app, ?length_take, ?length_drop; try lia.
      * intros Hlt. destruct Hlow as [Hp Ht]; [lia|]. split; [lia|].
        rewrite Hp. rewrite app_assoc.
        rewrite take_app_le by (rewrite length_app, length_take; lia).
        rewrite take_app_ge by (rewrite length_take; lia).
        rewrite length_take. rewrite Ht.
        rewrite take_ge by lia. done.
      * intros Hge. unfold rotated; cbn [buf capacity writePos totalWritten].
        rewrite app_assoc.
        rewrite drop_app_length' by (rewrite length_app, length_take; lia).
        rewrite take_app_length' by (rewrite length_app, length_take; lia).
        destruct (Nat.lt_ge_cases (length W) cap) as [Hlt|Hge'].
        -- destruct Hlow as [Hp Ht]; [done|].
           rewrite drop_ge by lia. simpl.
           rewrite Hp, Ht. rewrite lastn_all; [done|]. rewrite length_app. lia.
        -- specialize (Hhigh Hge'). unfold rotated in Hhigh.
           rewrite lastn_app_ge by lia.
           rewrite <- (lastn_lastn _ cap) by lia. rewrite <- Hhigh.
           unfold lastn. rewrite length_app, length_take, length_drop.
           rewrite drop_app_le by (rewrite length_drop; lia).
           rewrite drop_drop. rewrite app_assoc. f_equal. f_equal. f_equal. lia.
    + (* the data wraps around the end *)
      set (firstPart := cap - writePos rb).
      assert (Hbuf1 : copy src (buf rb) (writePos rb) 0 firstPart
                      = take (writePos rb) (buf rb) ++ take firstPart src).
      { rewrite copy_fits by (unfold firstPart; lia). simpl.
        rewrite (drop_ge (buf rb)) by (unfold firstPart; lia).
        by rewrite app_nil_r. }
      rewrite Hbuf1.
      assert (Hl1 : length (take (writePos rb) (buf rb) ++ take firstPart src) = cap).
      { rewrite length_app, !length_take. unfold firstPart. lia. }
      assert (Hbuf : copy src (take (writePos rb) (buf rb) ++ take firstPart src)
                       0 firstPart (length src)
                     = drop firstPart src
                         ++ drop (length src - firstPart) (take (writePos rb) (buf rb))
                         ++ take firstPart src).
      { rewrite copy_fits by (unfold firstPart in *; lia). simpl.
        rewrite take_ge by lia. f_equal.
        rewrite drop_app_le by (rewrite length_take; unfold firstPart; lia).
        done. }
      rewrite Hbuf.
      split; cbn [buf capacity writePos totalWritten];
        rewrite ?length_app, ?length_drop, ?length_take;
        try (unfold firstPart; lia).
      intros _. unfold rotated; cbn [buf capacity writePos totalWritten].
      rewrite drop_app_length' by (rewrite length_drop; lia).
      rewrite take_app_length' by (rewrite length_drop; lia).
      rewrite <- app_assoc. rewrite take_drop.
      rewrite lastn_app_ge by lia. f_equal.
      destruct (Nat.lt_ge_cases (length W) cap) as [Hlt|Hge'].
      * destruct Hlow as [Hp Ht]; [done|].
        rewrite Hp, Ht. unfold lastn. f_equal. unfold firstPart. lia.
      * specialize (Hhigh Hge'). unfold rotated in Hhigh.
        rewrite <- (lastn_lastn _ cap) by lia. rewrite <- Hhigh.
        unfold lastn. rewrite length_app, length_take, length_drop.
        rewrite drop_app_ge by (rewrite length_drop; lia).
        rewrite length_drop. f_equal. unfold firstPart. lia.
Qed.

Lemma inv_writes cap ws rb W :
  inv cap rb W → inv cap (writes rb ws) (W ++ concat ws).
Proof.
  revert rb W. induction ws as [|src ws IH]; intros rb W H; simpl.
  - by rewrite app_nil_r.
  - rewrite app_assoc. apply IH. by apply inv_write.
Qed.

(** What [getContents] returns in a buffer that satisfies the invariant:
    the last bytes written, except when exactly [cap] bytes were written
    and the cursor is at 0. *)
Lemma getContents_inv cap rb W :
  inv cap rb W →
  getContents rb
  = if (length W =? cap) && (writePos rb =? 0) then []
    else lastn (Nat.min (length W) cap) W.
Proof.
  intros [Hlen Hcap Hpos Htot Hlow Heq Hhigh]. unfold getContents, subarray.
  rewrite Htot, Hcap, Hlen. rewrite !drop_0.
  destruct (Nat.leb_spec (length W) cap) as [Hle|Hgt].
  - destruct (Nat.eqb_spec (length W) cap) as [HTC|Hne]; simpl.
    + destruct (Nat.eqb_spec (writePos rb) 0) as [H0|Hn0].
      * by rewrite H0.
      * destruct Heq as [Hp|Hp]; [done| |done].
        specialize (Hhigh ltac:(lia)). unfold rotated in Hhigh.
        rewrite Nat.min_r by lia. rewrite <- Hhigh, Hp.
        rewrite drop_ge by lia. done.
    + destruct Hlow as [Hp Ht]; [lia|].
      rewrite Nat.min_l by lia. rewrite lastn_all by lia. by rewrite Hp.
  - destruct (Nat.eqb_spec (length W) cap) as [Heq'|Hne]; [lia|]. simpl.
    rewrite Nat.min_r by lia. rewrite take_ge by lia.
    rewrite <- Hhigh by lia. done.
Qed.

(** The snapshot after any sequence of writes to a new buffer. *)
Lemma getContents_writes cap ws :
  getContents (writes (new cap) ws)
  = if (length (concat ws) =? cap) && (writePos (writes (new cap) ws) =? 0)
    then [] else expected cap ws.
Proof.
  apply (getContents_inv cap). apply (inv_writes cap ws (new cap) []), inv_new.
Qed.

(** The snapshot is the expected one whenever the number of bytes written
    differs from the capacity. *)
Lemma getContents_writes_ne cap ws :
  length (concat ws) ≠ cap →
  getContents (writes (new cap) ws) = expected cap ws.
Proof.
  intros H. rewrite getContents_writes.
  by destruct (Nat.eqb_spec (length (concat ws)) cap).
Qed.

(** Exactly [cap] bytes written at once to a new buffer leave the cursor
    at 0 with the total at [cap], and the snapshot is empty. *)
Lemma getContents_full_first_write cap src :
  0 < cap → length src = cap →
  getContents (write_bytes (new cap) src) = [] ∧ expected cap [src] = src.
Proof.
  intros Hpos Hlen. split.
  - unfold getContents, write_bytes. cbn [capacity new totalWritten writePos buf].
    rewrite Hlen, Nat.leb_refl. cbn [capacity totalWritten writePos buf].
    by rewrite Nat.leb_refl.
  - unfold expected. simpl. rewrite app_nil_r. apply lastn_all. lia.
Qed.

(** C1 on a buffer of capacity 4: after the single write of the four
    bytes of abcd the snapshot should be these four bytes, and it is
    empty; one more byte later it is right again. *)
Theorem getContents_after_full_first_write :
  let rb := writes (new 4) [lit "abcd"] in
  totalWritten rb = 4
  ∧ expected 4 [lit "abcd"] = lit "abcd"
  ∧ getContents rb = []
  ∧ getContents (writes (new 4) [lit "abcd"; lit "e"]) = lit "bcde".
Proof. vm_compute. done. Qed.

(** The store never grows. *)
Lemma writes_length cap ws : length (buf (writes (new cap) ws)) = cap.
Proof. apply (inv_len cap _ (concat ws)), (inv_writes cap ws (new cap) []), inv_new. Qed.

End RingBufferSpec.

(** ** The mailbox *)

Module MailboxSpec.
Import JS Relay ListFacts.

(** [resolveNextPoll] hands the first messages of the queue to the first
    waiters, one each, and leaves one of the two lists empty. *)
Lemma resolve_loop_spec ws q :
  let n := Nat.min (length ws) (length q) in
  resolve_loop ws q
  = (drop n ws, drop n q,
     concat (zip_with
               (fun w msg => [ClearTimeout (timer w);
                              Respond (res w) (json 200 (JsonEntry msg))])
               ws q)).
Proof.
  revert q. induction ws as [|w ws IH]; intros q; simpl.
  - done.
  - destruct q as [|msg q]; simpl; [done|].
    specialize (IH q). simpl in IH. by rewrite IH.
Qed.

Lemma resolveNextPoll_spec s :
  let n := Nat.min (length (pollWaiters s)) (length (messageQueue s)) in
  messageQueue (fst (resolveNextPoll s)) = drop n (messageQueue s)
  ∧ pollWaiters (fst (resolveNextPoll s)) = drop n (pollWaiters s).
Proof.
  unfold resolveNextPoll. rewrite resolve_loop_spec. done.
Qed.

Lemma delivered_app effs effs' :
  delivered (effs ++ effs') = delivered effs ++ delivered effs'.
Proof.
  induction effs as [|e effs IH]; simpl; [done|].
  destruct e as [r [st b]| | | | | | | |]; try done.
  destruct b; try done; simpl; rewrite IH; [done|].
  by rewrite app_assoc.
Qed.

Lemma delivered_resolve ws q :
  delivered (snd (resolve_loop ws q))
  = zip (List.map res ws) q.
Proof.
  revert q. induction ws as [|w ws IH]; intros q; simpl; [done|].
  destruct q as [|msg q]; simpl; [done|].
  specialize (IH q). destruct (resolve_loop ws q) as [[ws' q'] effs].
  simpl in *. by rewrite IH.
Qed.

Lemma delivered_broadcast w s m : delivered (broadcastCommentJSON w s m) = [].
Proof.
  unfold broadcastCommentJSON.
  induction (List.filter (wsOpen w) (commentClients s)); simpl; done.
Qed.

(** *** A submit on a session without waiting polls *)

Lemma enqueue_no_waiters e s :
  pollWaiters s = [] →
  messageQueue (fst (enqueue e s))
  = (if MAX_MESSAGE_QUEUE <=? length (messageQueue s)
     then tail (messageQueue s) else messageQueue s) ++ [e]
  ∧ pollWaiters (fst (enqueue e s)) = []
  ∧ snd (enqueue e s) = [].
Proof.
  intros Hw. unfold enqueue, resolveNextPoll. simpl. rewrite Hw. simpl. done.
Qed.

Lemma tail_drop {A} (l : list A) : tail l = drop 1 l.
Proof. by destruct l. Qed.

Lemma queue_after_push (q : list entry) e :
  length q ≤ MAX_MESSAGE_QUEUE →
  (if MAX_MESSAGE_QUEUE <=? length q then tail q else q) ++ [e]
  = lastn MAX_MESSAGE_QUEUE (q ++ [e]).
Proof.
  intros H. destruct (Nat.leb_spec MAX_MESSAGE_QUEUE (length q)) as [Hge|Hlt].
  - rewrite lastn_app_ge by (simpl; unfold MAX_MESSAGE_QUEUE; lia).
    f_equal. rewrite tail_drop. unfold lastn. f_equal. simpl.
    unfold MAX_MESSAGE_QUEUE in *. lia.
  - rewrite lastn_all; [done|]. rewrite length_app. simpl. lia.
Qed.

Lemma submit_no_waiters w b s :
  pollWaiters s = [] →
  length (messageQueue s) ≤ MAX_MESSAGE_QUEUE →
  truthy (submit_text b) = true →
  messageQueue (fst (submit w b s))
  = lastn MAX_MESSAGE_QUEUE (messageQueue s ++ [entry_of w b])
  ∧ pollWaiters (fst (submit w b s)) = []
  ∧ delivered (snd (submit w b s)) = [].
Proof.
  intros Hw Hlen Ht. unfold submit. rewrite Ht.
  destruct (enqueue_no_waiters (entry_of w b) s Hw) as (Hq & Hp & He).
  fold (entry_of w b).
  destruct (enqueue (entry_of w b) s) as [s1 effs]. simpl in *.
  rewrite Hq, Hp, He. split; [by apply queue_after_push|]. split; [done|].
  simpl. destruct (comments b); [done|]. apply delivered_broadcast.
Qed.




(** *** What holds of every mailbox *)

Lemma mailbox_inv_new w pid path : mailbox_inv (createSession w pid path).
Proof. split; simpl; [lia|by left]. Qed.

Lemma remove_waiter_nil r ws : ws = [] → remove_waiter r ws = [].
Proof. by intros ->. Qed.

Lemma mailbox_inv_enqueue e s : mailbox_inv s → mailbox_inv (fst (enqueue e s)).
Proof.
  intros [Hlen Hor]. unfold enqueue.
  set (qq := (if MAX_MESSAGE_QUEUE <=? length (messageQueue s)
              then tail (messageQueue s) else messageQueue s) ++ [e]).
  assert (Hqq : length qq ≤ MAX_MESSAGE_QUEUE).
  { unfold qq. rewrite queue_after_push by done. rewrite length_lastn. lia. }
  destruct (resolveNextPoll_spec (set_messageQueue qq s)) as [Hq Hw].
  cbn [messageQueue pollWaiters set_messageQueue] in Hq, Hw.
  split.
  - rewrite Hq, length_drop. lia.
  - rewrite Hq, Hw.
    destruct (Nat.le_ge_cases (length (pollWaiters s)) (length qq)) as [H|H].
    + right. apply drop_ge. lia.
    + left. apply drop_ge. lia.
Qed.

Lemma mailbox_inv_step s e : mailbox_inv s → mailbox_inv (fst (mailbox_step s e)).
Proof.
  intros Hinv. destruct e as [w b|r t|r|r t|r]; simpl.
  - unfold submit. destruct (truthy (submit_text b)); [|done].
    pose proof (mailbox_inv_enqueue {| text := submit_text b; at_ := now w |} s Hinv) as H.
    by destruct (enqueue _ s).
  - destruct Hinv as [Hlen Hor]. unfold poll.
    destruct (messageQueue s) as [|msg q] eqn:Hq; simpl.
    + split; simpl; rewrite Hq; [done|by left].
    + split; simpl; [simpl in Hlen; lia|].
      right. by destruct Hor.
  - destruct Hinv as [Hlen Hor]. split; simpl; [done|].
    destruct Hor as [H|H]; [by left|right]. by rewrite H.
  - destruct Hinv as [Hlen Hor]. split; simpl; [done|].
    destruct Hor as [H|H]; [by left|right]. by rewrite H.
  - split; simpl; [lia|by left].
Qed.

Lemma mailbox_inv_run es : ∀ s, mailbox_inv s → mailbox_inv (fst (mailbox_run s es)).
Proof.
  induction es as [|e es IH]; intros s Hinv; simpl; [done|].
  pose proof (mailbox_inv_step s e Hinv) as H1.
  destruct (mailbox_step s e) as [s1 effs1]. simpl in H1.
  specialize (IH s1 H1). by destruct (mailbox_run s1 es).
Qed.

(** *** Deliveries follow the order of arrival *)

Lemma submitted_cons e es : submitted (e :: es) = submitted [e] ++ submitted es.
Proof. destruct e; simpl; rewrite ?app_nil_r; done. Qed.

Lemma snd_zip_take {A B} (l : list A) (k : list B) :
  List.map snd (zip l k) = take (length l) k.
Proof.
  revert k. induction l as [|x l IH]; intros [|y k]; simpl; try done.
  by rewrite IH.
Qed.

Lemma delivered_resolveNextPoll s :
  delivered (snd (resolveNextPoll s))
  = zip (List.map res (pollWaiters s)) (messageQueue s).
Proof.
  unfold resolveNextPoll.
  pose proof (delivered_resolve (pollWaiters s) (messageQueue s)) as H.
  by destruct (resolve_loop (pollWaiters s) (messageQueue s)) as [[ws q] effs].
Qed.

Lemma step_in_order s e :
  List.map snd (delivered (snd (mailbox_step s e))) ++ messageQueue (fst (mailbox_step s e))
  `sublist_of` messageQueue s ++ submitted [e].
Proof.
  destruct e as [w b|r t|r|r t|r]; cbn [mailbox_step submitted];
    rewrite ?app_nil_r.
  - unfold submit. destruct (truthy (submit_text b)); cbn [fst snd];
      [|by rewrite app_nil_r].
    unfold enqueue.
    set (qq := (if MAX_MESSAGE_QUEUE <=? length (messageQueue s)
                then tail (messageQueue s) else messageQueue s)
               ++ [{| text := submit_text b; at_ := now w |}]).
    destruct (resolveNextPoll_spec (set_messageQueue qq s)) as [Hq _].
    pose proof (delivered_resolveNextPoll (set_messageQueue qq s)) as Hd.
    cbn [messageQueue pollWaiters set_messageQueue] in Hq, Hd.
    destruct (resolveNextPoll (set_messageQueue qq s)) as [s1 effs].
    cbn [fst snd] in *.
    rewrite delivered_app, Hd, Hq.
    assert (Hb : delivered
              (match comments b with
               | [] => []
               | c :: cs => broadcastCommentJSON w s1
                   (WsComments (List.map (fun c0 => (c0, now w)) (c :: cs)) (batchId b))
               end) = []).
    { destruct (comments b); [done|]. apply delivered_broadcast. }
    cbn [at_]. rewrite Hb, app_nil_r, snd_zip_take, length_map.
    assert (Ht : take (length (pollWaiters s)) qq
                 = take (length (pollWaiters s) `min` length qq) qq).
    { destruct (Nat.le_ge_cases (length (pollWaiters s)) (length qq)) as [H|H].
      - by rewrite Nat.min_l.
      - by rewrite !take_ge by lia. }
    rewrite Ht, take_drop. unfold qq, entry_of. apply sublist_app; [|done].
    destruct (MAX_MESSAGE_QUEUE <=? length (messageQueue s)); [|done].
    destruct (messageQueue s); [done|]. cbn [tail]. by apply sublist_cons.
  - unfold poll. destruct (messageQueue s) as [|msg q] eqn:Hq; simpl.
    + by rewrite Hq.
    + done.
  - simpl. done.
  - simpl. done.
  - simpl. rewrite !app_nil_r, List.map_map. simpl. by rewrite List.map_id.
Qed.

(** In every run, what has been delivered followed by what is still
    queued is a subsequence of what was queued and submitted: nothing is
    delivered twice, and nothing out of order. *)
Lemma run_in_order es : ∀ s,
  List.map snd (delivered (snd (mailbox_run s es))) ++ messageQueue (fst (mailbox_run s es))
  `sublist_of` messageQueue s ++ submitted es.
Proof.
  induction es as [|e es IH]; intros s.
  - simpl. by rewrite app_nil_r.
  - rewrite submitted_cons. cbn [mailbox_run].
    pose proof (step_in_order s e) as H1.
    destruct (mailbox_step s e) as [s1 effs1]. cbn [fst snd] in H1.
    specialize (IH s1). destruct (mailbox_run s1 es) as [s2 effs2].
    cbn [fst snd] in *.
    rewrite delivered_app, List.map_app, <- app_assoc.
    transitivity (List.map snd (delivered effs1) ++ messageQueue s1 ++ submitted es).
    + apply sublist_app; [reflexivity|exact IH].
    + rewrite !app_assoc. apply sublist_app; [exact H1|reflexivity].
Qed.




(** The same through the HTTP server: three authenticated submits and
    then three polls on the session 100. *)
Lemma submits_and_polls_over_http :
  let w := Examples.world0 in
  let reqs := [Examples.post_submit (lit "m1"); Examples.post_submit (lit "m2");
               Examples.post_submit (lit "m3");
               Examples.get_poll; Examples.get_poll; Examples.get_poll] in
  delivered (snd (fst (serve w Examples.relay0 1 reqs)))
  = [(4, {| text := lit "m1"; at_ := now w |});
     (5, {| text := lit "m2"; at_ := now w |});
     (6, {| text := lit "m3"; at_ := now w |})]
  ∧ snd (serve w Examples.relay0 1 reqs) = None.
Proof. vm_compute. done. Qed.

(** C7: in every state a mailbox can reach, the queue holds at most
    [MAX_MESSAGE_QUEUE] entries; when it holds exactly that many, a submit
    drops the oldest entry, appends the new one, answers nobody, and
    leaves exactly [MAX_MESSAGE_QUEUE] entries. *)
Theorem mailbox_bounded w0 pid path es :
  let s := fst (mailbox_run (createSession w0 pid path) es) in
  length (messageQueue s) ≤ MAX_MESSAGE_QUEUE
  ∧ ∀ w b,
      length (messageQueue s) = MAX_MESSAGE_QUEUE →
      truthy (submit_text b) = true →
      messageQueue (fst (submit w b s)) = tail (messageQueue s) ++ [entry_of w b]
      ∧ length (messageQueue (fst (submit w b s))) = MAX_MESSAGE_QUEUE
      ∧ delivered (snd (submit w b s)) = [].
Proof.
  intros s.
  destruct (mailbox_inv_run es (createSession w0 pid path) (mailbox_inv_new _ _ _))
    as [Hlen Hor].
  fold s in Hlen, Hor. split; [done|].
  intros w b Hfull Ht.
  assert (Hw : pollWaiters s = []).
  { destruct Hor as [H|H]; [|done]. rewrite H in Hfull. discriminate Hfull. }
  destruct (submit_no_waiters w b s Hw Hlen Ht) as (Hq & _ & Hd).
  rewrite <- queue_after_push in Hq by done.
  rewrite Hfull, Nat.leb_refl in Hq.
  split; [done|]. split; [|done].
  rewrite Hq, length_app. simpl. destruct (messageQueue s); [discriminate Hfull|].
  simpl in *. lia.
Qed.

Lemma mailbox_bounded_witness :
  let w := Examples.world0 in
  let b := Examples.message_body (lit "m") in
  let s := fst (mailbox_run (createSession w 100 (lit "/tmp/tm-100.sock"))
                  (submit_events (replicate 100 (w, b)))) in
  length (messageQueue s) = MAX_MESSAGE_QUEUE
  ∧ messageQueue (fst (submit w (Examples.message_body (lit "last")) s))
    = tail (messageQueue s) ++ [entry_of w (Examples.message_body (lit "last"))].
Proof.
  intros w b s. split; [vm_compute; reflexivity|].
  apply (proj2 (mailbox_bounded w 100 (lit "/tmp/tm-100.sock")
                  (submit_events (replicate 100 (w, b))))).
  - vm_compute. reflexivity.
  - vm_compute. reflexivity.
Defined.

End MailboxSpec.

(** ** Strings *)

Module StringFacts.
Import JS.

Lemma str_eqb_eq a b : str_eqb a b = true ↔ a = b.
Proof.
  revert b. induction a as [|x a IH]; intros [|y b]; simpl; try done.
  unfold code_eqb. rewrite andb_true_iff, N.eqb_eq, IH. split.
  - by intros [-> ->].
  - by intros [= -> ->].
Qed.

Lemma str_eqb_refl a : str_eqb a a = true.
Proof. by apply str_eqb_eq. Qed.

Lemma str_eqb_neq a b : str_eqb a b = false ↔ a ≠ b.
Proof.
  rewrite <- str_eqb_eq. by destruct (str_eqb a b).
Qed.

End StringFacts.

(** ** The wrapper *)

Module WrapperSpec.
Import JS Wrapper StringFacts.

(** *** Files *)

Lemma lookup_unlink fs q path :
  lookup_file (unlinkSync fs q) path
  = if str_eqb path q then None else lookup_file fs path.
Proof.
  unfold lookup_file, unlinkSync.
  induction fs as [|[k v] fs IH]; simpl.
  - by destruct (str_eqb path q).
  - destruct (str_eqb k q) eqn:Hkq; simpl.
    + rewrite IH. destruct (str_eqb path q) eqn:Hpq; [done|].
      destruct (str_eqb k path) eqn:Hkp; [|done].
      apply str_eqb_eq in Hkq, Hkp. subst.
      by rewrite str_eqb_refl in Hpq.
    + destruct (str_eqb k path) eqn:Hkp; simpl.
      * apply str_eqb_eq in Hkp. subst. by rewrite Hkq.
      * apply IH.
Qed.

Lemma lookup_app fs fs' path :
  lookup_file (fs ++ fs') path
  = match lookup_file fs path with
    | Some x => Some x
    | None => lookup_file fs' path
    end.
Proof.
  unfold lookup_file. induction fs as [|[k v] fs IH]; simpl; [done|].
  by destruct (str_eqb k path).
Qed.

(** The files after the start: the old socket path is unlinked and the
    socket created when [listen] succeeds; nothing else changes. *)
Lemma main_files p listen_ok fs :
  files (main p listen_ok fs)
  = unlinkSync fs (socket_path p)
      ++ (if listen_ok then [(socket_path p, SocketFile)] else []).
Proof.
  unfold main, spawnPty, startSocketServer. simpl.
  destruct listen_ok; [done|]. by rewrite app_nil_r.
Qed.

Lemma step_files p st e :
  files (step p st e) = files st
  ∨ ∃ q, files (step p st e) = unlinkSync (files st) q.
Proof.
  destruct e; simpl; try (by left).
  - unfold on_connection. simpl.
    destruct (0 <? length _); by left.
  - unfold on_exit, cleanup. simpl. destruct (cleaningUp st); [by left|].
    simpl. destruct (socketPath st); [right; eauto|by left].
  - unfold on_input. destruct (ptyProcess st); [|by left].
    destruct (truthy data); by left.
Qed.

(** No event handler of the wrapper creates a regular file: one that
    exists after a run existed before it. *)
Lemma run_regular_files p es : ∀ st path mode content,
  lookup_file (files (run p st es)) path = Some (RegularFile mode content) →
  lookup_file (files st) path = Some (RegularFile mode content).
Proof.
  induction es as [|e es IH]; intros st path mode content H; simpl in H; [done|].
  apply IH in H.
  destruct (step_files p st e) as [Heq|[q Heq]]; rewrite Heq in H; [done|].
  rewrite lookup_unlink in H. by destruct (str_eqb path q).
Qed.

(** Neither does the start: the wrapper never writes a token file. *)
Lemma wrapper_writes_no_regular_file p listen_ok fs es path mode content :
  lookup_file (files (run p (main p listen_ok fs) es)) path
    = Some (RegularFile mode content) →
  lookup_file fs path = Some (RegularFile mode content).
Proof.
  intros H. apply run_regular_files in H. rewrite main_files in H.
  rewrite lookup_app, lookup_unlink in H.
  destruct (str_eqb path (socket_path p)) eqn:Hp.
  - destruct listen_ok; simpl in H; [|done].
    unfold lookup_file in H. simpl in H.
    by destruct (str_eqb (socket_path p) path).
  - destruct (lookup_file fs path) eqn:Hl; [done|].
    destruct listen_ok; simpl in H; [|done].
    unfold lookup_file in H. simpl in H.
    by destruct (str_eqb (socket_path p) path).
Qed.

(** C5: at the start of the wrapper for process 4242 with temporary
    directory /tmp, the socket is created at /tmp/tm-4242.sock, and there
    is no file /tmp/tm-4242.token afterwards: no token file is written. *)
Theorem start_creates_socket_but_no_token :
  let st := main Examples.process0 true Examples.files0 in
  socketPath st = Some (lit "/tmp/tm-4242.sock")
  ∧ lookup_file (files st) (lit "/tmp/tm-4242.sock") = Some SocketFile
  ∧ token_path Examples.process0 = lit "/tmp/tm-4242.token"
  ∧ lookup_file (files st) (lit "/tmp/tm-4242.token") = None
  ∧ List.map fst (files st) = [lit "/tmp/notes.txt"; lit "/tmp/tm-4242.sock"].
Proof. vm_compute. done. Qed.

(** *** Frames *)

Lemma frames_to_app c st l :
  frames_to c (with_sent st (sent st ++ l))
  = frames_to c st ++ (snd <$> List.filter (fun e => Nat.eqb (fst e) c) l).
Proof.
  unfold frames_to. simpl. by rewrite List.filter_app, fmap_app.
Qed.

Lemma step_sent p st e : ∃ l, sent (step p st e) = sent st ++ l.
Proof.
  destruct e; simpl.
  - unfold on_connection. simpl. destruct (0 <? length _); simpl.
    + rewrite <- app_assoc. eauto.
    + eauto.
  - unfold on_data, broadcastToMirrors. simpl. eauto.
  - unfold on_exit, cleanup, broadcastToMirrors. simpl.
    destruct (cleaningUp st); simpl; eauto.
  - unfold on_resize, broadcastToMirrors. simpl. eauto.
  - unfold on_input. destruct (ptyProcess st); [|exists []; by rewrite app_nil_r].
    destruct (truthy data); exists []; by rewrite app_nil_r.
  - exists []. by rewrite app_nil_r.
Qed.

Lemma run_sent p es : ∀ st, ∃ l, sent (run p st es) = sent st ++ l.
Proof.
  induction es as [|e es IH]; intros st; simpl.
  - exists []. by rewrite app_nil_r.
  - destruct (IH (step p st e)) as [l Hl]. destruct (step_sent p st e) as [l' Hl'].
    exists (l' ++ l). by rewrite Hl, Hl', app_assoc.
Qed.

Lemma run_frames p es st c :
  ∃ later, frames_to c (run p st es) = frames_to c st ++ later.
Proof.
  destruct (run_sent p es st) as [l Hl]. unfold frames_to. rewrite Hl.
  rewrite List.filter_app, fmap_app. eauto.
Qed.

(** The frames the connection handler writes to the client. *)
Lemma greeting_sent p st c :
  frames_to c (on_connection p c st)
  = frames_to c st
      ++ Hello (cwd p)
           (match ptyProcess st with Some t => pty_cols t | None => cols p end)
           (match ptyProcess st with Some t => pty_rows t | None => rows p end)
           (pid p) (join (lit " ") (command p :: commandArgs p)) (startedAt p)
      :: (if 0 <? length (RingBuffer.getContents (ringBuffer st))
          then [Scrollback (toString_base64 (RingBuffer.getContents (ringBuffer st)))]
          else []).
Proof.
  unfold on_connection. cbn [ringBuffer sendToClient with_sent].
  destruct (0 <? length (RingBuffer.getContents (ringBuffer st))).
  - unfold frames_to, sendToClient, hello. simpl.
    rewrite !List.filter_app, !fmap_app. simpl. rewrite Nat.eqb_refl. simpl.
    by rewrite <- app_assoc.
  - unfold frames_to, sendToClient, hello. simpl.
    rewrite !List.filter_app, !fmap_app. simpl. rewrite Nat.eqb_refl. done.
Qed.

(** C8, as the code has it: to a new client the connection handler
    writes at once a hello frame with the working directory, the terminal
    size, the process id, the command and the start time, then, only
    when the snapshot of the ring buffer is not empty, a scrollback frame
    with that snapshot; whatever is sent to the client later, live output
    included, comes after them. *)
Theorem connection_frames p st c es :
  frames_to c st = [] →
  let snapshot := RingBuffer.getContents (ringBuffer st) in
  frames_to c (on_connection p c st) = greeting p st
  ∧ (∃ later, frames_to c (run p (on_connection p c st) es) = greeting p st ++ later)
  ∧ hello p st
    = Hello (cwd p)
        (match ptyProcess st with Some t => pty_cols t | None => cols p end)
        (match ptyProcess st with Some t => pty_rows t | None => rows p end)
        (pid p) (join (lit " ") (command p :: commandArgs p)) (startedAt p)
  ∧ (snapshot ≠ [] →
     greeting p st = [hello p st; Scrollback (toString_base64 snapshot)])
  ∧ (snapshot = [] → greeting p st = [hello p st]).
Proof.
  intros Hnew snapshot.
  assert (H1 : frames_to c (on_connection p c st) = greeting p st).
  { rewrite greeting_sent, Hnew. done. }
  split; [done|]. split; [|split; [done|]].
  - destruct (run_frames p es (on_connection p c st) c) as [later Hl].
    exists later. by rewrite Hl, H1.
  - unfold greeting. fold snapshot. split.
    + intros Hne. by destruct snapshot.
    + by intros ->.
Qed.

Lemma connection_frames_witness :
  let p := Examples.process0 in
  let st := run p (init_ring 8 []) [Data (lit "hello")] in
  frames_to 1 st = []
  ∧ frames_to 1 (on_connection p 1 st)
    = [Hello (lit "/home/u/proj") 80 24 4242 (lit "bash -l")
         (lit "2026-01-01T00:00:00.000Z");
       Scrollback (lit "aGVsbG8=")].
Proof.
  intros p st. split; [reflexivity|].
  rewrite (proj1 (connection_frames p st 1 [] eq_refl)). reflexivity.
Defined.

(** C8 fails as stated: a client that connects to a wrapper whose buffer
    is still empty gets a hello frame and then live output, with no
    scrollback frame in between. *)
Lemma no_scrollback_frame_when_empty :
  let p := Examples.process0 in
  RingBuffer.getContents (ringBuffer (main p true [])) = []
  ∧ frames_to 1 (run p (main p true []) [Connection 1; Data (lit "hi")])
    = [Hello (lit "/home/u/proj") 80 24 4242 (lit "bash -l")
         (lit "2026-01-01T00:00:00.000Z");
       Output (lit "aGk=")].
Proof. vm_compute. done. Qed.

End WrapperSpec.

(** ** The token gate *)

Module AuthSpec.
Import JS Relay StringFacts.

Lemma utf8_of_code_point_length cp :
  1 ≤ length (utf8_of_code_point cp)
  ∧ (length (utf8_of_code_point cp) = 1 → (cp < 0x80)%N ∧ utf8_of_code_point cp = [cp]).
Proof.
  unfold utf8_of_code_point.
  destruct (N.ltb_spec cp 0x80); [simpl; split; [lia|done]|].
  destruct (N.ltb_spec cp 0x800); [simpl; split; [lia|lia]|].
  destruct (N.ltb_spec cp 0x10000); simpl; split; lia.
Qed.

(** Every code unit takes at least one byte, and exactly one only when
    it is ASCII. *)
Lemma utf8_length n : ∀ s, length s ≤ n →
  length s ≤ length (utf8 s)
  ∧ (length (utf8 s) = length s → all_ascii s ∧ utf8 s = s).
Proof.
  induction n as [|n IH]; intros s Hn.
  { destruct s; simpl in *; [|lia]. split; [lia|]. intros _. split; [constructor|done]. }
  destruct s as [|c rest]; [simpl; split; [lia|intros _; split; [constructor|done]]|].
  simpl in Hn. cbn [utf8].
  destruct (IH rest ltac:(lia)) as [Hge Heq].
  destruct (is_high_surrogate c) eqn:Hh.
  - destruct rest as [|d rest'].
    + simpl. split; lia.
    + destruct (is_low_surrogate d).
      * destruct (IH rest' ltac:(simpl in Hn; lia)) as [Hge' _].
        rewrite length_app.
        destruct (utf8_of_code_point_length
                    (0x10000 + (c - 0xD800) * 0x400 + (d - 0xDC00))%N) as [H1 H2].
        assert (length (utf8_of_code_point
                    (0x10000 + (c - 0xD800) * 0x400 + (d - 0xDC00))%N) = 4) as ->.
        { unfold utf8_of_code_point.
          destruct (N.ltb_spec (0x10000 + (c - 0xD800) * 0x400 + (d - 0xDC00)) 0x80); [lia|].
          destruct (N.ltb_spec (0x10000 + (c - 0xD800) * 0x400 + (d - 0xDC00)) 0x800); [lia|].
          destruct (N.ltb_spec (0x10000 + (c - 0xD800) * 0x400 + (d - 0xDC00)) 0x10000); [lia|].
          done. }
        simpl. split; lia.
      * rewrite length_app. simpl in *. split; lia.
  - destruct (is_low_surrogate c).
    + rewrite length_app. simpl. split; lia.
    + rewrite length_app.
      destruct (utf8_of_code_point_length c) as [H1 H2].
      simpl. split; [lia|]. intros Hlen.
      destruct H2 as [Hc Hu]; [lia|].
      destruct Heq as [Ha Hr]; [lia|].
      split; [by constructor|]. by rewrite Hu, Hr.
Qed.

Lemma utf8_same_length s : length (utf8 s) = length s → utf8 s = s.
Proof. intros H. by apply (utf8_length (length s) s). Qed.

Lemma utf8_ascii s : all_ascii s → utf8 s = s.
Proof.
  induction 1 as [|c rest Hc _ IH]; [done|]. cbn [utf8].
  assert (is_high_surrogate c = false) as ->.
  { unfold is_high_surrogate. destruct (N.leb_spec 0xD800 c); [lia|done]. }
  assert (is_low_surrogate c = false) as ->.
  { unfold is_low_surrogate. destruct (N.leb_spec 0xDC00 c); [lia|done]. }
  rewrite IH. unfold utf8_of_code_point.
  destruct (N.ltb_spec c 0x80); [done|lia].
Qed.

Lemma hex_token_ascii t : hex_token t = true → all_ascii t ∧ length t = 48.
Proof.
  unfold hex_token. intros [Hl Hall]%andb_prop.
  split; [|by apply Nat.eqb_eq].
  apply List.Forall_forall. intros c Hc.
  rewrite forallb_forall in Hall.
  specialize (Hall c Hc). unfold is_hex_digit in Hall.
  apply orb_prop in Hall as [[_ H]%andb_prop|[_ H]%andb_prop];
    apply N.leb_le in H; lia.
Qed.

Lemma bytes_eqb_eq a b : bytes_eqb a b = true ↔ a = b.
Proof.
  revert b. induction a as [|x a IH]; intros [|y b]; simpl; try done.
  rewrite andb_true_iff, N.eqb_eq, IH. split.
  - by intros [-> ->].
  - by intros [= -> ->].
Qed.

(** What [isValidToken] does with a candidate other than the master
    token: it throws when the candidate matches in code units but not in
    bytes, and returns false otherwise. *)
Lemma isValidToken_wrong master c :
  hex_token master = true → c ≠ master →
  isValidToken master c
  = if comparable master c then Returned false else Thrown (lit "RangeError").
Proof.
  intros [Hascii Hlen]%hex_token_ascii Hne. unfold isValidToken, comparable, jslength.
  unfold timingSafeEqual, Buffer_from. rewrite (utf8_ascii master Hascii).
  destruct (Nat.eqb_spec (length c) (length master)) as [Hl|Hl]; simpl.
  - destruct c as [|x c']; [simpl in Hl; lia|]. cbn [truthy negb orb].
    destruct (Nat.eqb_spec (length (utf8 (x :: c'))) (length master)) as [Hb|Hb]; [|done].
    f_equal. apply not_true_is_false. intros Heq%bytes_eqb_eq.
    apply Hne. rewrite <- Heq. symmetry. apply utf8_same_length. lia.
  - by rewrite orb_true_r.
Qed.

Lemma isValidToken_never_accepts_wrong master c :
  hex_token master = true → c ≠ master → isValidToken master c ≠ Returned true.
Proof.
  intros Hm Hne. rewrite isValidToken_wrong by done.
  by destruct (comparable master c).
Qed.

(** The master token itself is accepted. *)
Lemma isValidToken_master master :
  hex_token master = true → isValidToken master master = Returned true.
Proof.
  intros [Hascii Hlen]%hex_token_ascii. unfold isValidToken, jslength.
  rewrite Nat.eqb_refl. destruct master; [simpl in Hlen; lia|]. simpl negb. simpl orb.
  cbv iota. unfold timingSafeEqual. rewrite Nat.eqb_refl. f_equal.
  by apply bytes_eqb_eq.
Qed.

(** C3, as the code has it: a token other than the master token is never
    accepted.  Unless the token has the length of the master token in
    code units and another length in bytes, every request to a path
    under /api/ other than an OPTIONS request is answered 401 with the
    fixed body, whatever the token is, and every upgrade request that
    passes the origin check is answered 401. *)
Theorem wrong_token_rejected w r res timer ws req :
  hex_token (masterToken r) = true →
  (∀ c, c ≠ masterToken r → isValidToken (masterToken r) c ≠ Returned true)
  ∧ (extractToken req ≠ masterToken r →
     comparable (masterToken r) (extractToken req) = true →
     str_eqb (method req) (lit "OPTIONS") = false →
     startsWith (pathname req) (lit "/api/") = true →
     handle_request w r res timer req = Returned (r, [Respond res unauthorized]))
  ∧ (query_token req ≠ masterToken r →
     comparable (masterToken r) (query_token req) = true →
     origin_allowed r req = true →
     handle_upgrade r ws req = Returned (r, Unauthorized401, [])).
Proof.
  intros Hm. split; [|split].
  - intros c Hc. by apply isValidToken_never_accepts_wrong.
  - intros Hne Hcmp Hmeth Hpath. unfold handle_request.
    rewrite Hmeth, Hpath, isValidToken_wrong, Hcmp by done. done.
  - intros Hne Hcmp Ho. unfold handle_upgrade.
    rewrite Ho. simpl. rewrite isValidToken_wrong, Hcmp by done. done.
Qed.

Lemma wrong_token_rejected_witness :
  let w := Examples.world0 in
  let r := Examples.relay0 in
  handle_request w r 1 1
    (Examples.get_sessions (lit "GET") Examples.wrong_token [])
  = Returned (r, [Respond 1 unauthorized])
  ∧ handle_upgrade r 1 (Examples.upgrade_terminal Examples.wrong_token [])
    = Returned (r, Unauthorized401, []).
Proof.
  intros w r. split.
  - apply (proj1 (proj2 (wrong_token_rejected w r 1 1 1
             (Examples.get_sessions (lit "GET") Examples.wrong_token []) eq_refl)));
      vm_compute; congruence.
  - apply (proj2 (proj2 (wrong_token_rejected w r 1 1 1
             (Examples.upgrade_terminal Examples.wrong_token []) eq_refl)));
      vm_compute; congruence.
Defined.

(** C3 fails as stated: with a token other than the master token, an
    OPTIONS request to a path under /api/ is answered 204, an upgrade
    request from a foreign origin is answered 403, and a request whose
    token has 48 code units but 49 bytes gets no answer at all, because
    the comparison throws. *)
Lemma wrong_token_not_always_unauthorized :
  let w := Examples.world0 in
  let r := Examples.relay0 in
  Examples.wrong_token ≠ masterToken r
  ∧ Examples.wide_token ≠ masterToken r
  ∧ handle_request w r 1 1
      (Examples.get_sessions (lit "OPTIONS") Examples.wrong_token [])
    = Returned (r, [Respond 1 {| status := 204; resp_body := NoBody |}])
  ∧ handle_upgrade r 1
      (Examples.upgrade_terminal Examples.wrong_token (lit "http://evil.example"))
    = Returned (r, Forbidden403, [])
  ∧ handle_request w r 1 1
      (Examples.get_sessions (lit "GET") Examples.wide_token [])
    = Thrown (lit "RangeError")
  ∧ handle_upgrade r 1 (Examples.upgrade_terminal Examples.wide_token [])
    = Thrown (lit "RangeError").
Proof. vm_compute. repeat split; congruence. Qed.

End AuthSpec.

(** ** Discovery and the session list *)

Module DiscoverySpec.
Import JS Relay StringFacts.

Lemma str_in_In x l : str_in x l = true ↔ In x l.
Proof.
  unfold str_in. rewrite existsb_exists. split.
  - intros (y & Hy & Heq). apply str_eqb_eq in Heq. by subst.
  - intros H. exists x. split; [done|apply str_eqb_refl].
Qed.

Lemma map_has_set {V} k k' (v : V) m :
  map_has k' (map_set k v m) = (k' =? k)%Z || map_has k' m.
Proof.
  unfold map_has. induction m as [|[k0 v0] m IH]; simpl.
  - by destruct (k' =? k)%Z.
  - destruct (Z.eqb_spec k k0) as [->|Hk]; simpl.
    + by destruct (k' =? k0)%Z.
    + destruct (Z.eqb_spec k' k0) as [->|Hk']; simpl.
      * by rewrite orb_true_r.
      * apply IH.
Qed.

Lemma scan_entry_unlinked w found unlinked e :
  snd (scan_entry w (found, unlinked) e)
  = unlinked ++ (if is_stale w e then [e] else []).
Proof.
  unfold scan_entry, is_stale.
  destruct (startsWith e (lit "tm-") && endsWith e (lit ".sock")); simpl;
    [|by rewrite app_nil_r].
  destruct (parseInt (slice_neg 3 5 e)) as [pid|]; simpl; [|by rewrite app_nil_r].
  destruct (alive w pid); simpl; [by rewrite app_nil_r|done].
Qed.

Lemma scan_entry_found w found unlinked e pid :
  map_has pid (fst (scan_entry w (found, unlinked) e)) = true →
  map_has pid found = true ∨ alive w pid = true.
Proof.
  unfold scan_entry.
  destruct (startsWith e (lit "tm-") && endsWith e (lit ".sock")); simpl; [|by left].
  destruct (parseInt (slice_neg 3 5 e)) as [k|]; simpl; [|by left].
  destruct (alive w k) eqn:Ha; simpl; [|by left].
  rewrite map_has_set. destruct (Z.eqb_spec pid k) as [->|Hne]; [by right|by left].
Qed.

(** The entries a scan unlinks are the stale ones, in order. *)
Lemma scan_fold_unlinked w entries : ∀ found unlinked,
  snd (fold_left (scan_entry w) entries (found, unlinked))
  = unlinked ++ List.filter (is_stale w) entries.
Proof.
  induction entries as [|e entries IH]; intros found unlinked; cbn [fold_left List.filter].
  - by rewrite app_nil_r.
  - pose proof (scan_entry_unlinked w found unlinked e) as H.
    destruct (scan_entry w (found, unlinked) e) as [found1 unlinked1].
    cbn [snd] in H. rewrite IH, H.
    destruct (is_stale w e); by rewrite <- app_assoc.
Qed.

(** The pids a scan finds are those of live processes. *)
Lemma scan_fold_found w entries : ∀ found unlinked,
  (∀ pid, map_has pid found = true → alive w pid = true) →
  ∀ pid, map_has pid (fst (fold_left (scan_entry w) entries (found, unlinked))) = true →
         alive w pid = true.
Proof.
  induction entries as [|e entries IH]; intros found unlinked Hf; cbn [fold_left];
    [done|].
  pose proof (scan_entry_found w found unlinked e) as H.
  destruct (scan_entry w (found, unlinked) e) as [found1 unlinked1].
  cbn [fst] in H. apply IH. intros pid Hp.
  destruct (H pid Hp) as [H1|H1]; [by apply Hf|done].
Qed.

(** The first half of C4 holds: a scan calls [unlinkSync] on the stale
    socket of a dead process, and when the call succeeds the entry is
    gone from the directory afterwards. *)
Lemma scan_removes_stale w entries entry :
  tmpEntries w = Some entries → In entry entries → is_stale w entry = true →
  In (Unlink (Path.join2 (tmpDir w) entry)) (snd (fst (scanForWrappers w)))
  ∧ (unlinkable w (Path.join2 (tmpDir w) entry) = true →
     ∃ entries', tmpEntries (snd (scanForWrappers w)) = Some entries'
                 ∧ ¬ In entry entries').
Proof.
  intros Hdir Hin Hstale. unfold scanForWrappers. rewrite Hdir.
  pose proof (scan_fold_unlinked w entries [] []) as Hu. simpl in Hu.
  destruct (fold_left (scan_entry w) entries ([], [])) as [found unlinked].
  simpl in *. subst unlinked.
  assert (Hs : In entry (List.filter (is_stale w) entries)).
  { apply filter_In. done. }
  split.
  - apply in_map_iff. eauto.
  - intros Hok. eexists. split; [done|]. rewrite filter_In. intros [_ H].
    apply negb_true_iff in H. apply str_in_In in Hs. rewrite Hs, Hok in H.
    discriminate H.
Qed.

(** *** Sessions are never removed *)

Lemma connect_new_cons w sock k path found sessions :
  connect_new w sock ((k, path) :: found) sessions
  = if map_has k sessions then connect_new w sock found sessions
    else
      let '(s, effs) := connectToWrapper w sock (createSession w k path) in
      let '(sessions', effs') :=
        connect_new w (S sock) found (map_set k s sessions) in
      (sessions', effs ++ effs').
Proof. done. Qed.

Lemma connect_new_keeps w found : ∀ sock sessions pid,
  map_has pid sessions = true →
  map_has pid (fst (connect_new w sock found sessions)) = true.
Proof.
  induction found as [|[k path] found IH]; intros sock sessions pid H; [done|].
  rewrite connect_new_cons.
  destruct (map_has k sessions); [by apply IH|].
  destruct (connectToWrapper w sock (createSession w k path)) as [s effs].
  specialize (IH (S sock) (map_set k s sessions) pid).
  destruct (connect_new w (S sock) found (map_set k s sessions)) as [sessions' effs'].
  simpl in *. apply IH. rewrite map_has_set, H. by rewrite orb_true_r.
Qed.

(** No scan removes a session from the map. *)
Lemma discover_keeps_sessions w sock r pid :
  map_has pid (sessions r) = true →
  map_has pid (sessions (fst (fst (discoverAndConnect w sock r)))) = true.
Proof.
  intros H. unfold discoverAndConnect.
  destruct (scanForWrappers w) as [[found effs] w'].
  pose proof (connect_new_keeps w' found sock (sessions r) pid H) as Hk.
  destruct (connect_new w' sock found (sessions r)) as [sessions' effs']. done.
Qed.

Lemma connect_new_adds_found w found : ∀ sock sessions pid,
  map_has pid (fst (connect_new w sock found sessions)) = true →
  map_has pid sessions = true ∨ map_has pid found = true.
Proof.
  induction found as [|[k path] found IH]; intros sock sessions pid H;
    [by left|].
  rewrite connect_new_cons in H.
  assert (Hcons : ∀ b, b = true ∨ map_has pid found = true →
                       b = true ∨ map_has pid ((k, path) :: found) = true).
  { intros b [?|Hf]; [by left|right]. unfold map_has in *. simpl.
    by destruct (pid =? k)%Z. }
  destruct (map_has k sessions) eqn:Hk.
  - apply Hcons. by apply (IH sock).
  - destruct (connectToWrapper w sock (createSession w k path)) as [s effs].
    specialize (IH (S sock) (map_set k s sessions) pid).
    destruct (connect_new w (S sock) found (map_set k s sessions)) as [sessions' effs'].
    cbn [fst] in *. destruct (IH H) as [Hs|Hf].
    + rewrite map_has_set in Hs. destruct (Z.eqb_spec pid k) as [->|Hne].
      * right. unfold map_has. simpl. by rewrite Z.eqb_refl.
      * by left.
    + apply Hcons. by right.
Qed.

(** A scan starts to track only live processes. *)
Lemma discover_tracks_only_live w sock r pid :
  map_has pid (sessions r) = false → alive w pid = false →
  map_has pid (sessions (fst (fst (discoverAndConnect w sock r)))) = false.
Proof.
  intros Hs Ha. unfold discoverAndConnect, scanForWrappers.
  destruct (tmpEntries w) as [entries|]; simpl; [|done].
  pose proof (scan_fold_found w entries [] [] ltac:(done) pid) as Hf.
  destruct (fold_left (scan_entry w) entries ([], [])) as [found unlinked].
  simpl in Hf.
  match goal with |- context [connect_new ?w' sock found (sessions r)] =>
    pose proof (connect_new_adds_found w' found sock (sessions r) pid) as Hn;
    destruct (connect_new w' sock found (sessions r)) as [sessions' effs'] end.
  simpl in *. apply not_true_is_false. intros H.
  destruct (Hn H) as [H1|H1]; [congruence|]. specialize (Hf H1). congruence.
Qed.

(** *** Every session of the map is listed *)

Lemma sort_insert_In {A} (cmp : A → A → Z) x y l :
  In y (sort_insert cmp x l) ↔ y = x ∨ In y l.
Proof.
  induction l as [|z l IH]; simpl; [intuition congruence|].
  destruct (0 <? cmp z x)%Z; simpl; [intuition congruence|].
  rewrite IH. intuition congruence.
Qed.

Lemma sort_In {A} (cmp : A → A → Z) y l : In y (sort cmp l) ↔ In y l.
Proof.
  unfold sort. assert (H : ∀ acc, In y (fold_left (fun acc x => sort_insert cmp x acc) l acc)
                                  ↔ In y l ∨ In y acc).
  { induction l as [|x l IH]; intros acc; simpl; [tauto|].
    rewrite IH, sort_insert_In. intuition congruence. }
  rewrite H. simpl. tauto.
Qed.

Lemma map_has_In {V} k (m : list (Z * V)) :
  map_has k m = true → ∃ v, In (k, v) m.
Proof.
  unfold map_has. induction m as [|[k0 v0] m IH]; simpl; [done|].
  destruct (Z.eqb_spec k k0) as [->|Hk]; [eauto|].
  intros H. destruct (IH H) as [v Hv]. eauto.
Qed.

(** The answer of [/api/sessions] has an item for every session of the
    map, whether connected or not. *)
Lemma sessions_list_complete w r pid :
  map_has pid (sessions r) = true →
  ∃ item, In item (sessions_list w r) ∧ i_pid item = pid.
Proof.
  intros [s Hs]%map_has_In. exists (session_item_of (pid, s)). split; [|done].
  unfold sessions_list. apply sort_In. apply in_map_iff. eauto.
Qed.

(** A session that is tracked stays in the answer of [/api/sessions]
    after any number of scans, whatever happened to its process. *)
Lemma tracked_session_stays_listed ws : ∀ sock r pid,
  map_has pid (sessions r) = true →
  let r' := fold_left (fun r w => fst (fst (discoverAndConnect w sock r))) ws r in
  ∀ w, ∃ item, In item (sessions_list w r') ∧ i_pid item = pid.
Proof.
  induction ws as [|w0 ws IH]; intros sock r pid H; simpl.
  - intros w. by apply sessions_list_complete.
  - apply IH. by apply discover_keeps_sessions.
Qed.

(** C4 on the killed wrapper 7: the scan unlinks the stale socket, so the
    first half of the claim holds; but the session 7 is still in the map
    and in the answer of [/api/sessions], as not connected, although its
    socket is gone and no reconnect is pending. *)
Theorem dead_session_stays_listed :
  let w := Examples.world_dead7 in
  let r := Examples.relay_closed7 in
  let '(r', effs, w') := discoverAndConnect w 1 r in
  alive w 7 = false
  ∧ List.map fst (sessions r) = [7%Z]
  ∧ effs = [Unlink (lit "/tmp/tm-7.sock")]
  ∧ tmpEntries w' = Some []
  ∧ List.map fst (sessions r') = [7%Z]
  ∧ List.map (fun i => (i_pid i, i_connected i)) (sessions_list w' r')
    = [(7%Z, false)]
  ∧ handle_request w' r' 1 1
      (Examples.get_sessions (lit "GET") Examples.master0 [])
    = Returned (r', [Respond 1 (json 200 (JsonSessions (sessions_list w' r')))]).
Proof. vm_compute. done. Qed.

End DiscoverySpec.

(** ** The connection manager *)

Module ReconnectSpec.
Import JS Relay.

Lemma count_reconnects_app effs effs' :
  count_reconnects (effs ++ effs') = count_reconnects effs + count_reconnects effs'.
Proof. unfold count_reconnects. by rewrite List.filter_app, length_app. Qed.

Lemma count_connections_app effs effs' :
  count_connections (effs ++ effs') = count_connections effs + count_connections effs'.
Proof. unfold count_connections. by rewrite List.filter_app, length_app. Qed.

Lemma broadcast_counts w s m :
  count_reconnects (broadcastTerminalJSON w s m) = 0
  ∧ count_connections (broadcastTerminalJSON w s m) = 0
  ∧ ∀ pid d, ¬ In (SetReconnect pid d) (broadcastTerminalJSON w s m).
Proof.
  unfold broadcastTerminalJSON, count_reconnects, count_connections.
  induction (List.filter (wsOpen w) (terminalClients s)) as [|c l IH]; simpl.
  - split; [done|]. split; [done|]. tauto.
  - destruct IH as (H1 & H2 & H3). split; [done|]. split; [done|].
    intros pid d [H|H]; [done|]. by apply (H3 pid d).
Qed.

(** The decision to reconnect: one timer with the fixed delay when the
    counter is below the maximum and the socket file is there, and
    nothing otherwise. *)
Lemma try_reconnect_spec w s :
  try_reconnect w s
  = if (reconnects s <? SOCKET_RECONNECT_MAX) && accessible w (sockPath s)
    then (set_reconnects (S (reconnects s)) s,
          [SetReconnect (s_pid s) SOCKET_RECONNECT_MS])
    else (s, []).
Proof.
  unfold try_reconnect.
  destruct (reconnects s <? SOCKET_RECONNECT_MAX); [|done].
  by destruct (accessible w (sockPath s)).
Qed.

Lemma on_close_spec w s :
  let retry := (reconnects s <? SOCKET_RECONNECT_MAX) && accessible w (sockPath s) in
  count_reconnects (snd (on_close w s)) = (if retry then 1 else 0)
  ∧ count_connections (snd (on_close w s)) = 0
  ∧ reconnects (fst (on_close w s)) = reconnects s + (if retry then 1 else 0)
  ∧ (∀ pid d, In (SetReconnect pid d) (snd (on_close w s)) →
              pid = s_pid s ∧ d = SOCKET_RECONNECT_MS).
Proof.
  unfold on_close. rewrite try_reconnect_spec.
  cbn [reconnects sockPath set_socket set_connected].
  set (s1 := set_socket None (set_connected false s)).
  destruct (broadcast_counts w s1 (WsStatus false None)) as (B1 & B2 & B3).
  destruct ((reconnects s <? SOCKET_RECONNECT_MAX) && accessible w (sockPath s));
    cbn [fst snd]; rewrite count_reconnects_app, count_connections_app, B1, B2;
    (split; [done|split; [done|split]]).
  - simpl. lia.
  - intros pid d [H|H]%in_app_or; [by apply B3 in H|].
    destruct H as [[= <- <-]|[]]. done.
  - simpl. lia.
  - intros pid d [H|H]%in_app_or; [by apply B3 in H|]. done.
Qed.

Lemma on_error_spec w err s :
  let retry := connection_failed err
               && (reconnects s <? SOCKET_RECONNECT_MAX)
               && accessible w (sockPath s) in
  count_reconnects (snd (on_error w err s)) = (if retry then 1 else 0)
  ∧ count_connections (snd (on_error w err s)) = 0
  ∧ reconnects (fst (on_error w err s)) = reconnects s + (if retry then 1 else 0)
  ∧ (∀ pid d, In (SetReconnect pid d) (snd (on_error w err s)) →
              pid = s_pid s ∧ d = SOCKET_RECONNECT_MS).
Proof.
  unfold on_error. destruct (connection_failed err); cbn [andb fst snd].
  - rewrite try_reconnect_spec. cbn [reconnects sockPath set_socket set_connected].
    destruct ((reconnects s <? SOCKET_RECONNECT_MAX) && accessible w (sockPath s));
      cbn [fst snd]; (split; [done|split; [done|split]]).
    + simpl. lia.
    + intros pid d H. destruct H as [[= <- <-]|[]]. done.
    + simpl. lia.
    + intros pid d H. done.
  - split; [done|split; [done|split]]; [lia|]. intros pid d H. done.
Qed.

Lemma connectToWrapper_spec w sock s :
  snd (connectToWrapper w sock s) = [CreateConnection (s_pid s) (sockPath s)]
  ∧ reconnects (fst (connectToWrapper w sock s)) = reconnects s.
Proof.
  unfold connectToWrapper. split; [done|]. cbn [fst].
  destruct (no_token (wrapperToken s) && truthy (sockPath s)); [|done].
  by destruct (readToken w (token_file (sockPath s))).
Qed.

(** A timer that a handler sets is for the session of the handler and
    has the fixed delay. *)
Lemma handler_delay w s ev pid d :
  In (SetReconnect pid d) (snd (handler_step w s ev)) →
  pid = s_pid s ∧ d = SOCKET_RECONNECT_MS.
Proof.
  destruct ev as [| |err|sock]; cbn [handler_step].
  - unfold on_connect. cbn [snd]. intros H.
    by apply (broadcast_counts w _ (WsStatus true None)) in H.
  - apply on_close_spec.
  - apply on_error_spec.
  - destruct (connectToWrapper_spec w sock s) as [-> _].
    intros [H|[]]. done.
Qed.

(** One event other than a successful connect does not increase what is
    left of the pending timers and of the attempts below the maximum,
    and every connection it makes is paid from it. *)
Lemma conn_step_budget w st e :
  is_connect_event (w, e) = false →
  let r := conn_step w st e in
  count_connections (snd r) + pending (fst r)
    + (SOCKET_RECONNECT_MAX - reconnects (sess (fst r)))
  ≤ pending st + (SOCKET_RECONNECT_MAX - reconnects (sess st))
  ∧ count_reconnects (snd r) + (SOCKET_RECONNECT_MAX - reconnects (sess (fst r)))
    ≤ SOCKET_RECONNECT_MAX - reconnects (sess st).
Proof.
  intros He. destruct st as [s n l].
  assert (Hidle : ∀ st' : conn_state,
            count_connections (snd (st', @nil effect)) + pending (fst (st', @nil effect))
              + (SOCKET_RECONNECT_MAX - reconnects (sess (fst (st', @nil effect))))
            ≤ pending st' + (SOCKET_RECONNECT_MAX - reconnects (sess st'))
            ∧ count_reconnects (snd (st', @nil effect))
                + (SOCKET_RECONNECT_MAX - reconnects (sess (fst (st', @nil effect))))
              ≤ SOCKET_RECONNECT_MAX - reconnects (sess st')).
  { intros st'. cbn [fst snd]. change (count_connections []) with 0.
    change (count_reconnects []) with 0. lia. }
  destruct e as [| |err|sock]; [done| | |].
  - unfold conn_step. cbn [pending sess live handler_step].
    destruct l as [|l]; [apply Hidle|].
    destruct (on_close_spec w s) as (H1 & H2 & H3 & _).
    destruct (on_close w s) as [s' effs]. cbn [fst snd pending sess] in *.
    destruct ((reconnects s <? SOCKET_RECONNECT_MAX) && accessible w (sockPath s)) eqn:Hr.
    + apply andb_prop in Hr as [Hr%Nat.ltb_lt _]. lia.
    + lia.
  - unfold conn_step. cbn [pending sess live handler_step].
    destruct l as [|l]; [apply Hidle|].
    destruct (on_error_spec w err s) as (H1 & H2 & H3 & _).
    destruct (on_error w err s) as [s' effs]. cbn [fst snd pending sess] in *.
    destruct (connection_failed err && (reconnects s <? SOCKET_RECONNECT_MAX)
              && accessible w (sockPath s)) eqn:Hr.
    + apply andb_prop in Hr as [[_ Hr%Nat.ltb_lt]%andb_prop _]. lia.
    + lia.
  - unfold conn_step. cbn [pending sess live handler_step].
    destruct n as [|n]; [apply Hidle|].
    destruct (connectToWrapper_spec w sock s) as [H1 H2].
    destruct (connectToWrapper w sock s) as [s' effs]. cbn [fst snd pending sess] in *.
    subst effs. rewrite H2.
    change (count_connections [CreateConnection (s_pid s) (sockPath s)]) with 1.
    change (count_reconnects [CreateConnection (s_pid s) (sockPath s)]) with 0.
    lia.
Qed.

(** With no timer pending and no socket left, no event does anything. *)
Lemma conn_run_idle es : ∀ st,
  pending st = 0 → live st = 0 → conn_run st es = (st, []).
Proof.
  induction es as [|[w e] es IH]; intros st Hp Hl; cbn [conn_run]; [done|].
  assert (conn_step w st e = (st, [])) as ->.
  { unfold conn_step. rewrite Hp, Hl. by destruct e. }
  by rewrite IH.
Qed.

Lemma conn_run_budget es : ∀ st,
  no_connect es = true →
  let r := conn_run st es in
  count_connections (snd r) + pending (fst r)
    + (SOCKET_RECONNECT_MAX - reconnects (sess (fst r)))
  ≤ pending st + (SOCKET_RECONNECT_MAX - reconnects (sess st))
  ∧ count_reconnects (snd r) + (SOCKET_RECONNECT_MAX - reconnects (sess (fst r)))
    ≤ SOCKET_RECONNECT_MAX - reconnects (sess st).
Proof.
  induction es as [|[w e] es IH]; intros st Hno; cbn [conn_run].
  - cbn [fst snd]. change (count_connections []) with 0.
    change (count_reconnects []) with 0. lia.
  - apply andb_prop in Hno as [He%negb_true_iff Hno].
    pose proof (conn_step_budget w st e He) as H1.
    destruct (conn_step w st e) as [st1 effs1].
    specialize (IH st1 Hno).
    destruct (conn_run st1 es) as [st2 effs2]. cbn [fst snd] in *.
    rewrite count_connections_app, count_reconnects_app. lia.
Qed.

(** Discovery does not connect to a session that is already tracked. *)
Lemma connect_new_skips_tracked w found : ∀ sock sessions pid path,
  map_has pid sessions = true →
  ¬ In (CreateConnection pid path) (snd (connect_new w sock found sessions)).
Proof.
  induction found as [|[k p] found IH]; intros sock sessions pid path H; [simpl; tauto|].
  rewrite DiscoverySpec.connect_new_cons.
  destruct (map_has k sessions) eqn:Hk; [by apply IH|].
  destruct (connectToWrapper_spec w sock (createSession w k p)) as [He _].
  destruct (connectToWrapper w sock (createSession w k p)) as [s effs].
  specialize (IH (S sock) (map_set k s sessions) pid path).
  destruct (connect_new w (S sock) found (map_set k s sessions)) as [sessions' effs'].
  cbn [fst snd] in *. subst effs. intros [Hin|Hin]%in_app_or.
  - destruct Hin as [[= -> _]|[]]. congruence.
  - apply IH; [|done]. rewrite DiscoverySpec.map_has_set, H. by rewrite orb_true_r.
Qed.

Lemma discover_skips_tracked w sock r pid path :
  map_has pid (sessions r) = true →
  ¬ In (CreateConnection pid path) (snd (fst (discoverAndConnect w sock r))).
Proof.
  intros H. unfold discoverAndConnect, scanForWrappers.
  destruct (tmpEntries w) as [entries|].
  - destruct (fold_left (scan_entry w) entries ([], [])) as [found unlinked].
    match goal with |- context [connect_new ?w' sock found (sessions r)] =>
      pose proof (connect_new_skips_tracked w' found sock (sessions r) pid path H) as Hn;
      destruct (connect_new w' sock found (sessions r)) as [sessions' effs'] end.
    cbn [fst snd] in *. intros [Hin|Hin]%in_app_or; [|done].
    apply in_map_iff in Hin as (e & He & _). discriminate He.
  - pose proof (connect_new_skips_tracked w [] sock (sessions r) pid path H) as Hn.
    simpl in *. tauto.
Qed.

(** C6: the close and error handlers set a reconnect timer exactly when
    the counter of the session is below [SOCKET_RECONNECT_MAX] and its
    socket file can be accessed (and, for an error, when the connection
    failed); every such timer has the delay [SOCKET_RECONNECT_MS].  As
    long as no attempt succeeds, at most as many attempts are made as
    timers are pending and attempts are left below the maximum.  Once the
    maximum is reached and no timer is pending, no connection is ever
    attempted and no timer ever set again, as long as no attempt succeeds
    and, when no socket is left, whatever happens; discovery does not
    connect to a tracked session either. *)
Theorem reconnect_policy w s err :
  count_reconnects (snd (on_close w s))
    = (if (reconnects s <? SOCKET_RECONNECT_MAX) && accessible w (sockPath s)
       then 1 else 0)
  ∧ count_reconnects (snd (on_error w err s))
    = (if connection_failed err && (reconnects s <? SOCKET_RECONNECT_MAX)
          && accessible w (sockPath s)
       then 1 else 0)
  ∧ (∀ ev pid d, In (SetReconnect pid d) (snd (handler_step w s ev)) →
                 pid = s_pid s ∧ d = SOCKET_RECONNECT_MS)
  ∧ (∀ st es, no_connect es = true →
       count_connections (snd (conn_run st es))
       ≤ pending st + (SOCKET_RECONNECT_MAX - reconnects (sess st)))
  ∧ (∀ st es, SOCKET_RECONNECT_MAX ≤ reconnects (sess st) → pending st = 0 →
       no_connect es = true ∨ live st = 0 →
       count_connections (snd (conn_run st es)) = 0
       ∧ count_reconnects (snd (conn_run st es)) = 0)
  ∧ (∀ w' sock r pid path, map_has pid (sessions r) = true →
       ¬ In (CreateConnection pid path) (snd (fst (discoverAndConnect w' sock r)))).
Proof.
  split; [apply on_close_spec|]. split; [apply on_error_spec|].
  split; [intros ev pid d; apply handler_delay|].
  split; [|split].
  - intros st es Hno. destruct (conn_run_budget es st Hno) as [H _]. lia.
  - intros st es Hmax Hp [Hno|Hl].
    + destruct (conn_run_budget es st Hno) as [H1 H2]. lia.
    + by rewrite conn_run_idle.
  - intros w' sock r pid path. apply discover_skips_tracked.
Qed.

Lemma reconnect_policy_witness :
  let w := Examples.world0 in
  let st := {| sess := Examples.session_exhausted; pending := 0; live := 2 |} in
  let es := [(w, SockError ECONNREFUSED); (w, SockClose); (w, TimerFired 5);
             (w, SockError ENOENT); (w, SockClose)] in
  count_connections (snd (conn_run st es)) = 0
  ∧ count_reconnects (snd (conn_run st es)) = 0.
Proof.
  intros w st es.
  apply (proj1 (proj2 (proj2 (proj2 (proj2
           (reconnect_policy w Examples.session_exhausted ENOENT)))))).
  - vm_compute. lia.
  - reflexivity.
  - left. reflexivity.
Defined.

End ReconnectSpec.

(** ** The port scan *)

Module PortSpec.
Import JS Relay.

Lemma ports_from_S s k : ports_from s (S k) = s :: ports_from (s + 1) k.
Proof.
  unfold ports_from. cbn [seq List.map]. f_equal; [lia|].
  rewrite <- seq_shift, List.map_map. apply List.map_ext. intros j. lia.
Qed.

(** The ports tried are consecutive from the first one, and at most
    [n]. *)
Lemma listen_loop_tried t s : ∀ n i,
  ∃ k, k ≤ n ∧ snd (listen_loop t s i n) = ports_from (s + i) k.
Proof.
  induction n as [|n IH]; intros i; cbn [listen_loop].
  - exists 0. done.
  - destruct (t (s + i)%Z) as [[|code]|].
    + destruct (IH (i + 1)%Z) as (k & Hk & Hp).
      destruct (listen_loop t s (i + 1) n) as [res tried]. cbn [snd] in *.
      exists (S k). split; [lia|]. rewrite ports_from_S, Hp. do 2 f_equal. lia.
    + exists 1. split; [lia|]. by rewrite ports_from_S.
    + exists 1. split; [lia|]. by rewrite ports_from_S.
Qed.

(** When every port of the range is in use, all are tried and the scan
    throws. *)
Lemma listen_loop_exhausted t s : ∀ n i,
  (∀ j, j < n → in_use t (s + i + Z.of_nat j) = true) →
  listen_loop t s i n
  = (Thrown (lit "No available port found"), ports_from (s + i) n).
Proof.
  induction n as [|n IH]; intros i H; cbn [listen_loop]; [done|].
  pose proof (H 0 ltac:(lia)) as H0. unfold in_use in H0.
  replace (s + i + Z.of_nat 0)%Z with (s + i)%Z in H0 by lia.
  destruct (t (s + i)%Z) as [[|code]|]; try done.
  rewrite IH.
  - rewrite ports_from_S. do 3 f_equal. lia.
  - intros j Hj. specialize (H (S j) ltac:(lia)).
    replace (s + (i + 1) + Z.of_nat j)%Z with (s + i + Z.of_nat (S j))%Z by lia. done.
Qed.

(** The scan stops at the first port that is not in use: it returns it
    when listening succeeds, and throws the error otherwise, without
    trying any later port. *)
Lemma listen_loop_stops t s : ∀ k n i,
  k < n →
  (∀ j, j < k → in_use t (s + i + Z.of_nat j) = true) →
  in_use t (s + i + Z.of_nat k) = false →
  listen_loop t s i n
  = (match t (s + i + Z.of_nat k)%Z with
     | None => Returned (s + i + Z.of_nat k)%Z
     | Some EADDRINUSE => Thrown (lit "No available port found")
     | Some (ListenError code) => Thrown code
     end, ports_from (s + i) (S k)).
Proof.
  induction k as [|k IH]; intros n i Hk Hbefore Hstop;
    (destruct n as [|n]; [lia|]); cbn [listen_loop].
  - replace (s + i + Z.of_nat 0)%Z with (s + i)%Z in * by lia.
    unfold in_use in Hstop. rewrite ports_from_S.
    destruct (t (s + i)%Z) as [[|code]|]; done.
  - pose proof (Hbefore 0 ltac:(lia)) as H0. unfold in_use in H0.
    replace (s + i + Z.of_nat 0)%Z with (s + i)%Z in H0 by lia.
    destruct (t (s + i)%Z) as [[|code]|]; try done.
    rewrite (IH n (i + 1)%Z).
    + replace (s + (i + 1) + Z.of_nat k)%Z with (s + i + Z.of_nat (S k))%Z by lia.
      rewrite (ports_from_S (s + i)). do 3 f_equal. lia.
    + lia.
    + intros j Hj. specialize (Hbefore (S j) ltac:(lia)).
      replace (s + (i + 1) + Z.of_nat j)%Z with (s + i + Z.of_nat (S j))%Z by lia. done.
    + replace (s + (i + 1) + Z.of_nat k)%Z with (s + i + Z.of_nat (S k))%Z by lia. done.
Qed.

(** C9: the ports tried are [START_PORT], [START_PORT + 1], ... in this
    order, at most [MAX_PORT_SCAN] of them.  When all of them are in use
    the start ends with exit status 1.  When listening on a port fails
    for another reason, no further port is tried and the start ends with
    exit status 1.  When listening succeeds, the port is the first one
    not in use. *)
Theorem port_scan t w r :
  let res := listenOnAvailablePort t START_PORT MAX_PORT_SCAN in
  (∃ k, k ≤ MAX_PORT_SCAN ∧ snd res = ports_from START_PORT k)
  ∧ ((∀ j, j < MAX_PORT_SCAN → in_use t (START_PORT + Z.of_nat j) = true) →
     res = (Thrown (lit "No available port found"),
            ports_from START_PORT MAX_PORT_SCAN)
     ∧ start t w r = Exited 1)
  ∧ (∀ k code, k < MAX_PORT_SCAN →
       (∀ j, j < k → in_use t (START_PORT + Z.of_nat j) = true) →
       t (START_PORT + Z.of_nat k)%Z = Some (ListenError code) →
       res = (Thrown code, ports_from START_PORT (S k))
       ∧ start t w r = Exited 1)
  ∧ (∀ k, k < MAX_PORT_SCAN →
       (∀ j, j < k → in_use t (START_PORT + Z.of_nat j) = true) →
       t (START_PORT + Z.of_nat k)%Z = None →
       res = (Returned (START_PORT + Z.of_nat k)%Z, ports_from START_PORT (S k))).
Proof.
  intros res. unfold res, listenOnAvailablePort, start, listenOnAvailablePort.
  split; [|split; [|split]].
  - destruct (listen_loop_tried t START_PORT MAX_PORT_SCAN 0) as (k & Hk & Hp).
    exists k. split; [done|]. by rewrite Hp, Z.add_0_r.
  - intros H. rewrite listen_loop_exhausted.
    + rewrite Z.add_0_r. done.
    + intros j Hj. rewrite Z.add_0_r. by apply H.
  - intros k code Hk Hbefore Hstop.
    rewrite (listen_loop_stops t START_PORT k).
    + rewrite !Z.add_0_r, Hstop. done.
    + done.
    + intros j Hj. rewrite Z.add_0_r. by apply Hbefore.
    + rewrite Z.add_0_r. unfold in_use. by rewrite Hstop.
  - intros k Hk Hbefore Hstop.
    rewrite (listen_loop_stops t START_PORT k).
    + rewrite !Z.add_0_r, Hstop. done.
    + done.
    + intros j Hj. rewrite Z.add_0_r. by apply Hbefore.
    + rewrite Z.add_0_r. unfold in_use. by rewrite Hstop.
Qed.

Lemma port_scan_witness :
  start Examples.all_taken Examples.world0 Examples.relay_empty = Exited 1
  ∧ listenOnAvailablePort Examples.third_refused START_PORT MAX_PORT_SCAN
    = (Thrown (lit "EACCES"), [3456; 3457; 3458]%Z)
  ∧ start Examples.third_refused Examples.world0 Examples.relay_empty = Exited 1.
Proof.
  split; [|split].
  - apply (proj1 (proj2 (port_scan Examples.all_taken Examples.world0
                           Examples.relay_empty))).
    intros j Hj. reflexivity.
  - apply (proj1 (proj2 (proj2 (port_scan Examples.third_refused Examples.world0
                                  Examples.relay_empty))) 2 (lit "EACCES")).
    + vm_compute. lia.
    + intros j Hj. repeat (destruct j as [|j]; [reflexivity|]). lia.
    + reflexivity.
  - apply (proj1 (proj2 (proj2 (port_scan Examples.third_refused Examples.world0
                                  Examples.relay_empty))) 2 (lit "EACCES")).
    + vm_compute. lia.
    + intros j Hj. repeat (destruct j as [|j]; [reflexivity|]). lia.
    + reflexivity.
Defined.

End PortSpec.

(** ** The file viewer *)

Module FileSpec.
Import JS Relay StringFacts.







End FileSpec.

(** ** Maps and lists *)

Module MapFacts.
Import Relay.

Lemma map_set_keys {V} k (v v' : V) m :
  map_get k m = Some v' → List.map fst (map_set k v m) = List.map fst m.
Proof.
  induction m as [|[k' x] m IH]; simpl; [done|].
  destruct (Z.eqb_spec k k') as [->|Hne]; simpl; [done|].
  intros H. by rewrite IH.
Qed.

Lemma map_get_set {V} k k' (v : V) m :
  map_get k' (map_set k v m) = if Z.eqb k' k then Some v else map_get k' m.
Proof.
  induction m as [|[k0 x] m IH]; simpl.
  - done.
  - destruct (Z.eqb_spec k k0) as [->|Hne]; simpl.
    + by destruct (Z.eqb_spec k' k0).
    + rewrite IH. destruct (Z.eqb_spec k' k0) as [->|]; [|done].
      destruct (Z.eqb_spec k0 k); [congruence|done].
Qed.

Lemma In_take {A} (x : A) n l : In x (take n l) → In x l.
Proof.
  revert n. induction l as [|y l IH]; intros [|n]; simpl; try tauto.
  intros [H|H]; [by left|right; eauto].
Qed.

Lemma In_drop {A} (x : A) n l : In x (drop n l) → In x l.
Proof.
  revert n. induction l as [|y l IH]; intros [|n]; simpl; try tauto.
  intros H. right; eauto.
Qed.

End MapFacts.

(** ** Newlines *)

Module LinesFacts.
Import JS Lines.

Lemma indexOf_newline_lt s i : indexOf_newline s = Some i → i < length s.
Proof.
  revert i. induction s as [|c s IH]; intros i; simpl; [done|].
  destruct (N.eqb c 10); [intros [= <-]; lia|].
  destruct (indexOf_newline s) as [j|]; simpl; [|done].
  intros [= <-]. specialize (IH j eq_refl). lia.
Qed.

End LinesFacts.
(** ** More on the ring buffer *)

Module RingBufferMore.
Import JS RingBuffer ListFacts RingBufferSpec.

(** X1: whenever the number of bytes written so far differs from the
    capacity, the snapshot of a buffer is the last [min(total, capacity)]
    bytes written, in order. *)
Theorem snapshot_is_recent_suffix cap (ws : list buffer) :
  length (concat ws) ≠ cap →
  getContents (writes (new cap) ws)
  = lastn (Nat.min (length (concat ws)) cap) (concat ws).
Proof.
  intros H. rewrite getContents_writes.
  by destruct (Nat.eqb_spec (length (concat ws)) cap).
Qed.

Lemma snapshot_is_recent_suffix_witness :
  getContents (writes (new 4) Samples.writes0) = lit "cdef".
Proof.
  rewrite (snapshot_is_recent_suffix 4 Samples.writes0); [reflexivity|].
  vm_compute. lia.
Defined.

(** X2: after any sequence of writes the store still has exactly
    [capacity] bytes, the cursor lies within it, and the counter is the
    number of bytes written. *)
Theorem buffer_stays_bounded cap (ws : list buffer) :
  let rb := writes (new cap) ws in
  length (buf rb) = cap
  ∧ capacity rb = cap
  ∧ writePos rb ≤ cap
  ∧ totalWritten rb = length (concat ws)
  ∧ length (getContents rb) ≤ cap.
Proof.
  intros rb.
  pose proof (inv_writes cap ws (new cap) [] (inv_new cap)) as Hinv.
  simpl in Hinv. fold rb in Hinv.
  destruct Hinv as [Hlen Hcap Hpos Htot _ _ _].
  repeat split; try done.
  unfold getContents, subarray.
  destruct (totalWritten rb <=? capacity rb).
  - rewrite length_drop, length_take. lia.
  - rewrite length_app, !length_drop, !length_take. lia.
Qed.

Lemma writes_snoc rb ws src :
  write_bytes (writes rb ws) src = writes rb (ws ++ [src]).
Proof. unfold writes. by rewrite fold_left_app. Qed.

(** X3: one more write slides the window: when neither the bytes written
    before nor those written after the write number exactly [capacity],
    the new snapshot is the last [capacity] bytes of the old snapshot
    followed by the data. *)
Theorem write_slides_window cap (ws : list buffer) (src : buffer) :
  length (concat ws) ≠ cap →
  length (concat ws) + length src ≠ cap →
  getContents (write_bytes (writes (new cap) ws) src)
  = lastn cap (getContents (writes (new cap) ws) ++ src).
Proof.
  intros H1 H2.
  rewrite (writes_snoc (new cap) ws src).
  assert (Hc : concat (ws ++ [src]) = concat ws ++ src).
  { rewrite concat_app. simpl. by rewrite app_nil_r. }
  assert (E2 : getContents (writes (new cap) (ws ++ [src])) = expected cap (ws ++ [src])).
  { apply getContents_writes_ne. rewrite Hc, length_app. done. }
  assert (E1 : getContents (writes (new cap) ws) = expected cap ws).
  { by apply getContents_writes_ne. }
  rewrite E2, E1.
  unfold expected. rewrite Hc, length_app.
  destruct (Nat.le_gt_cases cap (length (concat ws))) as [Hge|Hlt].
  - rewrite (Nat.min_r (length (concat ws))) by lia.
    rewrite Nat.min_r by lia. by rewrite lastn_app_lastn.
  - rewrite (Nat.min_l (length (concat ws))) by lia.
    rewrite (lastn_all (length (concat ws))) by done.
    destruct (Nat.le_gt_cases cap (length (concat ws) + length src)).
    + by rewrite Nat.min_r by lia.
    + rewrite Nat.min_l by lia.
      rewrite !lastn_all; rewrite ?length_app; try lia. done.
Qed.

Lemma write_slides_window_witness :
  getContents (write_bytes (writes (new 4) Samples.writes0) (lit "gh"))
  = lit "efgh".
Proof.
  rewrite (write_slides_window 4 Samples.writes0 (lit "gh")).
  - reflexivity.
  - vm_compute. lia.
  - vm_compute. lia.
Defined.

End RingBufferMore.
(** ** More on the wrapper *)

Module WrapperMore.
Import JS Wrapper WrapperTrace StringFacts WrapperSpec.

Lemma frames_of_broadcast c (l : list client) f :
  snd <$> List.filter (fun e : client * frame => Nat.eqb (fst e) c)
            (List.map (fun c' => (c', f)) l)
  = replicate (length (List.filter (Nat.eqb c) l)) f.
Proof.
  induction l as [|c' l IH]; simpl; [done|].
  rewrite (Nat.eqb_sym c c'). destruct (Nat.eqb c' c); simpl;
    [f_equal|]; exact IH.
Qed.

Lemma frames_after_broadcast c st f :
  frames_to c (broadcastToMirrors st f)
  = frames_to c st ++ replicate (membership c st) f.
Proof.
  unfold broadcastToMirrors. rewrite frames_to_app. f_equal.
  apply frames_of_broadcast.
Qed.

Lemma membership_add c c' l :
  c ≠ c' →
  length (List.filter (Nat.eqb c) (client_add c' l))
  = length (List.filter (Nat.eqb c) l).
Proof.
  intros Hne. unfold client_add. destruct (existsb (Nat.eqb c') l); [done|].
  rewrite List.filter_app, length_app. cbn [List.filter].
  destruct (Nat.eqb_spec c c'); [done|]. cbn [length]. by rewrite Nat.add_0_r.
Qed.

Lemma membership_delete c c' l :
  c ≠ c' →
  length (List.filter (Nat.eqb c) (client_delete c' l))
  = length (List.filter (Nat.eqb c) l).
Proof.
  intros Hne. unfold client_delete. induction l as [|x l IH]; simpl; [done|].
  destruct (Nat.eqb_spec c' x) as [->|Hx]; simpl.
  - destruct (Nat.eqb_spec c x); [done|]. apply IH.
  - destruct (Nat.eqb_spec c x); simpl; by rewrite IH.
Qed.

(** One event that does not concern the client: the client stays as often
    in the set as it was, and gets what the event broadcasts once for each
    time it is in the set. *)
Lemma step_undisturbed p st c e :
  concerns c e = false →
  membership c (step p st e) = membership c st
  ∧ frames_to c (step p st e)
    = frames_to c st ++ concat (replicate (membership c st) (broadcast_of e)).
Proof.
  intros Hc. destruct e as [c'|d|code|cols rows|d|c']; simpl in Hc; try done.
  - apply Nat.eqb_neq in Hc. cbn [step]. split.
    + unfold membership, on_connection. cbn [ringBuffer sendToClient with_sent].
      destruct (0 <? length _); cbn [socketClients sendToClient with_sent];
        by apply membership_add.
    + cbn [broadcast_of]. 
      assert (concat (replicate (membership c st) (@nil frame)) = []) as ->.
      { induction (membership c st); simpl; done. }
      rewrite app_nil_r. unfold on_connection.
      cbn [ringBuffer sendToClient with_sent].
      destruct (0 <? length _); unfold frames_to, sendToClient; simpl;
        rewrite !List.filter_app, !fmap_app; simpl;
        destruct (Nat.eqb_spec c' c); try congruence; simpl;
        by rewrite ?app_nil_r.
  - cbn [step broadcast_of]. split; [done|].
    unfold on_data. rewrite frames_after_broadcast. f_equal.
    unfold membership. simpl. induction (length _); simpl; [done|]. by f_equal.
  - cbn [step broadcast_of]. split.
    + unfold membership, on_resize. simpl. done.
    + unfold on_resize. rewrite frames_after_broadcast. f_equal.
      unfold membership. simpl. induction (length _); simpl; [done|]. by f_equal.
  - cbn [step broadcast_of]. 
    assert (concat (replicate (membership c st) (@nil frame)) = []) as ->.
    { induction (membership c st); simpl; done. }
    rewrite app_nil_r. unfold on_input.
    destruct (ptyProcess st); [|done]. by destruct (truthy d).
  - apply Nat.eqb_neq in Hc. cbn [step broadcast_of].
    assert (concat (replicate (membership c st) (@nil frame)) = []) as ->.
    { induction (membership c st); simpl; done. }
    rewrite app_nil_r. split; [|done].
    unfold membership, on_client_gone. simpl. by apply membership_delete.
Qed.

(** A run that does not concern a client that is in the set once. *)
Lemma run_undisturbed p c es : ∀ st,
  membership c st = 1 →
  undisturbed c es = true →
  membership c (run p st es) = 1
  ∧ frames_to c (run p st es) = frames_to c st ++ flat_map broadcast_of es.
Proof.
  induction es as [|e es IH]; intros st Hm Hu; cbn [run fold_left flat_map].
  - by rewrite app_nil_r.
  - apply andb_prop in Hu as [He%negb_true_iff Hu].
    destruct (step_undisturbed p st c e He) as [Hm1 Hf1].
    rewrite Hm in Hm1, Hf1. simpl in Hf1. rewrite app_nil_r in Hf1.
    destruct (IH (step p st e) Hm1 Hu) as [Hm2 Hf2].
    split; [done|]. fold (run p (step p st e) es).
    by rewrite Hf2, Hf1, <- app_assoc.
Qed.

(** X4: while a client stays attached and the child runs, the client is
    written exactly the frames that the events broadcast, each once and in
    the order of the events: one output frame per chunk of output and one
    resize frame per resize. *)
Theorem attached_client_gets_every_broadcast p st c es :
  membership c st = 1 →
  undisturbed c es = true →
  frames_to c (run p st es) = frames_to c st ++ flat_map broadcast_of es.
Proof. intros Hm Hu. by apply run_undisturbed. Qed.

Lemma attached_client_gets_every_broadcast_witness :
  let p := Examples.process0 in
  let st := on_connection p 1 (init_ring 8 []) in
  frames_to 1 (run p st [Data (lit "hi"); Connection 2; ResizeEv 100 40;
                          Data (lit "!")])
  = frames_to 1 st
    ++ [Output (lit "aGk="); Resize 100 40; Output (lit "IQ==")].
Proof.
  intros p st.
  rewrite (attached_client_gets_every_broadcast p st 1
             [Data (lit "hi"); Connection 2; ResizeEv 100 40; Data (lit "!")]);
    reflexivity.
Defined.

(** One event that is not a connection of a client that is not in the
    set. *)
Lemma step_detached p st c e :
  membership c st = 0 → connects c e = false →
  membership c (step p st e) = 0 ∧ frames_to c (step p st e) = frames_to c st.
Proof.
  intros Hm Hc.
  assert (Hb : ∀ st' f, membership c st' = 0 →
                        frames_to c (broadcastToMirrors st' f) = frames_to c st').
  { intros st' f H. rewrite frames_after_broadcast, H. simpl. by rewrite app_nil_r. }
  destruct e as [c'|d|code|cols rows|d|c']; simpl in Hc; cbn [step].
  - apply Nat.eqb_neq in Hc.
    destruct (step_undisturbed p st c (Connection c')) as [H1 H2].
    { simpl. by apply Nat.eqb_neq. }
    cbn [step] in H1, H2. rewrite H1, H2, Hm. simpl. by rewrite app_nil_r.
  - split; [done|]. unfold on_data. by rewrite Hb.
  - split.
    + unfold on_exit, cleanup, broadcastToMirrors. simpl.
      by destruct (cleaningUp st).
    + unfold on_exit, cleanup.
      destruct (cleaningUp (broadcastToMirrors st (Exit code))); [by rewrite Hb|].
      rewrite <- (Hb st (Exit code)) by done. done.
  - split; [done|]. unfold on_resize. by rewrite Hb.
  - unfold on_input. destruct (ptyProcess st); [|done]. by destruct (truthy d).
  - split; [|done]. unfold membership, on_client_gone. simpl.
    unfold membership in Hm. unfold client_delete.
    induction (socketClients st) as [|x l IH]; simpl in *; [done|].
    destruct (Nat.eqb_spec c x); [done|].
    destruct (Nat.eqb c' x); simpl; [by apply IH|].
    destruct (Nat.eqb_spec c x); [done|]. by apply IH.
Qed.

(** X5: a client that is not in the set of clients, because it never
    connected or because its socket closed or failed, is written nothing
    as long as it does not connect again. *)
Theorem detached_client_gets_nothing p c es : ∀ st,
  membership c st = 0 →
  never_connects c es = true →
  frames_to c (run p st es) = frames_to c st.
Proof.
  induction es as [|e es IH]; intros st Hm Hn; cbn [run fold_left]; [done|].
  apply andb_prop in Hn as [He%negb_true_iff Hn].
  destruct (step_detached p st c e Hm He) as [Hm1 Hf1].
  fold (run p (step p st e) es). by rewrite IH.
Qed.

Lemma detached_client_gets_nothing_witness :
  let p := Examples.process0 in
  let st := on_client_gone 1 (on_connection p 1 (init_ring 8 [])) in
  frames_to 1 (run p st [Data (lit "hi"); ResizeEv 100 40; ExitEv 0])
  = frames_to 1 st.
Proof.
  intros p st.
  apply (detached_client_gets_nothing p 1
           [Data (lit "hi"); ResizeEv 100 40; ExitEv 0] st); reflexivity.
Defined.

(** X6: when the child exits, every attached client is written the exit
    frame with the exit code, the socket file is removed, and the cleanup
    is marked as done, so that a second cleanup changes nothing. *)
Theorem exit_tears_down st code path c :
  cleaningUp st = false →
  socketPath st = Some path →
  membership c st = 1 →
  let st' := on_exit code st in
  frames_to c st' = frames_to c st ++ [Exit code]
  ∧ lookup_file (files st') path = None
  ∧ cleaningUp st' = true
  ∧ cleanup st' = st'.
Proof.
  intros Hc Hp Hm st'. unfold st', on_exit, cleanup.
  cbn [cleaningUp broadcastToMirrors with_sent socketPath files].
  rewrite Hc, Hp. cbn [cleaningUp files]. split; [|split; [|done]].
  - pose proof (frames_after_broadcast c st (Exit code)) as H.
    rewrite Hm in H. unfold frames_to in *. simpl in *. done.
  - rewrite lookup_unlink. by rewrite str_eqb_refl.
Qed.

Lemma exit_tears_down_witness :
  let p := Examples.process0 in
  let st := on_connection p 1 (main p true []) in
  lookup_file (files st) (lit "/tmp/tm-4242.sock") = Some SocketFile
  ∧ lookup_file (files (on_exit 0 st)) (lit "/tmp/tm-4242.sock") = None.
Proof.
  intros p st. split; [reflexivity|].
  apply (exit_tears_down st 0 (lit "/tmp/tm-4242.sock") 1); reflexivity.
Defined.

End WrapperMore.
(** ** More on the mailbox *)

Module MailboxMore.
Import JS Relay MailboxTrace ListFacts MailboxSpec MapFacts.

(** X7: whatever is done to the mailbox of a session, in whatever order,
    the entries handed to consumers followed by the entries still queued
    are the submitted entries in the order of their arrival, with some of
    them left out: no entry is handed out twice, none is made up, and
    none overtakes an earlier one.  And no poll waits while an entry is
    queued. *)
Theorem deliveries_follow_submissions w0 pid path es :
  let r := mailbox_run (createSession w0 pid path) es in
  List.map snd (delivered (snd r)) ++ messageQueue (fst r)
  `sublist_of` submitted es
  ∧ (messageQueue (fst r) = [] ∨ pollWaiters (fst r) = []).
Proof.
  intros r. split.
  - exact (run_in_order es (createSession w0 pid path)).
  - exact (proj2 (mailbox_inv_run es (createSession w0 pid path)
                    (mailbox_inv_new _ _ _))).
Qed.

Lemma responded_app effs effs' :
  responded (effs ++ effs') = responded effs ++ responded effs'.
Proof. unfold responded. by rewrite flat_map_app. Qed.

Lemma cleared_app effs effs' :
  cleared (effs ++ effs') = cleared effs ++ cleared effs'.
Proof. unfold cleared. by rewrite flat_map_app. Qed.

Lemma broadcast_silent w s m :
  delivered (broadcastCommentJSON w s m) = []
  ∧ responded (broadcastCommentJSON w s m) = []
  ∧ cleared (broadcastCommentJSON w s m) = [].
Proof.
  unfold broadcastCommentJSON.
  induction (List.filter (wsOpen w) (commentClients s)); simpl; [done|]. tauto.
Qed.

Lemma enqueue_waiting e s w0 ws :
  pollWaiters s = w0 :: ws →
  messageQueue s = [] →
  snd (enqueue e s)
    = [ClearTimeout (timer w0); Respond (res w0) (json 200 (JsonEntry e))]
  ∧ pollWaiters (fst (enqueue e s)) = ws
  ∧ messageQueue (fst (enqueue e s)) = [].
Proof.
  intros Hw Hq. unfold enqueue. rewrite Hq.
  change (MAX_MESSAGE_QUEUE <=? length []) with false. cbn [app].
  unfold resolveNextPoll. cbn [set_messageQueue pollWaiters messageQueue].
  rewrite Hw. cbn [resolve_loop]. by destruct ws.
Qed.

(** X8: a submit that finds polls waiting hands its entry to the poll
    that has waited longest: the timer of that poll is cleared, the poll
    is answered with the entry, the other polls keep waiting in their
    order, and nothing is queued. *)
Theorem submit_wakes_longest_waiting_poll w b s w0 ws :
  pollWaiters s = w0 :: ws →
  messageQueue s = [] →
  truthy (submit_text b) = true →
  let r := submit w b s in
  delivered (snd r) = [(res w0, entry_of w b)]
  ∧ responded (snd r) = [res w0]
  ∧ cleared (snd r) = [timer w0]
  ∧ pollWaiters (fst r) = ws
  ∧ messageQueue (fst r) = [].
Proof.
  intros Hw Hq Ht r. unfold r, submit. rewrite Ht.
  destruct (enqueue_waiting {| text := submit_text b; at_ := now w |} s w0 ws Hw Hq)
    as (He & Hw' & Hq').
  destruct (enqueue _ s) as [s1 effs]. cbn [fst snd] in *. subst effs.
  destruct (comments b) as [|c cs]; [by rewrite app_nil_r|].
  match goal with
  | |- context [broadcastCommentJSON w s1 ?m] =>
      destruct (broadcast_silent w s1 m) as (H1 & H2 & H3)
  end.
  rewrite delivered_app, responded_app, cleared_app, H1, H2, H3.
  done.
Qed.

Lemma submit_wakes_longest_waiting_poll_witness :
  let w := Examples.world0 in
  let s := fst (mailbox_run Examples.session0 [Poll 1 11; Poll 2 12]) in
  let r := submit w (Examples.message_body (lit "m")) s in
  delivered (snd r) = [(1, entry_of w (Examples.message_body (lit "m")))]
  ∧ responded (snd r) = [1]
  ∧ cleared (snd r) = [11]
  ∧ pollWaiters (fst r) = [{| res := 2; timer := 12 |}]
  ∧ messageQueue (fst r) = [].
Proof.
  intros w s.
  apply (submit_wakes_longest_waiting_poll w (Examples.message_body (lit "m")) s
           {| res := 1; timer := 11 |} [{| res := 2; timer := 12 |}]);
    reflexivity.
Defined.

(** *** Who is answered *)

Lemma responded_resolve ws q :
  responded (snd (resolve_loop ws q))
  = List.map res (take (length q) ws).
Proof.
  revert q. induction ws as [|w ws IH]; intros q; simpl.
  - by destruct q.
  - destruct q as [|msg q]; simpl; [done|].
    specialize (IH q). destruct (resolve_loop ws q) as [[ws' q'] effs].
    simpl in *. by rewrite IH.
Qed.

Lemma waiters_resolve ws q :
  fst (fst (resolve_loop ws q)) = drop (length q) ws.
Proof.
  rewrite resolve_loop_spec. cbn [fst].
  destruct (Nat.le_ge_cases (length ws) (length q)).
  - rewrite Nat.min_l by done. rewrite !drop_ge; [done|lia..].
  - by rewrite Nat.min_r.
Qed.

Lemma In_remove_waiter x r ws :
  In x (List.map res (remove_waiter r ws)) → In x (List.map res ws).
Proof.
  induction ws as [|w ws IH]; simpl; [done|].
  destruct (Nat.eqb (res w) r); simpl; [tauto|]. intros [H|H]; [by left|].
  right. by apply IH.
Qed.

(** One event answers only polls that wait or the request it brings, and
    leaves waiting only polls that waited or the poll it brings. *)
Lemma step_responded s e x :
  (In x (responded (snd (mailbox_step s e))) →
   In x (List.map res (pollWaiters s)) ∨ In x (request_of e))
  ∧ (In x (List.map res (pollWaiters (fst (mailbox_step s e)))) →
     In x (List.map res (pollWaiters s)) ∨ In x (request_of e)).
Proof.
  destruct e as [w b|r t|r|r t|r]; cbn [mailbox_step request_of].
  - unfold submit. destruct (truthy (submit_text b)); [|cbn; tauto].
    unfold enqueue, resolveNextPoll.
    set (q := (if MAX_MESSAGE_QUEUE <=? length (messageQueue s)
               then tail (messageQueue s) else messageQueue s) ++ _).
    cbn [set_messageQueue pollWaiters messageQueue].
    pose proof (responded_resolve (pollWaiters s) q) as Hr.
    pose proof (waiters_resolve (pollWaiters s) q) as Hw.
    destruct (resolve_loop (pollWaiters s) q) as [[ws' q'] effs].
    cbn [fst snd set_pollWaiters pollWaiters] in *. subst ws'.
    split.
    + rewrite responded_app, Hr. intros [H|H]%in_app_iff.
      * left. apply in_map_iff in H as (y & <- & Hy). apply in_map.
        by apply In_take in Hy.
      * destruct (comments b); [done|].
        match type of H with
        | context [broadcastCommentJSON w ?s1 ?m] =>
            destruct (broadcast_silent w s1 m) as (_ & H2 & _)
        end.
        rewrite H2 in H. done.
    + intros H. left. apply in_map_iff in H as (y & <- & Hy). apply in_map.
      by apply In_drop in Hy.
  - unfold poll. destruct (messageQueue s); cbn.
    + rewrite List.map_app, in_app_iff. cbn. tauto.
    + tauto.
  - unfold on_poll_timeout. cbn. split; [tauto|].
    intros H. left. by apply In_remove_waiter in H.
  - unfold on_poll_close. cbn. split; [tauto|].
    intros H. left. by apply In_remove_waiter in H.
  - unfold drain. cbn. tauto.
Qed.

Lemma run_responded es : ∀ s x,
  In x (responded (snd (mailbox_run s es))) →
  In x (List.map res (pollWaiters s)) ∨ In x (requests es).
Proof.
  induction es as [|e es IH]; intros s x; cbn [mailbox_run]; [done|].
  destruct (step_responded s e x) as [H1 H2].
  specialize (IH (fst (mailbox_step s e)) x).
  destruct (mailbox_step s e) as [s1 effs1]. cbn [fst snd] in *.
  destruct (mailbox_run s1 es) as [s2 effs2]. cbn [fst snd] in *.
  unfold requests. cbn [flat_map]. rewrite responded_app, !in_app_iff.
  fold (requests es). tauto.
Qed.

Lemma In_zip_fst {A B} (x : A) (l : list A) (k : list B) :
  In x (List.map fst (zip l k)) → In x l.
Proof.
  revert k. induction l as [|y l IH]; intros [|z k]; simpl; try tauto.
  intros [H|H]; [by left|right; eauto].
Qed.

(** One event hands entries only to polls that wait or to the request it
    brings. *)
Lemma step_delivered_to s e x :
  (In x (List.map fst (delivered (snd (mailbox_step s e)))) →
   In x (List.map res (pollWaiters s)) ∨ In x (consumer_of e))
  ∧ (In x (List.map res (pollWaiters (fst (mailbox_step s e)))) →
     In x (List.map res (pollWaiters s)) ∨ In x (consumer_of e)).
Proof.
  destruct e as [w b|r t|r|r t|r]; cbn [mailbox_step consumer_of].
  - unfold submit. destruct (truthy (submit_text b)); [|cbn; tauto].
    unfold enqueue, resolveNextPoll.
    set (q := (if MAX_MESSAGE_QUEUE <=? length (messageQueue s)
               then tail (messageQueue s) else messageQueue s) ++ _).
    cbn [set_messageQueue pollWaiters messageQueue].
    pose proof (delivered_resolve (pollWaiters s) q) as Hr.
    pose proof (waiters_resolve (pollWaiters s) q) as Hw.
    destruct (resolve_loop (pollWaiters s) q) as [[ws' q'] effs].
    cbn [fst snd set_pollWaiters pollWaiters] in *. subst ws'.
    split.
    + rewrite delivered_app, Hr, List.map_app. intros [H|H]%in_app_iff.
      * left. by apply In_zip_fst in H.
      * destruct (comments b); [done|].
        match type of H with
        | context [broadcastCommentJSON w ?s1 ?m] =>
            destruct (broadcast_silent w s1 m) as (H2 & _ & _)
        end.
        rewrite H2 in H. done.
    + intros H. left. apply in_map_iff in H as (y & <- & Hy). apply in_map.
      by apply In_drop in Hy.
  - unfold poll. destruct (messageQueue s); cbn.
    + rewrite List.map_app, in_app_iff. cbn. tauto.
    + tauto.
  - unfold on_poll_timeout. cbn. split; [tauto|].
    intros H. left. by apply In_remove_waiter in H.
  - unfold on_poll_close. cbn. split; [tauto|].
    intros H. left. by apply In_remove_waiter in H.
  - unfold drain. cbn [fst snd set_messageQueue pollWaiters delivered json].
    split; [|tauto]. intros H. right. left.
    induction (messageQueue s) as [|y l IH]; simpl in H; [done|].
    destruct H as [H|H]; [done|]. by apply IH.
Qed.

Lemma run_delivered_to es : ∀ s x,
  In x (List.map fst (delivered (snd (mailbox_run s es)))) →
  In x (List.map res (pollWaiters s)) ∨ In x (consumers es).
Proof.
  induction es as [|e es IH]; intros s x; cbn [mailbox_run]; [done|].
  destruct (step_delivered_to s e x) as [H1 H2].
  specialize (IH (fst (mailbox_step s e)) x).
  destruct (mailbox_step s e) as [s1 effs1]. cbn [fst snd] in *.
  destruct (mailbox_run s1 es) as [s2 effs2]. cbn [fst snd] in *.
  unfold consumers. cbn [flat_map].
  rewrite delivered_app, List.map_app, !in_app_iff.
  fold (consumers es). tauto.
Qed.

Lemma sublist_In {A} (l k : list A) x : l `sublist_of` k → In x l → In x k.
Proof.
  intros Hs. induction Hs; simpl; tauto.
Qed.

Lemma remove_waiter_gone r ws :
  NoDup (List.map res ws) → ¬ In r (List.map res (remove_waiter r ws)).
Proof.
  induction ws as [|w ws IH]; simpl; [tauto|].
  intros Hnd. inversion Hnd as [|? ? Hw Hnd']; subst.
  destruct (Nat.eqb_spec (res w) r) as [<-|Hne]; simpl.
  - intros H. apply Hw. by apply list_elem_of_In.
  - intros [H|H]; [done|]. by apply IH.
Qed.

(** X9: whatever is done to the mailbox of a session, an entry is handed
    only to the response of a request that asked for entries, a poll or
    a request for all messages, and it is an entry that was submitted.
    A poll whose timer fired is answered with status 204 and no body,
    and its response is handed no entry, then or later, whatever is done
    to the mailbox afterwards. *)
Theorem entries_go_to_consumers_only w0 pid path es :
  (∀ x e,
     In (x, e) (delivered (snd (mailbox_run (createSession w0 pid path) es))) →
     In x (consumers es) ∧ In e (submitted es))
  ∧ (∀ s r,
       NoDup (List.map res (pollWaiters s)) →
       ¬ In r (consumers es) →
       let fired := on_poll_timeout r s in
       snd fired = [Respond r {| status := 204; resp_body := NoBody |}]
       ∧ ∀ e, ¬ In (r, e)
                (delivered (snd fired ++ snd (mailbox_run (fst fired) es)))).
Proof.
  split.
  - intros x e H. split.
    + destruct (run_delivered_to es (createSession w0 pid path) x) as [H1|H1];
        [|done|done].
      by apply (in_map fst) in H.
    + apply (sublist_In _ _ e (run_in_order es (createSession w0 pid path))).
      apply in_app_iff. left. by apply (in_map snd) in H.
  - intros s r Hnd Hr fired. split; [done|]. intros e H.
    rewrite delivered_app in H. cbn [fired on_poll_timeout snd delivered app] in H.
    apply (in_map fst) in H. cbn [fst] in H.
    apply run_delivered_to in H as [H|H]; [|done].
    by apply (remove_waiter_gone r (pollWaiters s)).
Qed.

Lemma entries_go_to_consumers_only_witness :
  let w := Examples.world0 in
  let m := Examples.message_body (lit "m") in
  let s := fst (mailbox_run Examples.session0 [Poll 1 11; Poll 2 12]) in
  let es := [Submit w m; Poll 3 13] in
  (In 2 (consumers ([Poll 1 11; Poll 2 12; PollTimeout 1] ++ es))
   ∧ In (entry_of w m) (submitted ([Poll 1 11; Poll 2 12; PollTimeout 1] ++ es)))
  ∧ snd (mailbox_run s (PollTimeout 1 :: es))
    = [Respond 1 {| status := 204; resp_body := NoBody |};
       ClearTimeout 12; Respond 2 (json 200 (JsonEntry (entry_of w m)));
       SetPollTimeout 13 3 (s_pid s) POLL_TIMEOUT_MS]
  ∧ ∀ e, ¬ In (1, e) (delivered (snd (mailbox_run s (PollTimeout 1 :: es)))).
Proof.
  intros w m s es. split; [|split].
  - apply (proj1 (entries_go_to_consumers_only w 100 (lit "/tmp/tm-100.sock")
                    ([Poll 1 11; Poll 2 12; PollTimeout 1] ++ es)) 2
             (entry_of w m)).
    vm_compute. by left.
  - reflexivity.
  - apply (proj2 (entries_go_to_consumers_only w 100 (lit "/tmp/tm-100.sock")
                    es) s 1).
    + vm_compute.
      repeat (constructor; [rewrite list_elem_of_In; simpl; intuition discriminate|]).
      constructor.
    + vm_compute. intuition discriminate.
Defined.

(** X10: once the request of a waiting poll is closed, its timer is
    cleared and its response is never written to, whatever is submitted
    later: the entries go to the polls that still wait. *)
Theorem closed_poll_is_never_answered s r t es :
  NoDup (List.map res (pollWaiters s)) →
  ¬ In r (requests es) →
  let closed := on_poll_close r t s in
  cleared (snd closed) = [t]
  ∧ ¬ In r (responded (snd (mailbox_run (fst closed) es))).
Proof.
  intros Hnd Hr closed. split; [done|]. intros H.
  apply run_responded in H as [H|H]; [|done].
  by apply (remove_waiter_gone r (pollWaiters s)).
Qed.

Lemma closed_poll_is_never_answered_witness :
  let w := Examples.world0 in
  let s := fst (mailbox_run Examples.session0 [Poll 1 11; Poll 2 12]) in
  let es := [Submit w (Examples.message_body (lit "m"))] in
  ¬ In 1 (responded (snd (mailbox_run (fst (on_poll_close 1 11 s)) es)))
  ∧ responded (snd (mailbox_run (fst (on_poll_close 1 11 s)) es)) = [2].
Proof.
  intros w s es. split; [|reflexivity].
  apply (closed_poll_is_never_answered s 1 11 es).
  - vm_compute.
    repeat (constructor; [rewrite list_elem_of_In; simpl; intuition discriminate|]).
    constructor.
  - vm_compute. tauto.
Defined.

End MailboxMore.
(** ** More on the HTTP server *)

Module HttpMore.
Import JS Relay Requests StringFacts AuthSpec MapFacts.

(** X11: a candidate token is accepted exactly when it is the master
    token. *)
Theorem token_accepted_iff_master master candidate :
  hex_token master = true →
  isValidToken master candidate = Returned true ↔ candidate = master.
Proof.
  intros Hm. split.
  - intros H. destruct (decide (candidate = master)) as [|Hne]; [done|].
    by destruct (isValidToken_never_accepts_wrong master candidate Hm Hne).
  - intros ->. by apply isValidToken_master.
Qed.

Lemma token_accepted_iff_master_witness :
  isValidToken Examples.master0 Examples.master0 = Returned true
  ∧ isValidToken Examples.master0 Examples.wrong_token ≠ Returned true.
Proof.
  split.
  - apply (token_accepted_iff_master Examples.master0 Examples.master0);
      reflexivity.
  - intros H.
    apply (token_accepted_iff_master Examples.master0 Examples.wrong_token) in H;
      [discriminate H|reflexivity].
Defined.

(** *** Requests without a token *)

Lemma str_eqb_startsWith p a b :
  str_eqb p (a ++ b) = true → startsWith p a = true.
Proof.
  revert p. induction a as [|x a IH]; intros p; simpl; [by destruct p|].
  destruct p as [|y p]; simpl; [done|].
  intros [H1 H2]%andb_prop. unfold code_eqb in *.
  apply N.eqb_eq in H1 as ->. rewrite N.eqb_refl. simpl. by apply IH.
Qed.

Lemma not_api_route req (m p : String.string) :
  startsWith (pathname req) (lit "/api/") = false →
  startsWith (lit p) (lit "/api/") = true →
  at_route req m p = false.
Proof.
  intros Hn Hp. unfold at_route.
  destruct (str_eqb (pathname req) (lit p)) eqn:He; [|by rewrite andb_false_r].
  apply str_eqb_eq in He. rewrite He in Hn. congruence.
Qed.

Lemma static_route_confined w req :
  status (static_route w req) = 200 →
  ∃ content,
    let path := requested_path w req in
    static_route w req = {| status := 200; resp_body := Raw content |}
    ∧ readFileSync w path = Some content
    ∧ (path = publicDir w
       ∨ startsWith path (publicDir w ++ [Path.slash]) = true).
Proof.
  unfold static_route, requested_path.
  set (path := Path.resolve2 _ _ _).
  destruct (str_eqb path (publicDir w)) eqn:He; simpl.
  - apply str_eqb_eq in He.
    destruct (readFileSync w path) as [content|] eqn:Hr; simpl; [|done].
    intros _. exists content. tauto.
  - destruct (startsWith path (publicDir w ++ [Path.slash])) eqn:Hs; simpl; [|done].
    destruct (readFileSync w path) as [content|] eqn:Hr; simpl; [|done].
    intros _. exists content. tauto.
Qed.

(** X12: a request to a path that is not under /api/ needs no token; it
    changes nothing in the relay and gets one response, and when that
    response is a 200 its body is the content of the file that the path
    of the request resolves to from the public directory, and that file
    is the public directory or lies under it. *)
Theorem request_outside_api_reads_only_public_files w r res timer req :
  startsWith (pathname req) (lit "/api/") = false →
  ∃ resp,
    handle_request w r res timer req = Returned (r, [Respond res resp])
    ∧ (status resp = 200 →
       ∃ content,
         let path := requested_path w req in
         resp_body resp = Raw content
         ∧ readFileSync w path = Some content
         ∧ (path = publicDir w
            ∨ startsWith path (publicDir w ++ [Path.slash]) = true)).
Proof.
  intros Hn. unfold handle_request.
  destruct (str_eqb (method req) (lit "OPTIONS")); [by eexists|].
  rewrite Hn. unfold routes.
  rewrite !(not_api_route req _ _ Hn) by reflexivity.
  destruct (str_eqb (method req) (lit "GET")); [|by eexists].
  eexists. split; [done|]. intros H200.
  destruct (static_route_confined w req H200) as (content & -> & ? & ?).
  by exists content.
Qed.

Lemma request_outside_api_reads_only_public_files_witness :
  handle_request world_public Examples.relay0 1 1 get_root
  = Returned (Examples.relay0,
              [Respond 1 {| status := 200;
                            resp_body := Raw (lit "<html></html>") |}])
  ∧ requested_path world_public get_root = lit "/srv/mirror/public/index.html"
  ∧ handle_request world_public Examples.relay0 1 1 get_missing
    = Returned (Examples.relay0,
                [Respond 1 {| status := 404; resp_body := Raw (lit "Not Found") |}])
  ∧ ∃ resp,
      handle_request world_public Examples.relay0 1 1 get_root
      = Returned (Examples.relay0, [Respond 1 resp])
      ∧ (status resp = 200 →
         ∃ content,
           let path := requested_path world_public get_root in
           resp_body resp = Raw content
           ∧ readFileSync world_public path = Some content
           ∧ (path = publicDir world_public
              ∨ startsWith path (publicDir world_public ++ [Path.slash]) = true)).
Proof.
  split; [reflexivity|]. split; [reflexivity|]. split; [reflexivity|].
  apply (request_outside_api_reads_only_public_files world_public
           Examples.relay0 1 1 get_root).
  reflexivity.
Defined.

(** *** Requests and the sessions *)

Lemma getSession_get r req k s :
  getSessionFromQuery r req = Some (k, s) → map_get k (sessions r) = Some s.
Proof.
  unfold getSessionFromQuery. destruct (searchParams_get _ _); [|done].
  destruct (truthy _); [|done]. destruct (parseInt _) as [pid|]; [|done].
  destruct (map_get pid (sessions r)) eqn:E; simpl; [|done].
  by intros [= <- <-].
Qed.

(** What a relay becomes when one of its sessions is replaced. *)
Lemma update_session_spec r k s s1 :
  map_get k (sessions r) = Some s →
  let r' := update_session r k s1 in
  List.map fst (sessions r') = List.map fst (sessions r)
  ∧ masterToken r' = masterToken r
  ∧ serverPort r' = serverPort r
  ∧ remoteMode r' = remoteMode r
  ∧ map_get k (sessions r') = Some s1
  ∧ ∀ k', k' ≠ k → map_get k' (sessions r') = map_get k' (sessions r).
Proof.
  intros Hg r'. unfold r', update_session. cbn.
  rewrite (map_set_keys k s1 s) by done. rewrite map_get_set, Z.eqb_refl.
  repeat split; try done.
  intros k' Hne. rewrite map_get_set. by destruct (Z.eqb_spec k' k).
Qed.

Lemma routes_state w r res timer req :
  fst (routes w r res timer req) = r
  ∨ ∃ k s s1, getSessionFromQuery r req = Some (k, s)
              ∧ fst (routes w r res timer req) = update_session r k s1.
Proof.
  unfold routes.
  repeat match goal with
         | |- context [if at_route ?a ?b ?c then _ else _] =>
             destruct (at_route a b c)
         end;
    try (left; reflexivity);
    try (destruct (getSessionFromQuery r req) as [[k s]|] eqn:Hg;
         [|left; reflexivity]).
  - by left.
  - destruct (req_body req) as [b|]; [|by left].
    destruct (submit w b s) as [s1 effs] eqn:Hs. right. by exists k, s, s1.
  - destruct (poll res timer s) as [s1 effs] eqn:Hs. right. by exists k, s, s1.
  - destruct (drain res s) as [s1 effs] eqn:Hs. right. by exists k, s, s1.
  - destruct (str_eqb _ _); by left.
Qed.

Lemma handle_request_state w r res timer req r' effs :
  handle_request w r res timer req = Returned (r', effs) →
  r' = r
  ∨ ∃ k s s1, getSessionFromQuery r req = Some (k, s)
              ∧ r' = update_session r k s1.
Proof.
  unfold handle_request.
  pose proof (routes_state w r res timer req) as Hr.
  destruct (str_eqb (method req) (lit "OPTIONS")); [intros [= <- <-]; by left|].
  destruct (startsWith (pathname req) (lit "/api/")).
  - destruct (isValidToken _ _) as [[|]|]; [| |done].
    + destruct (routes w r res timer req) as [r1 effs1]. intros [= <- <-]. exact Hr.
    + intros [= <- <-]. by left.
  - destruct (routes w r res timer req) as [r1 effs1]. intros [= <- <-]. exact Hr.
Qed.

(** X13: a request never adds or removes a session, and changes at most
    the session that its query names: the keys of the session map, in
    their order, the master token and the port stay as they are, and so
    does every session other than the named one. *)
Theorem request_touches_only_named_session w r res timer req r' effs :
  handle_request w r res timer req = Returned (r', effs) →
  List.map fst (sessions r') = List.map fst (sessions r)
  ∧ masterToken r' = masterToken r
  ∧ serverPort r' = serverPort r
  ∧ ∀ k, (∀ s, getSessionFromQuery r req ≠ Some (k, s)) →
         map_get k (sessions r') = map_get k (sessions r).
Proof.
  intros [->|(k & s & s1 & Hg & ->)]%handle_request_state; [done|].
  destruct (update_session_spec r k s s1 (getSession_get _ _ _ _ Hg))
    as (H1 & H2 & H3 & _ & _ & H6).
  repeat split; try done.
  intros k' Hk'. apply H6. intros ->. by apply (Hk' s).
Qed.

Lemma request_touches_only_named_session_witness :
  let r := relay_two in
  ∃ r' effs,
    handle_request Examples.world0 r 1 1 (Examples.post_submit (lit "m"))
    = Returned (r', effs)
    ∧ List.map fst (sessions r') = [100%Z; 7%Z]
    ∧ map_get 7 (sessions r') = map_get 7 (sessions r).
Proof.
  intros r.
  destruct (handle_request Examples.world0 r 1 1 (Examples.post_submit (lit "m")))
    as [[r' effs]|err] eqn:H; [|discriminate H].
  exists r', effs. split; [done|].
  destruct (request_touches_only_named_session Examples.world0 r 1 1
              (Examples.post_submit (lit "m")) r' effs H) as (H1 & _ & _ & H4).
  split; [exact H1|]. apply H4. intros s. vm_compute. congruence.
Defined.

(** *** Upgrades *)




(** *** The list of sessions *)

Lemma sort_insert_perm {A} (cmp : A → A → Z) x l : sort_insert cmp x l ≡ₚ x :: l.
Proof.
  induction l as [|y l IH]; simpl; [done|].
  destruct (0 <? cmp y x)%Z; [done|]. rewrite IH. apply Permutation_swap.
Qed.

Lemma sort_perm {A} (cmp : A → A → Z) l : sort cmp l ≡ₚ l.
Proof.
  unfold sort.
  assert (H : ∀ acc, fold_left (λ acc x, sort_insert cmp x acc) l acc ≡ₚ acc ++ l).
  { induction l as [|x l IH]; intros acc; simpl.
    - by rewrite app_nil_r.
    - rewrite IH, sort_insert_perm. simpl. apply Permutation_middle. }
  by rewrite H.
Qed.

Section Sorted.
Import SessionsList.
Variable w : world.

Lemma in_order_trans a b c :
  date_parses w a = true → date_parses w b = true → date_parses w c = true →
  in_order w a b → in_order w b c → in_order w a c.
Proof.
  unfold date_parses, in_order, compare_items.
  destruct (i_startedAt a) as [x|], (i_startedAt b) as [y|],
           (i_startedAt c) as [z|];
    try destruct (dateValue w x); try destruct (dateValue w y);
    try destruct (dateValue w z); try done; lia.
Qed.

Lemma in_order_flip a b :
  (0 < compare_items w a b)%Z → in_order w b a.
Proof.
  unfold in_order, compare_items.
  destruct (i_startedAt a) as [x|], (i_startedAt b) as [y|];
    try destruct (dateValue w x); try destruct (dateValue w y); lia.
Qed.

Lemma sort_insert_sorted x l :
  date_parses w x = true →
  Forall (λ i, date_parses w i = true) l →
  Sorted.StronglySorted (in_order w) l →
  Sorted.StronglySorted (in_order w) (sort_insert (compare_items w) x l).
Proof.
  intros Hx Hl Hs. induction Hs as [|y l Hs IH Hy]; simpl.
  - by repeat constructor.
  - inversion Hl as [|? ? Hpy Hl']; subst.
    destruct (Z.ltb_spec 0 (compare_items w y x)) as [Hlt|Hge].
    + constructor; [by constructor|].
      constructor; [by apply in_order_flip|].
      rewrite List.Forall_forall in Hy, Hl'. apply List.Forall_forall.
      intros z Hz.
      apply (in_order_trans x y z); auto. by apply in_order_flip.
    + constructor; [by apply IH|].
      apply List.Forall_forall. intros z Hz.
      apply DiscoverySpec.sort_insert_In in Hz as [->|Hz]; [exact Hge|].
      rewrite List.Forall_forall in Hy. by apply Hy.
Qed.

Lemma sort_sorted l :
  Forall (λ i, date_parses w i = true) l →
  Sorted.StronglySorted (in_order w) (sort (compare_items w) l).
Proof.
  unfold sort.
  assert (H : ∀ acc,
    Forall (λ i, date_parses w i = true) acc →
    Forall (λ i, date_parses w i = true) l →
    Sorted.StronglySorted (in_order w) acc →
    Sorted.StronglySorted (in_order w)
      (fold_left (λ acc x, sort_insert (compare_items w) x acc) l acc)).
  { induction l as [|x l IH]; intros acc Ha Hl Hs; simpl; [done|].
    inversion Hl as [|? ? Hx Hl']; subst.
    apply IH; [|done|by apply sort_insert_sorted].
    rewrite (sort_insert_perm (compare_items w) x acc). by constructor. }
  intros Hl. apply H; [constructor|done|constructor].
Qed.

End Sorted.

(** X15: the list of sessions has one item for each tracked session and
    no other; when every start time that a session has is a date that
    parses, the list is in order: sessions that started later stand
    before sessions that started earlier, and sessions without a start
    time stand last. *)
Theorem sessions_list_sorted w r :
  sessions_list w r ≡ₚ List.map session_item_of (sessions r)
  ∧ (forallb (SessionsList.date_parses w) (List.map session_item_of (sessions r))
     = true →
     Sorted.StronglySorted (SessionsList.in_order w) (sessions_list w r)).
Proof.
  split; [apply sort_perm|].
  intros H. apply sort_sorted. apply List.Forall_forall.
  by apply forallb_forall.
Qed.

Lemma sessions_list_sorted_witness :
  List.map i_pid (sessions_list SessionsList.world_dates SessionsList.relay_dated)
  = [7%Z; 100%Z; 5%Z]
  ∧ Sorted.StronglySorted (SessionsList.in_order SessionsList.world_dates)
      (sessions_list SessionsList.world_dates SessionsList.relay_dated).
Proof.
  split; [reflexivity|].
  apply (proj2 (sessions_list_sorted SessionsList.world_dates
                  SessionsList.relay_dated)).
  reflexivity.
Defined.

End HttpMore.
(** ** More on the discovery of wrappers *)

Module DiscoveryMore.
Import JS Relay Scan StringFacts MapFacts DiscoverySpec.

Lemma scan_entry_world w l acc e :
  scan_entry (with_tmpEntries w l) acc e = scan_entry w acc e.
Proof. by destruct acc. Qed.

Lemma scan_fold_world w l entries : ∀ acc,
  fold_left (scan_entry (with_tmpEntries w l)) entries acc
  = fold_left (scan_entry w) entries acc.
Proof.
  induction entries as [|e entries IH]; intros acc; simpl; [done|].
  by rewrite scan_entry_world, IH.
Qed.

(** What one entry does to the map of the wrappers found. *)
Lemma scan_entry_fst w found unlinked e :
  fst (scan_entry w (found, unlinked) e)
  = if is_socket_name e
    then match pid_of_entry e with
         | Some pid =>
             if alive w pid then map_set pid (Path.join2 (tmpDir w) e) found
             else found
         | None => found
         end
    else found.
Proof.
  unfold scan_entry, is_socket_name, pid_of_entry.
  destruct (startsWith e (lit "tm-") && endsWith e (lit ".sock")); [|done].
  destruct (parseInt (slice_neg 3 5 e)) as [pid|]; [|done].
  by destruct (alive w pid).
Qed.

Lemma scan_entry_stale w found unlinked e :
  is_stale w e = true → fst (scan_entry w (found, unlinked) e) = found.
Proof.
  rewrite scan_entry_fst. unfold is_stale, is_socket_name, pid_of_entry.
  destruct (startsWith e (lit "tm-") && endsWith e (lit ".sock")); [|done].
  destruct (parseInt (slice_neg 3 5 e)) as [pid|]; [|done].
  by destruct (alive w pid).
Qed.

Lemma scan_entry_fst_indep w found u u' e :
  fst (scan_entry w (found, u) e) = fst (scan_entry w (found, u') e).
Proof. by rewrite !scan_entry_fst. Qed.

(** The wrappers found do not depend on entries that are stale. *)
Lemma scan_fold_fst_filter w (keep : jsstring → bool) entries : ∀ found u u',
  (∀ e, keep e = false → is_stale w e = true) →
  fst (fold_left (scan_entry w) (List.filter keep entries) (found, u'))
  = fst (fold_left (scan_entry w) entries (found, u)).
Proof.
  induction entries as [|e entries IH]; intros found u u' Hk;
    cbn [fold_left List.filter]; [done|].
  destruct (keep e) eqn:He; cbn [fold_left].
  - pose proof (scan_entry_fst_indep w found u u' e) as H.
    destruct (scan_entry w (found, u) e) as [f1 u1].
    destruct (scan_entry w (found, u') e) as [f2 u2]. cbn [fst] in H. subst f2.
    by apply IH.
  - pose proof (scan_entry_stale w found u e (Hk e He)) as H.
    destruct (scan_entry w (found, u) e) as [f1 u1]. cbn [fst] in H. subst f1.
    by apply IH.
Qed.

Lemma filter_not_unlinked w (entries : list jsstring) :
  List.filter
    (λ e, negb (str_in e (List.filter (is_stale w) entries)
                && unlinkable w (Path.join2 (tmpDir w) e))) entries
  = List.filter (λ e, negb (removed w e)) entries.
Proof.
  apply filter_ext_in. intros e He. unfold removed. do 2 f_equal.
  destruct (is_stale w e) eqn:Hs.
  - apply str_in_In, filter_In. done.
  - apply not_true_is_false. intros [_ H]%str_in_In%filter_In. congruence.
Qed.

(** What a scan does to the directory. *)
Lemma scanForWrappers_spec w entries :
  tmpEntries w = Some entries →
  scanForWrappers w
  = (fst (fold_left (scan_entry w) entries ([], [])),
     List.map (λ e, Unlink (Path.join2 (tmpDir w) e))
       (List.filter (is_stale w) entries),
     with_tmpEntries w
       (Some (List.filter (λ e, negb (removed w e)) entries))).
Proof.
  intros Hd. unfold scanForWrappers. rewrite Hd.
  pose proof (scan_fold_unlinked w entries [] []) as Hu.
  destruct (fold_left (scan_entry w) entries ([], [])) as [found unlinked].
  cbn [fst snd app] in *. subst unlinked. by rewrite filter_not_unlinked.
Qed.

(** X16: a scan calls [unlinkSync] on exactly the entries of the
    directory that have the name of a wrapper socket whose pid is that of
    a dead process, each once and in the order of the directory.  The
    entries on which the call succeeds are gone afterwards; every other
    entry is still there, in the order of the directory: the stale
    sockets on which the call throws, and every entry that is not stale,
    among them every entry that is not named like a socket. *)
Theorem scan_unlinks_exactly_stale_sockets w entries :
  tmpEntries w = Some entries →
  snd (fst (scanForWrappers w))
    = List.map (λ e, Unlink (Path.join2 (tmpDir w) e))
        (List.filter (is_stale w) entries)
  ∧ tmpEntries (snd (scanForWrappers w))
    = Some (List.filter
              (λ e, negb (is_stale w e
                          && unlinkable w (Path.join2 (tmpDir w) e)))
              entries)
  ∧ ∀ e, In e entries →
         is_socket_name e = false
         ∨ is_stale w e = false
         ∨ unlinkable w (Path.join2 (tmpDir w) e) = false →
         ∃ rest, tmpEntries (snd (scanForWrappers w)) = Some rest ∧ In e rest.
Proof.
  intros Hd. rewrite (scanForWrappers_spec w entries Hd).
  cbn [fst snd tmpEntries with_tmpEntries].
  split; [done|]. split; [done|].
  intros e He Hn. eexists. split; [done|]. apply filter_In. split; [done|].
  unfold removed. destruct Hn as [Hn|[Hn|Hn]].
  - unfold is_stale. unfold is_socket_name in Hn. by rewrite Hn.
  - by rewrite Hn.
  - rewrite Hn. by rewrite andb_false_r.
Qed.

Lemma scan_unlinks_exactly_stale_sockets_witness :
  snd (fst (scanForWrappers world_sticky))
  = [Unlink (lit "/tmp/tm-7.sock"); Unlink (lit "/tmp/tm-8.sock")]
  ∧ tmpEntries (snd (scanForWrappers world_sticky))
    = Some [lit "tm-100.sock"; lit "tm-8.sock"; lit "tm-7.token";
            lit "notes.txt"].
Proof.
  destruct (scan_unlinks_exactly_stale_sockets world_sticky
              [lit "tm-100.sock"; lit "tm-7.sock"; lit "tm-8.sock";
               lit "tm-7.token"; lit "notes.txt"] eq_refl) as (H1 & H2 & _).
  split; [exact H1|exact H2].
Defined.

(** *** Every live wrapper is tracked *)

Lemma map_has_cons {V} pid k (v : V) m :
  map_has pid ((k, v) :: m) = (pid =? k)%Z || map_has pid m.
Proof. unfold map_has. simpl. by destruct (pid =? k)%Z. Qed.

Lemma scan_fold_keeps w entries : ∀ found u pid,
  map_has pid found = true →
  map_has pid (fst (fold_left (scan_entry w) entries (found, u))) = true.
Proof.
  induction entries as [|e entries IH]; intros found u pid H; cbn [fold_left];
    [done|].
  pose proof (scan_entry_fst w found u e) as Hf.
  destruct (scan_entry w (found, u) e) as [f1 u1]. cbn [fst] in Hf.
  apply IH. rewrite Hf.
  destruct (is_socket_name e); [|done].
  destruct (pid_of_entry e) as [k|]; [|done].
  destruct (alive w k); [|done].
  rewrite map_has_set, H. by rewrite orb_true_r.
Qed.

Lemma scan_fold_complete w entries : ∀ found u e pid,
  In e entries → is_socket_name e = true → pid_of_entry e = Some pid →
  alive w pid = true →
  map_has pid (fst (fold_left (scan_entry w) entries (found, u))) = true.
Proof.
  induction entries as [|e0 entries IH]; intros found u e pid Hin Hs Hp Ha;
    [done|].
  cbn [fold_left].
  pose proof (scan_entry_fst w found u e0) as Hf.
  destruct (scan_entry w (found, u) e0) as [f1 u1]. cbn [fst] in Hf.
  destruct Hin as [->|Hin]; [|by apply (IH f1 u1 e pid)].
  apply scan_fold_keeps. rewrite Hf, Hs, Hp, Ha, map_has_set, Z.eqb_refl. done.
Qed.

Lemma connect_new_complete w found : ∀ sock sessions pid,
  map_has pid found = true →
  map_has pid (fst (connect_new w sock found sessions)) = true.
Proof.
  induction found as [|[k path] found IH]; intros sock sessions pid H; [done|].
  rewrite connect_new_cons. rewrite map_has_cons in H.
  destruct (map_has k sessions) eqn:Hk.
  - destruct (Z.eqb_spec pid k) as [Heq|Hne].
    + subst k. by apply connect_new_keeps.
    + by apply IH.
  - destruct (connectToWrapper w sock (createSession w k path)) as [s effs].
    pose proof (connect_new_keeps w found (S sock) (map_set k s sessions) pid) as Hkeep.
    specialize (IH (S sock) (map_set k s sessions) pid).
    destruct (connect_new w (S sock) found (map_set k s sessions)) as [sessions' effs'].
    cbn [fst] in *.
    destruct (Z.eqb_spec pid k) as [Heq|Hne]; [|by apply IH].
    subst k. apply Hkeep. by rewrite map_has_set, Z.eqb_refl.
Qed.

Lemma connect_new_connects w found : ∀ sock sessions pid,
  map_has pid sessions = false →
  map_has pid found = true →
  ∃ path, In (CreateConnection pid path) (snd (connect_new w sock found sessions)).
Proof.
  induction found as [|[k path] found IH]; intros sock sessions pid Hs H; [done|].
  rewrite connect_new_cons. rewrite map_has_cons in H.
  destruct (map_has k sessions) eqn:Hk.
  - destruct (Z.eqb_spec pid k) as [Heq|Hne]; [congruence|]. by apply IH.
  - pose proof (ReconnectSpec.connectToWrapper_spec w sock (createSession w k path))
      as [Hc _].
    destruct (connectToWrapper w sock (createSession w k path)) as [s effs].
    specialize (IH (S sock) (map_set k s sessions) pid).
    destruct (connect_new w (S sock) found (map_set k s sessions)) as [sessions' effs'].
    cbn [fst snd] in *. subst effs.
    destruct (Z.eqb_spec pid k) as [Heq|Hne].
    + subst k. exists path. by left.
    + destruct IH as [p Hp].
      * rewrite map_has_set, Hs. by destruct (Z.eqb_spec pid k).
      * done.
      * exists p. by right.
Qed.

(** X17: after a scan, every live process whose socket is in the
    directory is tracked, and a connection is created to each one that
    was not tracked before. *)
Theorem scan_tracks_every_live_wrapper w sock r entries e pid :
  tmpEntries w = Some entries →
  In e entries →
  is_socket_name e = true →
  pid_of_entry e = Some pid →
  alive w pid = true →
  let result := discoverAndConnect w sock r in
  map_has pid (sessions (fst (fst result))) = true
  ∧ (map_has pid (sessions r) = false →
     ∃ path, In (CreateConnection pid path) (snd (fst result))).
Proof.
  intros Hd Hin Hs Hp Ha result. unfold result, discoverAndConnect.
  rewrite (scanForWrappers_spec w entries Hd).
  pose proof (scan_fold_complete w entries [] [] e pid Hin Hs Hp Ha) as Hf.
  set (found := fst (fold_left (scan_entry w) entries ([], []))) in *.
  set (w' := with_tmpEntries w _).
  pose proof (connect_new_complete w' found sock (sessions r) pid Hf) as H1.
  pose proof (connect_new_connects w' found sock (sessions r) pid) as H2.
  destruct (connect_new w' sock found (sessions r)) as [sessions' effs'].
  cbn [fst snd sessions with_sessions] in *. split; [done|].
  intros Hn. destruct (H2 Hn Hf) as [path Hpath]. exists path.
  apply in_app_iff. by right.
Qed.

Lemma scan_tracks_every_live_wrapper_witness :
  let result := discoverAndConnect world_mixed 0 Examples.relay_empty in
  map_has 100 (sessions (fst (fst result))) = true
  ∧ (map_has 100 (sessions Examples.relay_empty) = false →
     ∃ path, In (CreateConnection 100 path) (snd (fst result))).
Proof.
  apply (scan_tracks_every_live_wrapper world_mixed 0 Examples.relay_empty
           [lit "tm-100.sock"; lit "tm-7.sock"; lit "tm-7.token"; lit "notes.txt"]
           (lit "tm-100.sock") 100); try reflexivity.
  by left.
Defined.

(** *** Sessions that are tracked *)

Lemma connect_new_get w found : ∀ sock sessions pid s,
  map_get pid sessions = Some s →
  map_get pid (fst (connect_new w sock found sessions)) = Some s.
Proof.
  induction found as [|[k path] found IH]; intros sock sessions pid s H; [done|].
  rewrite connect_new_cons.
  destruct (map_has k sessions) eqn:Hk; [by apply IH|].
  destruct (connectToWrapper w sock (createSession w k path)) as [s1 effs].
  specialize (IH (S sock) (map_set k s1 sessions) pid s).
  destruct (connect_new w (S sock) found (map_set k s1 sessions)) as [sessions' effs'].
  cbn [fst] in *. apply IH. rewrite map_get_set.
  destruct (Z.eqb_spec pid k) as [Heq|Hne]; [|done].
  subst k. unfold map_has in Hk. by rewrite H in Hk.
Qed.

(** X18: a scan leaves every session that is tracked as it is, with its
    socket, its clients, its queue and its waiting polls, whether its
    process is alive or not, and creates no connection for it. *)
Theorem scan_leaves_tracked_sessions_alone w sock r pid s :
  map_get pid (sessions r) = Some s →
  let result := discoverAndConnect w sock r in
  map_get pid (sessions (fst (fst result))) = Some s
  ∧ ∀ path, ¬ In (CreateConnection pid path) (snd (fst result)).
Proof.
  intros Hg result. split.
  - unfold result, discoverAndConnect.
    destruct (scanForWrappers w) as [[found effs] w'].
    pose proof (connect_new_get w' found sock (sessions r) pid s Hg) as H.
    by destruct (connect_new w' sock found (sessions r)).
  - intros path. apply ReconnectSpec.discover_skips_tracked.
    unfold map_has. by rewrite Hg.
Qed.

Lemma scan_leaves_tracked_sessions_alone_witness :
  let result := discoverAndConnect Examples.world_dead7 0 Examples.relay_closed7 in
  map_get 7 (sessions (fst (fst result)))
  = map_get 7 (sessions Examples.relay_closed7)
  ∧ ∀ path, ¬ In (CreateConnection 7 path) (snd (fst result)).
Proof.
  intros result.
  destruct (map_get 7 (sessions Examples.relay_closed7)) as [s|] eqn:Hs;
    [|discriminate Hs].
  exact (scan_leaves_tracked_sessions_alone Examples.world_dead7 0
           Examples.relay_closed7 7 s Hs).
Defined.

(** *** A scan that follows a scan *)

Lemma connect_new_idle w found : ∀ sock sessions,
  (∀ k, map_has k found = true → map_has k sessions = true) →
  connect_new w sock found sessions = (sessions, []).
Proof.
  induction found as [|[k path] found IH]; intros sock sessions H; [done|].
  rewrite connect_new_cons.
  rewrite (H k) by (by rewrite map_has_cons, Z.eqb_refl).
  apply IH. intros k' Hk'. apply H. rewrite map_has_cons, Hk'.
  by rewrite orb_true_r.
Qed.

Lemma filter_twice {A} (P Q : A → bool) l :
  List.filter Q (List.filter P l) = List.filter (λ x, P x && Q x) l.
Proof.
  induction l as [|x l IH]; simpl; [done|].
  destruct (P x); simpl; [|done]. destruct (Q x); by rewrite IH.
Qed.

(** X19: a scan that follows a scan, with the same processes alive and
    the directory as the first scan left it, creates no connection and
    leaves the sessions and the directory as they are; it calls
    [unlinkSync] again on the stale sockets on which the call of the
    first scan threw, and on nothing else, so that it does nothing at
    all when none of the first calls threw. *)
Theorem second_scan_is_idle w sock sock' r :
  let first := discoverAndConnect w sock r in
  discoverAndConnect (snd first) sock' (fst (fst first))
  = (fst (fst first), retried w, snd first)
  ∧ ((∀ path, unlinkable w path = true) → retried w = []).
Proof.
  cbv zeta. split.
  - remember (discoverAndConnect w sock r) as D eqn:HD.
    unfold discoverAndConnect in HD. unfold retried.
    destruct (tmpEntries w) as [entries|] eqn:Hd.
    + rewrite (scanForWrappers_spec w entries Hd) in HD.
      set (found := fst (fold_left (scan_entry w) entries ([], []))) in *.
      set (kept := List.filter (λ e, negb (removed w e)) entries) in *.
      set (w1 := with_tmpEntries w (Some kept)) in *.
      pose proof (connect_new_complete w1 found sock (sessions r)) as Hc.
      destruct (connect_new w1 sock found (sessions r)) as [sessions1 effs1].
      subst D. cbn [fst snd] in *.
      unfold discoverAndConnect.
      rewrite (scanForWrappers_spec w1 kept eq_refl).
      assert (Hfound : fst (fold_left (scan_entry w1) kept ([], [])) = found).
      { unfold w1. rewrite scan_fold_world. apply scan_fold_fst_filter.
        intros e He. apply negb_false_iff in He. unfold removed in He.
        by apply andb_prop in He as [He _]. }
      change (is_stale w1) with (is_stale w).
      change (λ e, negb (removed w1 e)) with (λ e, negb (removed w e)).
      change (tmpDir w1) with (tmpDir w).
      assert (Hstale : List.filter (is_stale w) kept
                       = List.filter (unlink_failed w) entries).
      { unfold kept. rewrite filter_twice. apply filter_ext. intros e.
        unfold removed, unlink_failed.
        destruct (is_stale w e), (unlinkable w _); done. }
      assert (Hkept : List.filter (λ e, negb (removed w e)) kept = kept).
      { unfold kept. rewrite filter_twice. apply filter_ext. intros e.
        by destruct (negb (removed w e)). }
      rewrite Hfound, Hstale, Hkept.
      change (with_tmpEntries w1 (Some kept)) with w1.
      cbn [sessions with_sessions].
      rewrite (connect_new_idle w1 found sock' sessions1).
      * by rewrite app_nil_r.
      * intros k Hk. by apply Hc.
    + unfold scanForWrappers in HD. rewrite Hd in HD. cbn in HD. subst D.
      cbn [fst snd]. unfold discoverAndConnect, scanForWrappers. by rewrite Hd.
  - intros Hok. unfold retried. destruct (tmpEntries w) as [entries|]; [|done].
    assert (List.filter (unlink_failed w) entries = []) as ->; [|done].
    induction entries as [|e entries IH]; [done|]. cbn [List.filter].
    unfold unlink_failed at 1. rewrite Hok, andb_false_r. exact IH.
Qed.

Lemma second_scan_is_idle_witness :
  let first := discoverAndConnect world_sticky 0 Examples.relay_empty in
  discoverAndConnect (snd first) 1 (fst (fst first))
  = (fst (fst first), [Unlink (lit "/tmp/tm-8.sock")], snd first)
  ∧ discoverAndConnect
      (snd (discoverAndConnect world_mixed 0 Examples.relay_empty)) 1
      (fst (fst (discoverAndConnect world_mixed 0 Examples.relay_empty)))
    = (fst (fst (discoverAndConnect world_mixed 0 Examples.relay_empty)), [],
       snd (discoverAndConnect world_mixed 0 Examples.relay_empty)).
Proof.
  intros first. split.
  - exact (proj1 (second_scan_is_idle world_sticky 0 1 Examples.relay_empty)).
  - destruct (second_scan_is_idle world_mixed 0 1 Examples.relay_empty)
      as [H1 H2].
    rewrite H1, H2; reflexivity.
Defined.

End DiscoveryMore.
(** ** The data handler of a wrapper connection *)

Module RelayDataSpec.
Import JS Lines Relay RelayData LinesFacts.

Lemma indexOf_newline_app s i t :
  indexOf_newline s = Some i →
  indexOf_newline (s ++ t) = Some i
  ∧ take i (s ++ t) = take i s
  ∧ drop (i + 1) (s ++ t) = drop (i + 1) s ++ t.
Proof.
  revert i. induction s as [|c s IH]; intros i; simpl; [done|].
  destruct (N.eqb c 10); [by intros [= <-]|].
  destruct (indexOf_newline s) as [j|]; simpl; [|done].
  intros [= <-]. destruct (IH j eq_refl) as (-> & H2 & H3). simpl.
  by rewrite H2, H3.
Qed.

Lemma indexOf_newline_split s i :
  indexOf_newline s = Some i → s = take i s ++ [10%N] ++ drop (i + 1) s.
Proof.
  revert i. induction s as [|c s IH]; intros i; simpl; [done|].
  destruct (N.eqb_spec c 10) as [->|]; [by intros [= <-]|].
  destruct (indexOf_newline s) as [j|]; simpl; [|done].
  intros [= <-]. simpl. f_equal. by apply IH.
Qed.

(** [handleWrapperMessage] does not look at the line buffer. *)
Lemma handleWrapperMessage_lineBuf w b s m :
  handleWrapperMessage w (set_lineBuf b s) m
  = (set_lineBuf b (fst (handleWrapperMessage w s m)),
     snd (handleWrapperMessage w s m))
  ∧ lineBuf (fst (handleWrapperMessage w s m)) = lineBuf s.
Proof.
  destruct m as [cwd cols rows pid cmd startedAt token| | | |]; try done.
  cbn [handleWrapperMessage]. destruct token as [t|]; [|done].
  cbn [wrapperToken set_info set_lineBuf].
  by destruct (no_token (wrapperToken s)).
Qed.

Section Loop.
Variable parse : jsstring → option wrapper_msg.
Variable w : world.


Lemma data_loop_more fuel : ∀ s,
  length (lineBuf s) < fuel →
  data_loop parse w (S fuel) s = data_loop parse w fuel s.
Proof.
  induction fuel as [|fuel IH]; intros s Hlen; [lia|].
  change (data_loop parse w (S (S fuel)) s) with
    (match indexOf_newline (lineBuf s) with
     | None => (s, [])
     | Some newlineIdx =>
         let line := take newlineIdx (lineBuf s) in
         let s1 := set_lineBuf (drop (newlineIdx + 1) (lineBuf s)) s in
         if trim_is_empty line then data_loop parse w (S fuel) s1
         else
           match parse line with
           | Some msg =>
               let '(s2, effs) := handleWrapperMessage w s1 msg in
               let '(s3, effs') := data_loop parse w (S fuel) s2 in
               (s3, effs ++ effs')
           | None => data_loop parse w (S fuel) s1
           end
     end).
  change (data_loop parse w (S fuel) s) with
    (match indexOf_newline (lineBuf s) with
     | None => (s, [])
     | Some newlineIdx =>
         let line := take newlineIdx (lineBuf s) in
         let s1 := set_lineBuf (drop (newlineIdx + 1) (lineBuf s)) s in
         if trim_is_empty line then data_loop parse w fuel s1
         else
           match parse line with
           | Some msg =>
               let '(s2, effs) := handleWrapperMessage w s1 msg in
               let '(s3, effs') := data_loop parse w fuel s2 in
               (s3, effs ++ effs')
           | None => data_loop parse w fuel s1
           end
     end).
  destruct (indexOf_newline (lineBuf s)) as [i|] eqn:Hi; [|done].
  apply indexOf_newline_lt in Hi. cbv zeta.
  assert (Hs1 : length (lineBuf (set_lineBuf (drop (i + 1) (lineBuf s)) s)) < fuel).
  { cbn [lineBuf set_lineBuf]. rewrite length_drop. lia. }
  destruct (trim_is_empty _); [by apply IH|].
  destruct (parse _) as [msg|]; [|by apply IH].
  destruct (handleWrapperMessage_lineBuf w (drop (i + 1) (lineBuf s)) s msg)
    as [Heq _].
  rewrite Heq. rewrite IH; [done|].
  cbn [lineBuf set_lineBuf]. rewrite length_drop. lia.
Qed.

Lemma data_loop_enough fuel s :
  length (lineBuf s) < fuel → data_loop parse w fuel s = run_buf parse w s.
Proof.
  unfold run_buf. intros H.
  replace fuel with ((fuel - S (length (lineBuf s))) + S (length (lineBuf s))) by lia.
  induction (fuel - S (length (lineBuf s))) as [|d IH]; [done|].
  cbn [Nat.add]. rewrite data_loop_more by lia. exact IH.
Qed.

(** One round of the loop, whatever the fuel is. *)
Lemma run_buf_eq s :
  run_buf parse w s
  = match indexOf_newline (lineBuf s) with
    | None => (s, [])
    | Some newlineIdx =>
        let line := take newlineIdx (lineBuf s) in
        let s1 := set_lineBuf (drop (newlineIdx + 1) (lineBuf s)) s in
        if trim_is_empty line then run_buf parse w s1
        else
          match parse line with
          | Some msg =>
              let '(s2, effs) := handleWrapperMessage w s1 msg in
              let '(s3, effs') := run_buf parse w s2 in
              (s3, effs ++ effs')
          | None => run_buf parse w s1
          end
    end.
Proof.
  unfold run_buf at 1. cbn [data_loop].
  destruct (indexOf_newline (lineBuf s)) as [i|] eqn:Hi; [|done].
  apply indexOf_newline_lt in Hi. cbv zeta.
  assert (Hs1 : length (lineBuf (set_lineBuf (drop (i + 1) (lineBuf s)) s))
                < length (lineBuf s)).
  { cbn [lineBuf set_lineBuf]. rewrite length_drop. lia. }
  destruct (trim_is_empty _); [by apply data_loop_enough|].
  destruct (parse _) as [msg|]; [|by apply data_loop_enough].
  destruct (handleWrapperMessage_lineBuf w (drop (i + 1) (lineBuf s)) s msg)
    as [Heq _].
  rewrite Heq. rewrite data_loop_enough; [done|].
  cbn [lineBuf set_lineBuf]. rewrite length_drop. lia.
Qed.

Lemma on_data_eq chunk s :
  on_data parse w chunk s = run_buf parse w (set_lineBuf (lineBuf s ++ chunk) s).
Proof. done. Qed.

(** The loop on a buffer followed by more text is the loop on the buffer,
    followed by the loop on what it left and the text. *)
Lemma run_buf_app n : ∀ X Y s,
  length X ≤ n →
  run_buf parse w (set_lineBuf (X ++ Y) s)
  = let '(s1, e1) := run_buf parse w (set_lineBuf X s) in
    let '(s2, e2) := run_buf parse w (set_lineBuf (lineBuf s1 ++ Y) s1) in
    (s2, e1 ++ e2).
Proof.
  induction n as [|n IH]; intros X Y s Hn.
  - destruct X; [|simpl in Hn; lia].
    rewrite (run_buf_eq (set_lineBuf [] s)).
    change (run_buf parse w (set_lineBuf Y s)
            = let '(s2, e2) := run_buf parse w (set_lineBuf Y s) in (s2, [] ++ e2)).
    by destruct (run_buf parse w (set_lineBuf Y s)).
  - rewrite (run_buf_eq (set_lineBuf X s)).
    cbn [lineBuf set_lineBuf].
    destruct (indexOf_newline X) as [i|] eqn:Hi.
    + rewrite (run_buf_eq (set_lineBuf (X ++ Y) s)). cbn [lineBuf set_lineBuf].
      destruct (indexOf_newline_app X i Y Hi) as (-> & -> & ->).
      pose proof (indexOf_newline_lt X i Hi) as Hlt. cbv zeta.
      assert (Hlen : length (drop (i + 1) X) ≤ n) by (rewrite length_drop; lia).
      change (set_lineBuf (drop (i + 1) X ++ Y) (set_lineBuf (X ++ Y) s))
        with (set_lineBuf (drop (i + 1) X ++ Y) s).
      change (set_lineBuf (drop (i + 1) X) (set_lineBuf X s))
        with (set_lineBuf (drop (i + 1) X) s).
      destruct (trim_is_empty (take i X)); [by apply IH|].
      destruct (parse (take i X)) as [msg|]; [|by apply IH].
      destruct (handleWrapperMessage_lineBuf w (drop (i + 1) X ++ Y) s msg)
        as [-> _].
      destruct (handleWrapperMessage_lineBuf w (drop (i + 1) X) s msg)
        as [-> _].
      destruct (handleWrapperMessage w s msg) as [t effs]. cbn [fst snd].
      rewrite (IH (drop (i + 1) X) Y t Hlen).
      destruct (run_buf parse w (set_lineBuf (drop (i + 1) X) t)) as [s1 e1].
      destruct (run_buf parse w (set_lineBuf (lineBuf s1 ++ Y) s1)) as [s2 e2].
      by rewrite app_assoc.
    + change (run_buf parse w (set_lineBuf (X ++ Y) s)
              = let '(s2, e2) := run_buf parse w (set_lineBuf (X ++ Y) s) in (s2, [] ++ e2)).
      by destruct (run_buf parse w (set_lineBuf (X ++ Y) s)).
Qed.

(** What the loop leaves: a suffix of the buffer without a newline, cut
    off behind a newline. *)
Lemma run_buf_rest n : ∀ s,
  length (lineBuf s) ≤ n →
  indexOf_newline (lineBuf (fst (run_buf parse w s))) = None
  ∧ ∃ consumed,
      lineBuf s = consumed ++ lineBuf (fst (run_buf parse w s))
      ∧ (consumed = [] ∨ ∃ c, consumed = c ++ [10%N]).
Proof.
  induction n as [|n IH]; intros s Hn; rewrite run_buf_eq.
  - destruct (lineBuf s) eqn:Hs; [|simpl in Hn; lia]. cbn [indexOf_newline fst].
    rewrite Hs. split; [done|]. exists []. by split; [|left].
  - destruct (indexOf_newline (lineBuf s)) as [i|] eqn:Hi.
    + pose proof (indexOf_newline_lt _ i Hi) as Hlt.
      pose proof (indexOf_newline_split _ i Hi) as Hsplit. cbv zeta.
      assert (Hgen : ∀ t, lineBuf t = drop (i + 1) (lineBuf s) →
                indexOf_newline (lineBuf (fst (run_buf parse w t))) = None
                ∧ ∃ consumed,
                    lineBuf s = consumed ++ lineBuf (fst (run_buf parse w t))
                    ∧ (consumed = [] ∨ ∃ c, consumed = c ++ [10%N])).
      { intros t Ht. destruct (IH t) as (H1 & c & H2 & H3).
        { rewrite Ht, length_drop. lia. }
        split; [done|].
        exists (take i (lineBuf s) ++ [10%N] ++ c). split.
        - rewrite <- !app_assoc, <- H2, Ht. exact Hsplit.
        - right. destruct H3 as [->|[c' ->]].
          + exists (take i (lineBuf s)). by rewrite app_nil_r.
          + exists (take i (lineBuf s) ++ [10%N] ++ c'). by rewrite <- !app_assoc. }
      destruct (trim_is_empty _); [by apply Hgen|].
      destruct (parse _) as [msg|]; [|by apply Hgen].
      destruct (handleWrapperMessage_lineBuf w (drop (i + 1) (lineBuf s)) s msg)
        as [Heq Hbuf].
      rewrite Heq.
      specialize (Hgen (set_lineBuf (drop (i + 1) (lineBuf s))
                          (fst (handleWrapperMessage w s msg))) eq_refl).
      by destruct (run_buf parse w _).
    + cbn [fst]. split; [done|]. exists []. by split; [|left].
Qed.

End Loop.

(** X20: after the data handler has run, the line buffer of the session
    holds no newline: every complete line has been taken out of it, and
    what is left is the text behind the last newline. *)
Theorem data_handler_consumes_complete_lines parse w chunk s :
  let s' := fst (on_data parse w chunk s) in
  indexOf_newline (lineBuf s') = None
  ∧ ∃ consumed,
      lineBuf s ++ chunk = consumed ++ lineBuf s'
      ∧ (consumed = [] ∨ ∃ c, consumed = c ++ [10%N]).
Proof.
  intros s'. unfold s'. rewrite on_data_eq.
  exact (run_buf_rest parse w _ (set_lineBuf (lineBuf s ++ chunk) s) (le_n _)).
Qed.

Lemma on_data_app parse w a b s :
  on_data parse w (a ++ b) s
  = let '(s1, e1) := on_data parse w a s in
    let '(s2, e2) := on_data parse w b s1 in
    (s2, e1 ++ e2).
Proof.
  rewrite !on_data_eq, app_assoc.
  rewrite (run_buf_app parse w _ (lineBuf s ++ a) b s (le_n _)).
  destruct (run_buf parse w (set_lineBuf (lineBuf s ++ a) s)) as [s1 e1].
  by rewrite on_data_eq.
Qed.

(** X21: the frames that the relay handles do not depend on how the
    text of the wrapper is cut into chunks: handling the chunks one after
    the other leaves the session and has the effects of handling their
    concatenation as one chunk. *)
Theorem chunking_does_not_matter parse w chunks : ∀ s,
  indexOf_newline (lineBuf s) = None →
  data_run parse w s chunks = on_data parse w (concat chunks) s.
Proof.
  induction chunks as [|c chunks IH]; intros s Hs.
  - cbn [data_run concat]. rewrite on_data_eq, app_nil_r, run_buf_eq.
    cbn [lineBuf set_lineBuf]. rewrite Hs. by destruct s.
  - cbn [data_run concat]. rewrite on_data_app.
    pose proof (proj1 (run_buf_rest parse w _
                  (set_lineBuf (lineBuf s ++ c) s) (le_n _))) as Hc.
    rewrite <- on_data_eq in Hc.
    destruct (on_data parse w c s) as [s1 e1]. cbn [fst] in Hc.
    by rewrite (IH s1 Hc).
Qed.

Lemma chunking_does_not_matter_witness :
  let s := set_terminalClients [9] Examples.session0 in
  let chunks := [lit "exi"; lit "t 0"; [10%N]; lit "resize 100 40"; [10%N]] in
  data_run parse0 Examples.world0 s chunks
  = on_data parse0 Examples.world0 (concat chunks) s
  ∧ snd (data_run parse0 Examples.world0 s chunks)
    = [WsSend 9 (WsStatus false (Some 0%Z)); WsSend 9 (WsResize 100 40)].
Proof.
  intros s chunks. split; [|reflexivity].
  apply (chunking_does_not_matter parse0 Examples.world0 chunks s).
  reflexivity.
Defined.

End RelayDataSpec.
(** ** The wrapper side of a session *)

Module SessionSpec.
Import JS Lines Relay RelayData SessionTrace ReconnectSpec.

Section Preserved.
Variable parse : jsstring → option wrapper_msg.

(** What every handler of the wrapper side keeps and every effect of it
    satisfies is kept and satisfied by the data handler. *)
Lemma data_loop_preserves (I : session → Prop) (E : effect → Prop) w :
  (∀ b s, I s → I (set_lineBuf b s)) →
  (∀ s m, I s → I (fst (handleWrapperMessage w s m))
                 ∧ List.Forall E (snd (handleWrapperMessage w s m))) →
  ∀ fuel s, I s →
    I (fst (data_loop parse w fuel s))
    ∧ List.Forall E (snd (data_loop parse w fuel s)).
Proof.
  intros Hb Hm. induction fuel as [|fuel IH]; intros s Hs; cbn [data_loop].
  - by split; [|constructor].
  - destruct (indexOf_newline (lineBuf s)) as [i|]; [|by split; [|constructor]].
    cbv zeta. destruct (trim_is_empty _); [by apply IH, Hb|].
    destruct (parse _) as [msg|]; [|by apply IH, Hb].
    destruct (Hm (set_lineBuf (drop (i + 1) (lineBuf s)) s) msg (Hb _ _ Hs))
      as [H1 H2].
    destruct (handleWrapperMessage w _ msg) as [s2 effs]. cbn [fst snd] in *.
    destruct (IH s2 H1) as [H3 H4].
    destruct (data_loop parse w fuel s2) as [s3 effs']. cbn [fst snd] in *.
    split; [done|]. apply List.Forall_app. by split.
Qed.

Lemma session_run_preserves (I : session → Prop) (E : effect → Prop) :
  (∀ b s, I s → I (set_lineBuf b s)) →
  (∀ w s m, I s → I (fst (handleWrapperMessage w s m))
                   ∧ List.Forall E (snd (handleWrapperMessage w s m))) →
  (∀ w s e, I s → I (fst (handler_step w s e))
                   ∧ List.Forall E (snd (handler_step w s e))) →
  ∀ es s, I s →
    I (fst (session_run parse s es))
    ∧ List.Forall E (snd (session_run parse s es)).
Proof.
  intros Hb Hm Hh. induction es as [|[w e] es IH]; intros s Hs; cbn [session_run].
  - by split; [|constructor].
  - assert (H1 : I (fst (session_step parse w s e))
                 ∧ List.Forall E (snd (session_step parse w s e))).
    { destruct e as [e|chunk]; cbn [session_step]; [by apply Hh|].
      unfold on_data. apply data_loop_preserves; auto. }
    destruct (session_step parse w s e) as [s1 effs]. cbn [fst snd] in *.
    destruct H1 as [H1 H2]. destruct (IH s1 H1) as [H3 H4].
    destruct (session_run parse s1 es) as [s2 effs']. cbn [fst snd] in *.
    split; [done|]. apply List.Forall_app. by split.
Qed.

End Preserved.

Lemma broadcast_wrapper_side w s0 s m :
  terminalClients s = terminalClients s0 →
  List.Forall (wrapper_side_effect s0) (broadcastTerminalJSON w s m).
Proof.
  intros Ht. unfold broadcastTerminalJSON. apply List.Forall_forall.
  intros e (ws & <- & Hws)%in_map_iff. apply filter_In in Hws as [Hws _].
  cbn. by rewrite <- Ht.
Qed.

Lemma broadcast_binary_wrapper_side w s0 s b :
  terminalClients s = terminalClients s0 →
  List.Forall (wrapper_side_effect s0) (broadcastTerminalBinary w s b).
Proof.
  intros Ht. unfold broadcastTerminalBinary. apply List.Forall_forall.
  intros e (ws & <- & Hws)%in_map_iff. apply filter_In in Hws as [Hws _].
  cbn. by rewrite <- Ht.
Qed.

Lemma handleWrapperMessage_same w s0 s m :
  same_mailbox s0 s →
  same_mailbox s0 (fst (handleWrapperMessage w s m))
  ∧ List.Forall (wrapper_side_effect s0) (snd (handleWrapperMessage w s m)).
Proof.
  intros Hs. pose proof Hs as (H1 & H2 & H3 & H4 & H5 & H6).
  destruct m as [cwd cols rows pid cmd startedAt token|d|d|c r|code];
    cbn [handleWrapperMessage fst snd].
  - destruct token as [t|].
    + cbn [wrapperToken set_info]. destruct (no_token (wrapperToken s));
        (split; [done|by apply broadcast_wrapper_side]).
    + split; [done|by apply broadcast_wrapper_side].
  - split; [done|by apply broadcast_binary_wrapper_side].
  - split; [done|by apply broadcast_binary_wrapper_side].
  - split; [done|by apply broadcast_wrapper_side].
  - split; [done|by apply broadcast_wrapper_side].
Qed.

Lemma try_reconnect_same w s0 s :
  same_mailbox s0 s →
  same_mailbox s0 (fst (try_reconnect w s))
  ∧ List.Forall (wrapper_side_effect s0) (snd (try_reconnect w s)).
Proof.
  intros Hs. pose proof Hs as (H1 & H2 & H3 & H4 & H5 & H6).
  unfold try_reconnect.
  destruct (reconnects s <? SOCKET_RECONNECT_MAX); [|by split; [|constructor]].
  destruct (accessible w (sockPath s)); [|by split; [|constructor]].
  split; [done|]. repeat constructor. done.
Qed.

Lemma handler_step_same w s0 s e :
  same_mailbox s0 s →
  same_mailbox s0 (fst (handler_step w s e))
  ∧ List.Forall (wrapper_side_effect s0) (snd (handler_step w s e)).
Proof.
  intros Hs. pose proof Hs as (H1 & H2 & H3 & H4 & H5 & H6).
  destruct e as [| |err|sock]; cbn [handler_step].
  - unfold on_connect. split; [done|]. by apply broadcast_wrapper_side.
  - unfold on_close.
    destruct (try_reconnect_same w s0 (set_socket None (set_connected false s)))
      as [Ha Hb]; [done|].
    destruct (try_reconnect w _) as [s2 effs']. cbn [fst snd] in *.
    split; [done|]. apply List.Forall_app. split; [|done].
    by apply broadcast_wrapper_side.
  - unfold on_error. destruct (connection_failed err); [|by split; [|constructor]].
    by apply try_reconnect_same.
  - unfold connectToWrapper. cbn [fst snd]. split.
    + destruct (no_token (wrapperToken s) && truthy (sockPath s)); [|done].
      by destruct (readToken w _).
    + repeat constructor; done.
Qed.

(** X22: whatever the wrapper sends and whatever happens to the
    connection, the mailbox of the session and its sets of clients stay
    as they are, and the only effects are messages to the terminal
    clients of the session, reconnect timers of the session and
    connections to the socket of the session: no response is written, no
    timer of a poll is touched. *)
Theorem wrapper_side_keeps_mailbox parse s es :
  let result := session_run parse s es in
  messageQueue (fst result) = messageQueue s
  ∧ pollWaiters (fst result) = pollWaiters s
  ∧ terminalClients (fst result) = terminalClients s
  ∧ commentClients (fst result) = commentClients s
  ∧ List.Forall (wrapper_side_effect s) (snd result).
Proof.
  intros result.
  destruct (session_run_preserves parse (same_mailbox s) (wrapper_side_effect s))
    with (es := es) (s := s) as [(H1 & H2 & H3 & H4 & _) HE].
  - intros b t Ht. exact Ht.
  - intros w t m. apply handleWrapperMessage_same.
  - intros w t e. apply handler_step_same.
  - by repeat split.
  - by repeat split.
Qed.

(** X23: once a session has a token, it keeps it: neither a greeting of
    the wrapper that carries another token nor a reconnect that finds
    another token file changes it. *)
Theorem token_is_set_once parse s es :
  no_token (wrapperToken s) = false →
  wrapperToken (fst (session_run parse s es)) = wrapperToken s.
Proof.
  intros Ht.
  destruct (session_run_preserves parse
              (λ t, wrapperToken t = wrapperToken s) (λ _, True))
    with (es := es) (s := s) as [H _]; try done.
  - intros w t m Hm. split; [|by apply List.Forall_forall].
    destruct m as [cwd cols rows pid cmd startedAt token|d|d|c r|code]; try done.
    cbn [handleWrapperMessage fst]. destruct token as [tok|]; [|done].
    cbn [wrapperToken set_info]. rewrite Hm, Ht. done.
  - intros w t e Hm. split; [|by apply List.Forall_forall].
    destruct e as [| |err|sock]; cbn [handler_step].
    + done.
    + unfold on_close, try_reconnect.
      destruct (reconnects _ <? _); [|done]. by destruct (accessible w _).
    + unfold on_error, try_reconnect. destruct (connection_failed err); [|done].
      destruct (reconnects _ <? _); [|done]. by destruct (accessible w _).
    + unfold connectToWrapper. cbn [fst]. rewrite Hm, Ht. done.
Qed.

Lemma token_is_set_once_witness :
  let w := Examples.world0 in
  wrapperToken
    (fst (session_run parse_hello session_with_token
            [(w, Conn SockConnect); (w, Chunk (lit "hello" ++ [10%N]));
             (w, Conn SockClose); (w, Conn (TimerFired 2))]))
  = Some (lit "secret").
Proof.
  intros w.
  apply (token_is_set_once parse_hello session_with_token
           [(w, Conn SockConnect); (w, Chunk (lit "hello" ++ [10%N]));
            (w, Conn SockClose); (w, Conn (TimerFired 2))]).
  reflexivity.
Defined.

(** X24: the reconnect counter of a session never exceeds
    [SOCKET_RECONNECT_MAX], whatever happens to the connection and
    whatever the wrapper sends, and a connection that is established
    sets it back to zero. *)
Theorem reconnects_never_exceed_max parse s es :
  reconnects s ≤ SOCKET_RECONNECT_MAX →
  reconnects (fst (session_run parse s es)) ≤ SOCKET_RECONNECT_MAX
  ∧ ∀ w, reconnects
           (fst (session_run parse s (es ++ [(w, Conn SockConnect)]))) = 0.
Proof.
  intros Hs.
  assert (Hinv : ∀ es' t, reconnects t ≤ SOCKET_RECONNECT_MAX →
            reconnects (fst (session_run parse t es')) ≤ SOCKET_RECONNECT_MAX).
  { intros es' t Ht.
    destruct (session_run_preserves parse
                (λ t, reconnects t ≤ SOCKET_RECONNECT_MAX) (λ _, True))
      with (es := es') (s := t) as [H _]; try done.
    - intros w u m Hm. split; [|by apply List.Forall_forall].
      destruct m as [cwd cols rows pid cmd startedAt token|d|d|c r|code]; try done.
      cbn [handleWrapperMessage fst]. destruct token as [tok|]; [|done].
      cbn [wrapperToken set_info]. by destruct (no_token _).
    - intros w u e Hm. split; [|by apply List.Forall_forall].
      destruct e as [| |err|sock]; cbn [handler_step].
      + cbn. lia.
      + unfold on_close, try_reconnect. cbn [reconnects set_socket set_connected].
        destruct (Nat.ltb_spec (reconnects u) SOCKET_RECONNECT_MAX); [|done].
        destruct (accessible w _); [|done]. cbn. lia.
      + unfold on_error, try_reconnect. destruct (connection_failed err); [|done].
        cbn [reconnects set_socket set_connected].
        destruct (Nat.ltb_spec (reconnects u) SOCKET_RECONNECT_MAX); [|done].
        destruct (accessible w _); [|done]. cbn. lia.
      + unfold connectToWrapper. cbn [fst].
        destruct (no_token (wrapperToken u) && truthy (sockPath u)); [|done].
        by destruct (readToken w _). }
  split; [by apply Hinv|].
  intros w. clear Hs Hinv. revert s.
  induction es as [|[w' e] es IH]; intros s.
  - done.
  - cbn [app session_run]. destruct (session_step parse w' s e) as [s1 effs].
    specialize (IH s1).
    by destruct (session_run parse s1 (es ++ [(w, Conn SockConnect)])).
Qed.

Lemma reconnects_never_exceed_max_witness :
  let w := Examples.world0 in
  let es := [(w, Conn SockClose); (w, Conn (SockError ENOENT));
             (w, Conn (TimerFired 2))] in
  reconnects (fst (session_run parse0 Examples.session0 es)) = 2
  ∧ reconnects (fst (session_run parse0 Examples.session0 es))
    ≤ SOCKET_RECONNECT_MAX.
Proof.
  intros w es. split; [reflexivity|].
  apply (reconnects_never_exceed_max parse0 Examples.session0 es).
  vm_compute. lia.
Defined.

(** X25: when a connection attempt fails and its socket then closes, the
    error handler and the close handler both decide about a reconnect:
    with two attempts left and the socket file accessible, two timers
    are set and the counter goes up by two. *)
Theorem failed_attempt_counts_twice w err s :
  connection_failed err = true →
  reconnects s + 2 ≤ SOCKET_RECONNECT_MAX →
  accessible w (sockPath s) = true →
  let after_error := on_error w err s in
  let after_close := on_close w (fst after_error) in
  count_reconnects (snd after_error ++ snd after_close) = 2
  ∧ reconnects (fst after_close) = reconnects s + 2.
Proof.
  intros He Hr Ha after_error after_close.
  unfold after_close, after_error, on_close, on_error, try_reconnect.
  rewrite He. cbn [reconnects set_socket set_connected sockPath].
  destruct (Nat.ltb_spec (reconnects s) SOCKET_RECONNECT_MAX) as [_|H]; [|lia].
  rewrite Ha. cbn [fst snd reconnects set_reconnects set_socket set_connected sockPath].
  destruct (Nat.ltb_spec (S (reconnects s)) SOCKET_RECONNECT_MAX) as [_|H]; [|lia].
  rewrite Ha. cbn [fst snd reconnects set_reconnects].
  split; [|lia].
  rewrite !count_reconnects_app.
  destruct (broadcast_counts w
              (set_socket None (set_connected false
                 (set_reconnects (S (reconnects s))
                    (set_socket None (set_connected false s)))))
              (WsStatus false None)) as [-> _].
  reflexivity.
Qed.

Lemma failed_attempt_counts_twice_witness :
  let w := Examples.world0 in
  let after_error := on_error w ECONNREFUSED Examples.session0 in
  let after_close := on_close w (fst after_error) in
  count_reconnects (snd after_error ++ snd after_close) = 2
  ∧ reconnects (fst after_close) = 2.
Proof.
  intros w.
  apply (failed_attempt_counts_twice w ECONNREFUSED Examples.session0).
  - reflexivity.
  - vm_compute. lia.
  - reflexivity.
Defined.

End SessionSpec.
(** ** [readBody] *)

Module ReadBodySpec.
Import JS Relay ReadBody.

Lemma settled_stays es : ∀ r, settled r = true → fold_left body_step es r = r.
Proof.
  induction es as [|e es IH]; intros r Hr; cbn [fold_left]; [done|].
  assert (body_step r e = r) as ->; [|by apply IH].
  destruct e; cbn [body_step]; unfold on_body_data, on_body_end, on_body_error;
    by rewrite Hr.
Qed.

Lemma body_data_within c r :
  settled r = false →
  totalBytes r + length c ≤ MAX_BODY_BYTES →
  on_body_data c r
  = {| chunks := chunks r ++ [c]; totalBytes := totalBytes r + length c;
       settled := false; result := result r; destroyed := destroyed r |}.
Proof.
  intros Hs Hle. unfold on_body_data. rewrite Hs.
  destruct (Nat.ltb_spec MAX_BODY_BYTES (totalBytes r + length c)) as [H|_]; [lia|].
  reflexivity.
Qed.

Lemma body_data_over c r :
  settled r = false →
  MAX_BODY_BYTES < totalBytes r + length c →
  on_body_data c r
  = {| chunks := chunks r; totalBytes := totalBytes r + length c;
       settled := true;
       result := Some (Rejected (lit "Request body too large"));
       destroyed := true |}.
Proof.
  intros Hs Hlt. unfold on_body_data. rewrite Hs.
  destruct (Nat.ltb_spec MAX_BODY_BYTES (totalBytes r + length c)) as [_|H]; [|lia].
  reflexivity.
Qed.

(** Data within the limit is kept. *)
Lemma data_within cs : ∀ r,
  settled r = false →
  totalBytes r + length (concat cs) ≤ MAX_BODY_BYTES →
  let r' := fold_left body_step (List.map BodyData cs) r in
  chunks r' = chunks r ++ cs
  ∧ totalBytes r' = totalBytes r + length (concat cs)
  ∧ settled r' = false.
Proof.
  induction cs as [|c cs IH]; intros r Hs Hle; cbn [List.map fold_left concat].
  - cbn [length]. by rewrite app_nil_r, Nat.add_0_r.
  - cbn [concat] in Hle. rewrite length_app in Hle. cbn [body_step].
    rewrite body_data_within by (done || lia).
    destruct (IH {| chunks := chunks r ++ [c];
                    totalBytes := totalBytes r + length c;
                    settled := false; result := result r;
                    destroyed := destroyed r |}) as (H1 & H2 & H3).
    { done. }
    { cbn [totalBytes]. lia. }
    cbn [chunks totalBytes] in H1, H2.
    rewrite H1, H2, H3, length_app, <- app_assoc. split; [done|]. split; [lia|done].
Qed.

(** Data over the limit is refused at the chunk that exceeds it,
    whatever follows. *)
Lemma data_over cs : ∀ r rest,
  settled r = false →
  MAX_BODY_BYTES < totalBytes r + length (concat cs) →
  totalBytes r ≤ MAX_BODY_BYTES →
  let r' := fold_left body_step (List.map BodyData cs ++ rest) r in
  result r' = Some (Rejected (lit "Request body too large"))
  ∧ destroyed r' = true.
Proof.
  induction cs as [|c cs IH]; intros r rest Hs Hlt Hle.
  - cbn [concat length] in Hlt. lia.
  - cbn [List.map app fold_left body_step concat] in *. rewrite length_app in Hlt.
    destruct (Nat.le_gt_cases (totalBytes r + length c) MAX_BODY_BYTES) as [H|H].
    + rewrite body_data_within by done. apply IH; cbn [settled totalBytes]; [done|lia|done].
    + rewrite body_data_over by done. by rewrite settled_stays.
Qed.

(** What holds of every reader: the bytes it holds are within the limit,
    and it is settled exactly when the promise is. *)
Lemma reader_inv es :
  let r := readBody es in
  length (concat (chunks r)) ≤ MAX_BODY_BYTES
  ∧ (settled r = false → totalBytes r = length (concat (chunks r))
                        ∧ result r = None)
  ∧ (settled r = true → result r ≠ None).
Proof.
  unfold readBody.
  assert (H : ∀ r,
    length (concat (chunks r)) ≤ MAX_BODY_BYTES
    ∧ (settled r = false → totalBytes r = length (concat (chunks r))
                          ∧ result r = None)
    ∧ (settled r = true → result r ≠ None) →
    length (concat (chunks (fold_left body_step es r))) ≤ MAX_BODY_BYTES
    ∧ (settled (fold_left body_step es r) = false →
       totalBytes (fold_left body_step es r)
       = length (concat (chunks (fold_left body_step es r)))
       ∧ result (fold_left body_step es r) = None)
    ∧ (settled (fold_left body_step es r) = true →
       result (fold_left body_step es r) ≠ None)).
  { induction es as [|e es IH]; intros r Hr; cbn [fold_left]; [done|].
    apply IH. destruct Hr as (H1 & H2 & H3).
    destruct (settled r) eqn:Hs.
    - assert (body_step r e = r) as ->; [|by rewrite Hs].
      destruct e; cbn [body_step];
        unfold on_body_data, on_body_end, on_body_error; by rewrite Hs.
    - destruct (H2 eq_refl) as [Ht Hn].
      destruct e as [c| |err]; cbn [body_step].
      + destruct (Nat.le_gt_cases (totalBytes r + length c) MAX_BODY_BYTES) as [H|H].
        * rewrite body_data_within by done. cbn [chunks totalBytes settled result].
          rewrite concat_app, length_app. cbn [concat]. rewrite app_nil_r.
          repeat split; try done; lia.
        * rewrite body_data_over by done. cbn [chunks totalBytes settled result].
          repeat split; done.
      + unfold on_body_end. rewrite Hs. cbn [chunks totalBytes settled result].
        repeat split; done.
      + unfold on_body_error. rewrite Hs. cbn [chunks totalBytes settled result].
        repeat split; done. }
  apply H. cbn [new_reader chunks settled totalBytes result concat length].
  repeat split; try done. lia.
Qed.

(** X26: [readBody] resolves with all the bytes of a body that is not
    longer than [MAX_BODY_BYTES], in the order of the chunks, when the
    request ends; it rejects a body that is longer at the chunk that
    exceeds the limit, and destroys the request, whatever follows; and
    the bytes that it holds are never more than the limit. *)
Theorem read_body_within_limit cs rest :
  (length (concat cs) ≤ MAX_BODY_BYTES →
   result (readBody (List.map BodyData cs ++ BodyEnd :: rest))
   = Some (Resolved (concat cs)))
  ∧ (MAX_BODY_BYTES < length (concat cs) →
     result (readBody (List.map BodyData cs ++ rest))
     = Some (Rejected (lit "Request body too large"))
     ∧ destroyed (readBody (List.map BodyData cs ++ rest)) = true)
  ∧ ∀ es, length (concat (chunks (readBody es))) ≤ MAX_BODY_BYTES.
Proof.
  split; [|split].
  - intros Hle. unfold readBody. rewrite fold_left_app.
    destruct (data_within cs new_reader eq_refl Hle) as (H1 & H2 & H3).
    cbn [fold_left body_step]. unfold on_body_end at 1. rewrite H3.
    rewrite settled_stays by done. cbn [result]. by rewrite H1.
  - intros Hlt. apply (data_over cs new_reader rest eq_refl Hlt).
    cbn [new_reader totalBytes]. lia.
  - intros es. apply (reader_inv es).
Qed.

Lemma read_body_within_limit_witness :
  result (readBody [BodyData (lit "ab"); BodyData (lit "c"); BodyEnd;
                    BodyData (lit "late")])
  = Some (Resolved (lit "abc")).
Proof.
  apply (proj1 (read_body_within_limit [lit "ab"; lit "c"]
                  [BodyData (lit "late")])).
  cbn [concat app lit length List.map String.list_ascii_of_string].
  unfold MAX_BODY_BYTES. lia.
Defined.

(** X27: the promise of [readBody] is settled once: after the request
    has ended, failed or exceeded the limit, no event changes the
    outcome or what the reader holds. *)
Theorem read_body_settles_once es es' :
  result (readBody es) ≠ None →
  readBody (es ++ es') = readBody es.
Proof.
  intros Hr. unfold readBody. rewrite fold_left_app.
  apply settled_stays. destruct (reader_inv es) as (_ & H2 & _).
  fold (readBody es). destruct (settled (readBody es)); [done|].
  by destruct (H2 eq_refl).
Qed.

Lemma read_body_settles_once_witness :
  readBody ([BodyData (lit "ab"); BodyError (lit "aborted")]
            ++ [BodyData (lit "c"); BodyEnd])
  = readBody [BodyData (lit "ab"); BodyError (lit "aborted")].
Proof.
  apply (read_body_settles_once [BodyData (lit "ab"); BodyError (lit "aborted")]
           [BodyData (lit "c"); BodyEnd]).
  vm_compute. discriminate.
Defined.

End ReadBodySpec.
(** ** [cleanup] of the relay *)

Module ShutdownSpec.
Import JS Relay MailboxTrace Shutdown.

Lemma effects_of_app a b : effects_of (a ++ b) = effects_of a ++ effects_of b.
Proof. unfold effects_of. by rewrite flat_map_app. Qed.

Lemma responses_app a b : responses (a ++ b) = responses a ++ responses b.
Proof. unfold responses. by rewrite flat_map_app. Qed.

Lemma cleared_of_app a b : cleared (a ++ b) = cleared a ++ cleared b.
Proof. unfold cleared. by rewrite flat_map_app. Qed.

Lemma shutdown_to_silent w l :
  responses (effects_of (shutdown_to w l)) = []
  ∧ cleared (effects_of (shutdown_to w l)) = [].
Proof.
  unfold shutdown_to. induction (List.filter (wsOpen w) l); simpl; done.
Qed.

Lemma close_all_silent l : effects_of (close_all l) = [].
Proof. unfold close_all. induction l; simpl; done. Qed.

Lemma flush_polls_spec ws :
  responses (effects_of (flush_polls ws))
  = List.map (λ wt, (res wt, json 200 JsonDone)) ws
  ∧ cleared (effects_of (flush_polls ws)) = List.map timer ws.
Proof.
  induction ws as [|wt ws [IH1 IH2]]; [done|].
  cbn [flush_polls effects_of flat_map app responses cleared List.map].
  fold (effects_of (flush_polls ws)).
  fold (responses (effects_of (flush_polls ws))).
  fold (cleared (effects_of (flush_polls ws))).
  by rewrite IH1, IH2.
Qed.

Lemma cleanup_session_spec w kv :
  responses (effects_of (snd (cleanup_session w kv)))
  = List.map (λ wt, (res wt, json 200 JsonDone)) (pollWaiters (snd kv))
  ∧ cleared (effects_of (snd (cleanup_session w kv)))
    = List.map timer (pollWaiters (snd kv)).
Proof.
  unfold cleanup_session. cbn [snd].
  rewrite !effects_of_app, !close_all_silent, !responses_app, !cleared_of_app.
  destruct (shutdown_to_silent w (terminalClients (snd kv))) as [-> ->].
  destruct (shutdown_to_silent w (commentClients (snd kv))) as [-> ->].
  destruct (flush_polls_spec (pollWaiters (snd kv))) as [-> ->].
  cbn [app responses cleared flat_map].
  destruct (socket (snd kv)); cbn; by rewrite !app_nil_r.
Qed.

Lemma cleanup_sessions_spec w l :
  responses (effects_of (snd (cleanup_sessions w l)))
  = List.map (λ wt, (res wt, json 200 JsonDone))
      (flat_map (λ kv, pollWaiters (snd kv)) l)
  ∧ cleared (effects_of (snd (cleanup_sessions w l)))
    = List.map timer (flat_map (λ kv, pollWaiters (snd kv)) l)
  ∧ flat_map (λ kv, pollWaiters (snd kv)) (fst (cleanup_sessions w l)) = []
  ∧ List.map fst (fst (cleanup_sessions w l)) = List.map fst l
  ∧ List.map (λ kv, messageQueue (snd kv)) (fst (cleanup_sessions w l))
    = List.map (λ kv, messageQueue (snd kv)) l.
Proof.
  induction l as [|kv l (IH1 & IH2 & IH3 & IH4 & IH5)]; [done|].
  cbn [cleanup_sessions flat_map].
  destruct (cleanup_session_spec w kv) as [H1 H2].
  assert (H3 : pollWaiters (snd (fst (cleanup_session w kv))) = []) by done.
  assert (H4 : fst (fst (cleanup_session w kv)) = fst kv) by done.
  assert (H5 : messageQueue (snd (fst (cleanup_session w kv)))
               = messageQueue (snd kv)) by done.
  destruct (cleanup_session w kv) as [kv' acts].
  destruct (cleanup_sessions w l) as [rest' acts']. cbn [fst snd] in *.
  rewrite effects_of_app, responses_app, cleared_of_app, !List.map_app.
  cbn [flat_map List.map]. rewrite H1, H2, H3, H4, H5, IH1, IH2, IH3, IH4, IH5.
  done.
Qed.

(** X28: [cleanup] answers every poll that waits on any session, each
    once, with 200 and the fixed body that says the relay is done, and
    clears its timer; afterwards no poll waits, the sessions and the
    entries queued for them are as before, and a second [cleanup]
    answers nobody. *)
Theorem cleanup_answers_every_waiting_poll w scanTimer r exitCode :
  let '(r', scanTimer', acts) := cleanup w scanTimer r exitCode in
  responses (effects_of acts)
  = List.map (λ wt, (res wt, json 200 JsonDone)) (all_waiters r)
  ∧ cleared (effects_of acts) = List.map timer (all_waiters r)
  ∧ all_waiters r' = []
  ∧ List.map fst (sessions r') = List.map fst (sessions r)
  ∧ List.map (λ kv, messageQueue (snd kv)) (sessions r')
    = List.map (λ kv, messageQueue (snd kv)) (sessions r)
  ∧ ∀ w' exitCode',
      responses (effects_of (snd (cleanup w' scanTimer' r' exitCode'))) = [].
Proof.
  unfold cleanup, all_waiters.
  destruct (cleanup_sessions_spec w (sessions r)) as (H1 & H2 & H3 & H4 & H5).
  destruct (cleanup_sessions w (sessions r)) as [sessions' acts].
  cbn [fst snd sessions with_sessions] in *.
  rewrite !effects_of_app, !responses_app, !cleared_of_app, H1, H2.
  repeat split; try done.
  - destruct scanTimer; cbn; by rewrite app_nil_r.
  - destruct scanTimer; cbn; by rewrite app_nil_r.
  - intros w' exitCode'.
    destruct (cleanup_sessions_spec w' sessions') as (H6 & _).
    destruct (cleanup_sessions w' sessions') as [sessions'' acts''].
    cbn [fst snd] in *.
    rewrite !effects_of_app, !responses_app, H6, H3. done.
Qed.

Lemma cleanup_answers_every_waiting_poll_witness :
  let result := cleanup Examples.world0 true relay_waiting 0 in
  responses (effects_of (snd result))
  = [(1, json 200 JsonDone); (2, json 200 JsonDone); (3, json 200 JsonDone)]
  ∧ cleared (effects_of (snd result)) = [11; 12; 13].
Proof.
  intros result.
  pose proof (cleanup_answers_every_waiting_poll Examples.world0 true
                relay_waiting 0) as H.
  fold result in H. destruct result as [[r' scanTimer'] acts].
  destruct H as (H1 & H2 & _). cbn [snd]. by rewrite H1, H2.
Defined.

End ShutdownSpec.
(** ** The data handler of a socket client *)

Module WrapperInputSpec.
Import JS Lines Wrapper WrapperInput LinesFacts.

Lemma split_lines_none s : indexOf_newline s = None → split_lines s = ([], s).
Proof.
  induction s as [|c s IH]; cbn [indexOf_newline split_lines]; [done|].
  destruct (N.eqb c 10); [done|].
  destruct (indexOf_newline s); [done|]. intros _. by rewrite IH.
Qed.

Lemma split_lines_some s i :
  indexOf_newline s = Some i →
  split_lines s
  = (take i s :: fst (split_lines (drop (i + 1) s)),
     snd (split_lines (drop (i + 1) s))).
Proof.
  revert i. induction s as [|c s IH]; intros i;
    cbn [indexOf_newline split_lines]; [done|].
  destruct (N.eqb c 10).
  - intros [= <-]. cbn [firstn skipn Nat.add]. rewrite drop_0.
    by destruct (split_lines s).
  - destruct (indexOf_newline s) as [j|]; [|done]. intros [= <-].
    rewrite (IH j eq_refl). cbn [firstn skipn Nat.add]. done.
Qed.

Lemma split_lines_app a b :
  split_lines (a ++ b)
  = (fst (split_lines a) ++ fst (split_lines (snd (split_lines a) ++ b)),
     snd (split_lines (snd (split_lines a) ++ b))).
Proof.
  induction a as [|c a IH]; cbn [app split_lines fst snd].
  - by destruct (split_lines b).
  - rewrite IH. destruct (split_lines a) as [la ta]. cbn [fst snd].
    destruct (N.eqb c 10) eqn:Hc; cbn [fst snd app].
    + done.
    + destruct la as [|l la]; cbn [fst snd app split_lines].
      * rewrite Hc. by destruct (split_lines (ta ++ b)) as [[|l lb] tb].
      * done.
Qed.


Lemma split_lines_tail s : indexOf_newline (snd (split_lines s)) = None.
Proof.
  induction s as [|c s IH]; cbn [split_lines]; [done|].
  destruct (split_lines s) as [ls tl]. cbn [snd] in IH.
  destruct (N.eqb c 10) eqn:Hc; [done|].
  destruct ls; cbn [snd indexOf_newline]; [|done]. by rewrite Hc, IH.
Qed.

Section Loop.
Variable parse : jsstring → option client_msg.

(** The loop handles the complete lines of the buffer in order and
    leaves what follows the last newline. *)
Lemma client_loop_spec fuel : ∀ buf st,
  length buf < fuel →
  client_loop parse fuel buf st
  = (snd (split_lines buf),
     fold_left (λ st l, client_line parse l st) (fst (split_lines buf)) st).
Proof.
  induction fuel as [|fuel IH]; intros buf st Hlen; [lia|].
  cbn [client_loop].
  destruct (indexOf_newline buf) as [i|] eqn:Hi.
  - rewrite (split_lines_some buf i Hi). cbn [fst snd fold_left].
    pose proof (indexOf_newline_lt buf i Hi) as Hlt.
    assert (Hd : length (drop (i + 1) buf) < fuel) by (rewrite length_drop; lia).
    cbv zeta. unfold client_line at 2.
    destruct (trim_is_empty (take i buf)); [by apply IH|].
    destruct (parse (take i buf)); by apply IH.
  - by rewrite (split_lines_none buf Hi).
Qed.

Lemma on_client_data_spec chunk buf st :
  on_client_data parse chunk buf st
  = (snd (split_lines (buf ++ chunk)),
     fold_left (λ st l, client_line parse l st)
       (fst (split_lines (buf ++ chunk))) st).
Proof. unfold on_client_data. apply client_loop_spec. lia. Qed.

Lemma client_run_spec chunks : ∀ buf st,
  indexOf_newline buf = None →
  client_run parse buf st chunks
  = (snd (split_lines (buf ++ concat chunks)),
     fold_left (λ st l, client_line parse l st)
       (fst (split_lines (buf ++ concat chunks))) st).
Proof.
  induction chunks as [|c chunks IH]; intros buf st Hb; cbn [client_run concat].
  - by rewrite app_nil_r, (split_lines_none buf Hb).
  - rewrite on_client_data_spec, IH by apply split_lines_tail.
    rewrite app_assoc, (split_lines_app (buf ++ c) (concat chunks)).
    cbn [fst snd]. by rewrite fold_left_app.
Qed.

(** The handling of lines changes the input of the PTY only. *)
Lemma client_lines_spec ls : ∀ st,
  let st' := fold_left (λ st l, client_line parse l st) ls st in
  ptyInput st'
  = ptyInput st ++ match ptyProcess st with
                   | Some _ => flat_map (input_of parse) ls
                   | None => []
                   end
  ∧ ptyProcess st' = ptyProcess st
  ∧ sent st' = sent st
  ∧ socketClients st' = socketClients st
  ∧ ringBuffer st' = ringBuffer st
  ∧ files st' = files st
  ∧ stdout st' = stdout st.
Proof.
  induction ls as [|l ls IH]; intros st; cbn [fold_left flat_map].
  - destruct (ptyProcess st); by rewrite app_nil_r.
  - destruct (IH (client_line parse l st)) as (H1 & H2 & H3 & H4 & H5 & H6 & H7).
    cbv zeta. rewrite H1, H2, H3, H4, H5, H6, H7. clear.
    unfold client_line, input_of.
    destruct (trim_is_empty l); [by destruct (ptyProcess st)|].
    destruct (parse l) as [[data|]|]; cbn [handleClientMessage];
      try by destruct (ptyProcess st).
    unfold on_input. destruct (ptyProcess st) eqn:Hp; rewrite ?Hp; [|done].
    destruct (truthy data); cbn [ptyInput ptyProcess sent socketClients
                                 ringBuffer files stdout];
      rewrite ?Hp, <- ?app_assoc; done.
Qed.

End Loop.

(** X29: whatever a client sends, and however its text is cut into
    chunks, the PTY is written the data of the input messages among the
    complete lines, in their order, when there is a PTY, and nothing
    otherwise; the text behind the last newline is kept for later, and
    nothing else changes: no frame is sent, and the clients, the ring
    buffer, the files and the local output stay as they are. *)
Theorem client_input_reaches_pty parse chunks st :
  let text := concat chunks in
  let result := client_run parse [] st chunks in
  fst result = snd (split_lines text)
  ∧ ptyInput (snd result)
    = ptyInput st ++ match ptyProcess st with
                     | Some _ => flat_map (input_of parse) (fst (split_lines text))
                     | None => []
                     end
  ∧ sent (snd result) = sent st
  ∧ socketClients (snd result) = socketClients st
  ∧ ringBuffer (snd result) = ringBuffer st
  ∧ files (snd result) = files st
  ∧ stdout (snd result) = stdout st.
Proof.
  intros text result. unfold result, text.
  rewrite client_run_spec by done. cbn [fst snd app].
  destruct (client_lines_spec parse (fst (split_lines (concat chunks))) st)
    as (H1 & H2 & H3 & H4 & H5 & H6 & H7).
  done.
Qed.

Lemma client_input_reaches_pty_witness :
  let st := main Examples.process0 true [] in
  let chunks := [lit "ia"; lit "b" ++ [10%N] ++ lit "ix" ++ [10%N; 10%N];
                 lit "iy"] in
  let result := client_run parse_i [] st chunks in
  fst result = lit "iy" ∧ ptyInput (snd result) = [lit "ab"; lit "x"].
Proof.
  intros st chunks result.
  destruct (client_input_reaches_pty parse_i chunks st) as (H1 & H2 & _).
  fold result in H1, H2. by rewrite H1, H2.
Defined.

End WrapperInputSpec.
(** ** The session list *)

Module TmListSpec.
Import JS Lines TmList LinesFacts.

Lemma unresolved_insert_resolved (l : list probe) : ∀ i p p',
  l !! i = Some p → resolved p = false → resolved p' = true →
  S (length (List.filter (λ p, negb (resolved p)) (<[i := p']> l)))
  = length (List.filter (λ p, negb (resolved p)) l).
Proof.
  induction l as [|q l IH]; intros i p p' Hl Hp Hp'; [done|].
  destruct i as [|i]; cbn [lookup list_lookup] in Hl.
  - injection Hl as ->. cbn [insert list_insert List.filter]. by rewrite Hp, Hp'.
  - cbn [insert list_insert List.filter].
    destruct (negb (resolved q)); cbn [length]; by rewrite <- (IH i p p').
Qed.

Lemma unresolved_insert_same (l : list probe) : ∀ i p p',
  l !! i = Some p → resolved p' = resolved p →
  length (List.filter (λ p, negb (resolved p)) (<[i := p']> l))
  = length (List.filter (λ p, negb (resolved p)) l).
Proof.
  induction l as [|q l IH]; intros i p p' Hl Hp; [done|].
  destruct i as [|i]; cbn [lookup list_lookup] in Hl.
  - injection Hl as ->. cbn [insert list_insert List.filter]. rewrite Hp.
    by destruct (negb (resolved p)).
  - cbn [insert list_insert List.filter].
    destruct (negb (resolved q)); cbn [length]; [f_equal|]; by apply (IH i p p').
Qed.

Lemma all_resolved (l : list probe) i p :
  length (List.filter (λ p, negb (resolved p)) l) = 0 →
  l !! i = Some p → resolved p = true.
Proof.
  revert i. induction l as [|q l IH]; intros i Hz Hl; [done|].
  cbn [List.filter] in Hz. destruct (resolved q) eqn:Hq; cbn [negb length] in Hz.
  - destruct i as [|i]; cbn [lookup list_lookup] in Hl; [congruence|eauto].
  - discriminate Hz.
Qed.

(** [done] after the last but [u] connections are resolved. *)
Lemma done_accounted e st u :
  unresolved st = u →
  pending st = Z.of_nat (S u) →
  logged st = [] → unlinked st = [] →
  accounted e (done e st).
Proof.
  intros Hu Hp Hl Hk. unfold done. rewrite Hp.
  replace (Z.of_nat (S u) - 1)%Z with (Z.of_nat u) by lia.
  destruct (Z.ltb_spec 0 (Z.of_nat u)) as [H|H]; unfold accounted, unresolved in *;
    cbn [pending probes logged unlinked entries stale]; rewrite Hu.
  - split; [done|]. split; [done|]. intros ->. simpl in H. lia.
  - split; [done|]. split; [intros; lia|]. intros _. by rewrite Hl, Hk.
Qed.

(** A handler that resolves the connection [i] and calls [done]. *)
Lemma resolve_accounted e st i p p' (change : state → state) :
  accounted e st →
  probes st !! i = Some p → resolved p = false → resolved p' = true →
  (∀ t, probes (change t) = probes t ∧ pending (change t) = pending t
        ∧ logged (change t) = logged t ∧ unlinked (change t) = unlinked t) →
  accounted e (done e (change (set_probe i p' st))).
Proof.
  intros (Hp & Hpos & _) Hi Hr Hr' Hc.
  destruct (Hc (set_probe i p' st)) as (C1 & C2 & C3 & C4).
  pose proof (unresolved_insert_resolved (probes st) i p p' Hi Hr Hr') as Hn.
  fold (unresolved st) in Hn.
  destruct Hpos as [Hl Hk]; [lia|].
  apply (done_accounted e _
           (length (List.filter (λ p, negb (resolved p)) (<[i := p']> (probes st))))).
  - unfold unresolved. by rewrite C1.
  - rewrite C2. cbn [pending set_probe with_probes]. rewrite Hp. lia.
  - by rewrite C3.
  - by rewrite C4.
Qed.

Lemma set_probe_same_accounted e st i p p' :
  accounted e st →
  probes st !! i = Some p → resolved p' = resolved p →
  accounted e (set_probe i p' st).
Proof.
  intros (Hp & Hpos & Hz) Hi Hr. unfold accounted, unresolved in *.
  cbn [set_probe with_probes pending probes logged unlinked entries stale].
  by rewrite (unresolved_insert_same (probes st) i p p' Hi Hr).
Qed.

Section Handlers.
Variable parse : jsstring → option hello_msg.
Variable e : env.

Lemma data_loop_accounted i fuel : ∀ p st p0,
  accounted e st →
  probes st !! i = Some p0 → resolved p0 = false → resolved p = false →
  accounted e (data_loop parse e i fuel p st).
Proof.
  induction fuel as [|fuel IH]; intros p st p0 Ha Hi H0 Hp; cbn [data_loop].
  - by apply (set_probe_same_accounted e st i p0 p); [| |rewrite Hp, H0].
  - destruct (indexOf_newline (lineBuf p)) as [idx|].
    + cbv zeta. destruct (trim_is_empty _); [by apply (IH _ _ p0)|].
      destruct (parse _) as [msg|]; [|by apply (IH _ _ p0)].
      by apply (resolve_accounted e st i p0 _ (push_entry _)).
    + by apply (set_probe_same_accounted e st i p0 p); [| |rewrite Hp, H0].
Qed.

Lemma step_accounted st ev :
  accounted e st → accounted e (step parse e st ev).
Proof.
  intros Ha. destruct ev as [i|i chunk|i|i]; cbn [step].
  - unfold on_timeout. destruct (probes st !! i) as [p|] eqn:Hi; [|done].
    destruct (resolved p) eqn:Hr; [done|].
    by apply (resolve_accounted e st i p _ (push_entry _)).
  - unfold on_data. destruct (probes st !! i) as [p|] eqn:Hi; [|done].
    destruct (resolved p) eqn:Hr; [done|]. cbv zeta.
    by apply (data_loop_accounted i _ _ st p).
  - unfold on_error. destruct (probes st !! i) as [p|] eqn:Hi; [|done].
    destruct (resolved p) eqn:Hr; [done|].
    by apply (resolve_accounted e st i p _ (push_stale _)).
  - unfold on_close. destruct (probes st !! i) as [p|] eqn:Hi; [|done].
    destruct (resolved p) eqn:Hr; [done|].
    by apply (resolve_accounted e st i p _ (λ t, t)).
Qed.

Lemma run_accounted evs : ∀ st,
  accounted e st → accounted e (run parse e st evs).
Proof.
  induction evs as [|ev evs IH]; intros st Ha; [done|].
  apply IH. by apply step_accounted.
Qed.

(** Once every connection is resolved, no event does anything. *)
Lemma step_idle st ev : unresolved st = 0 → step parse e st ev = st.
Proof.
  intros Hz.
  destruct ev as [i|i chunk|i|i]; cbn [step];
    unfold on_timeout, on_data, on_error, on_close;
    (destruct (probes st !! i) as [p|] eqn:Hi; [|done]);
    by rewrite (all_resolved (probes st) i p Hz Hi).
Qed.

Lemma run_idle evs : ∀ st, unresolved st = 0 → run parse e st evs = st.
Proof.
  induction evs as [|ev evs IH]; intros st Hz; [done|].
  unfold run. cbn [fold_left]. rewrite step_idle by done. by apply IH.
Qed.

(** *** What is taken for stale *)

Lemma done_keeps st :
  probes (done e st) = probes st ∧ stale (done e st) = stale st.
Proof. unfold done. by destruct (0 <? pending st - 1)%Z. Qed.

Lemma sockPath_insert (l : list probe) i p p' :
  l !! i = Some p → sockPath p' = sockPath p →
  sockPath <$> <[i := p']> l = sockPath <$> l.
Proof.
  intros Hi Hs. rewrite list_fmap_insert, Hs.
  apply list_insert_id. by rewrite list_lookup_fmap, Hi.
Qed.

Lemma data_loop_stale i fuel : ∀ p st p0,
  probes st !! i = Some p0 → sockPath p = sockPath p0 →
  sockPath <$> probes (data_loop parse e i fuel p st) = sockPath <$> probes st
  ∧ stale (data_loop parse e i fuel p st) = stale st.
Proof.
  induction fuel as [|fuel IH]; intros p st p0 Hi Hs; cbn [data_loop].
  - split; [|done]. exact (sockPath_insert _ i p0 p Hi Hs).
  - destruct (indexOf_newline (lineBuf p)) as [idx|].
    + cbv zeta. destruct (trim_is_empty _); [by apply (IH _ _ p0)|].
      destruct (parse _) as [msg|]; [|by apply (IH _ _ p0)].
      destruct (done_keeps
                  (push_entry
                     {| r_pid := default (pid p) (h_pid msg);
                        r_cmd := default [] (h_cmd msg);
                        r_cwd := default [] (h_cwd msg);
                        r_startedAt := h_startedAt msg |}
                     (set_probe i
                        (resolve true (with_lineBuf (drop (idx + 1) (lineBuf p)) p))
                        st))) as [-> ->].
      split; [|done].
      exact (sockPath_insert _ i p0
               (resolve true (with_lineBuf (drop (idx + 1) (lineBuf p)) p)) Hi Hs).
    + split; [|done]. exact (sockPath_insert _ i p0 p Hi Hs).
Qed.

(** One event keeps the paths of the connections, and takes at most the
    path of a connection that has an error for stale. *)
Lemma step_stale st ev :
  sockPath <$> probes (step parse e st ev) = sockPath <$> probes st
  ∧ ∀ path, In path (stale (step parse e st ev)) →
      In path (stale st)
      ∨ ∃ i, ev = Error i ∧ sockPath <$> probes st !! i = Some path.
Proof.
  destruct ev as [i|i chunk|i|i]; cbn [step].
  - unfold on_timeout. destruct (probes st !! i) as [p|] eqn:Hi; [|by split; [|left]].
    destruct (resolved p); [by split; [|left]|].
    match goal with |- context [done e ?t] => destruct (done_keeps t) as [-> ->] end.
    split; [exact (sockPath_insert _ i p (resolve true p) Hi eq_refl)|by left].
  - unfold on_data. destruct (probes st !! i) as [p|] eqn:Hi; [|by split; [|left]].
    destruct (resolved p); [by split; [|left]|]. cbv zeta.
    destruct (data_loop_stale i (S (length (lineBuf (with_lineBuf (lineBuf p ++ chunk) p))))
                (with_lineBuf (lineBuf p ++ chunk) p) st p Hi eq_refl) as [-> ->].
    by split; [|left].
  - unfold on_error. destruct (probes st !! i) as [p|] eqn:Hi; [|by split; [|left]].
    destruct (resolved p); [by split; [|left]|].
    match goal with |- context [done e ?t] => destruct (done_keeps t) as [-> ->] end.
    split; [exact (sockPath_insert _ i p (resolve false p) Hi eq_refl)|].
    cbn [push_stale set_probe with_probes probes stale].
    intros path [H|[<-|[]]]%in_app_iff; [by left|right].
    exists i. by rewrite Hi.
  - unfold on_close. destruct (probes st !! i) as [p|] eqn:Hi; [|by split; [|left]].
    destruct (resolved p); [by split; [|left]|].
    match goal with |- context [done e ?t] => destruct (done_keeps t) as [-> ->] end.
    split; [exact (sockPath_insert _ i p (resolve false p) Hi eq_refl)|by left].
Qed.

Lemma errored_app i evs evs' :
  errored i (evs ++ evs') = errored i evs || errored i evs'.
Proof. unfold errored. by rewrite existsb_app. Qed.

Lemma run_stale evs : ∀ st,
  sockPath <$> probes (run parse e st evs) = sockPath <$> probes st
  ∧ ∀ path, In path (stale (run parse e st evs)) →
      In path (stale st)
      ∨ ∃ i, sockPath <$> probes st !! i = Some path ∧ errored i evs = true.
Proof.
  induction evs as [|ev evs IH]; intros st; [by split; [|left]|].
  unfold run. cbn [fold_left]. fold (run parse e (step parse e st ev) evs).
  destruct (IH (step parse e st ev)) as [H1 H2].
  destruct (step_stale st ev) as [H3 H4].
  split; [by rewrite H1|].
  intros path Hp. destruct (H2 path Hp) as [H|(i & Hi & He)].
  - destruct (H4 path H) as [H'|(i & -> & Hi)]; [by left|right].
    exists i. split; [done|]. cbn. by rewrite Nat.eqb_refl.
  - right. exists i. split.
    + rewrite <- list_lookup_fmap, <- H3, list_lookup_fmap. exact Hi.
    + change (ev :: evs) with ([ev] ++ evs). rewrite errored_app, He.
      by rewrite orb_true_r.
Qed.

(** *** The synchronous part *)

Lemma probe_file_spec st file (rest : list jsstring) :
  pending st = Z.of_nat (length (probes st) + S (length rest)) →
  unresolved st = length (probes st) →
  logged st = [] → unlinked st = [] →
  let st' := probe_file e st file in
  pending st' = Z.of_nat (length (probes st') + length rest)
  ∧ unresolved st' = length (probes st')
  ∧ entries st' = entries st
  ∧ stale st' = stale st ++ (if dead_file e file
                             then [Path.join2 (tmpDir e) file] else [])
  ∧ (0 < length (probes st') + length rest →
     logged st' = [] ∧ unlinked st' = [])
  ∧ (length (probes st') + length rest = 0 →
     logged st' = summary e (entries st') (stale st')
     ∧ unlinked st' = stale st').
Proof.
  intros Hp Hu Hl Hk.
  assert (Hdone : ∀ path,
    let st' := done e (push_stale path st) in
    pending st' = Z.of_nat (length (probes st') + length rest)
    ∧ unresolved st' = length (probes st')
    ∧ entries st' = entries st
    ∧ stale st' = stale st ++ [path]
    ∧ (0 < length (probes st') + length rest →
       logged st' = [] ∧ unlinked st' = [])
    ∧ (length (probes st') + length rest = 0 →
       logged st' = summary e (entries st') (stale st')
       ∧ unlinked st' = stale st')).
  { intros path. unfold done. cbn [push_stale pending]. rewrite Hp.
    replace (Z.of_nat (length (probes st) + S (length rest)) - 1)%Z
      with (Z.of_nat (length (probes st) + length rest)) by lia.
    destruct (Z.ltb_spec 0 (Z.of_nat (length (probes st) + length rest))) as [H|H];
      cbv zeta; unfold unresolved in *;
      cbn [pending probes logged unlinked entries stale push_stale].
    - repeat split; try done; lia.
    - rewrite Hl, Hk. repeat split; try done; lia. }
  unfold probe_file, dead_file.
  destruct (parseInt (slice_neg 3 5 file)) as [p|]; [|apply Hdone].
  destruct (alive e p); cbn [negb]; [|apply Hdone].
  cbv zeta. unfold unresolved in *.
  cbn [with_probes pending probes logged unlinked entries stale].
  rewrite List.filter_app, !length_app, Hu, Hp. cbn [List.filter resolved negb length].
  rewrite app_nil_r. repeat split; try done; lia.
Qed.

Lemma probe_files_spec files : ∀ st,
  pending st = Z.of_nat (length (probes st) + length files) →
  unresolved st = length (probes st) →
  logged st = [] → unlinked st = [] →
  files ≠ [] →
  let st' := fold_left (probe_file e) files st in
  accounted e st'
  ∧ entries st' = entries st
  ∧ stale st' = stale st ++ dead_paths e files.
Proof.
  induction files as [|file files IH]; intros st Hp Hu Hl Hk Hne; [done|].
  cbn [fold_left length] in *.
  destruct (probe_file_spec st file files Hp Hu Hl Hk)
    as (H1 & H2 & H3 & H4 & H5 & H6).
  assert (Hdead : dead_paths e (file :: files)
                  = (if dead_file e file then [Path.join2 (tmpDir e) file] else [])
                    ++ dead_paths e files).
  { unfold dead_paths. cbn [List.filter]. by destruct (dead_file e file). }
  destruct files as [|file' files'].
  - cbn [fold_left length] in *. cbv zeta. rewrite Nat.add_0_r in *.
    split; [|by rewrite H3, H4, Hdead, app_nil_r].
    unfold accounted. rewrite H1, H2. split; [done|]. split; [apply H5|apply H6].
  - destruct H5 as [H5 H5']; [cbn [length]; lia|].
    destruct (IH (probe_file e st file) H1 H2 H5 H5' ltac:(done)) as (I1 & I2 & I3).
    cbv zeta. split; [done|]. rewrite I2, I3, H3, H4, Hdead. by rewrite app_assoc.
Qed.

End Handlers.

(** X30: the list of sessions logs nothing and unlinks nothing while a
    connection is not resolved; when the last one is resolved, by a
    greeting, a timeout, an error or a close, the summary of the rows
    collected is logged and the sockets taken for stale are unlinked,
    once, and no later event does anything.  A socket is taken for stale
    only when its name gives no pid, when its process is dead, or when
    the connection to it had an error. *)
Theorem tm_list_settles_once parse e all st0 evs :
  readdir e = Some all →
  main e = Probing st0 →
  let st := run parse e st0 evs in
  pending st = Z.of_nat (unresolved st)
  ∧ (0 < unresolved st → logged st = [] ∧ unlinked st = [])
  ∧ (unresolved st = 0 →
     logged st = summary e (entries st) (stale st)
     ∧ unlinked st = stale st
     ∧ ∀ evs', run parse e st evs' = st)
  ∧ ∀ path, In path (stale st) →
      In path (dead_paths e (List.filter is_sock all))
      ∨ ∃ i, sockPath <$> probes st0 !! i = Some path ∧ errored i evs = true.
Proof.
  intros Hdir Hmain. unfold main in Hmain. rewrite Hdir in Hmain.
  destruct (List.filter is_sock all) as [|file files] eqn:Hfiles; [done|].
  injection Hmain as <-.
  set (init := {| entries := []; stale := [];
                  pending := Z.of_nat (length (file :: files));
                  probes := []; logged := []; unlinked := [] |}).
  destruct (probe_files_spec e (file :: files) init) as (Ha & He & Hs);
    [cbn [init pending probes length]; lia|done|done|done|done|].
  cbn [init stale app] in Hs. intros st.
  pose proof (run_accounted parse e evs _ Ha) as (H1 & H2 & H3).
  fold st in H1, H2, H3.
  destruct (run_stale parse e evs (fold_left (probe_file e) (file :: files) init))
    as [_ H4].
  fold st in H4. rewrite Hs in H4.
  split; [done|]. split; [done|]. split; [|done].
  intros Hz. destruct (H3 Hz) as [H5 H6]. split; [done|]. split; [done|].
  intros evs'. by apply run_idle.
Qed.

Lemma tm_list_settles_once_witness :
  let st0 := match main env0 with Probing st => st | Exit _ _ => 
               {| entries := []; stale := []; pending := 0; probes := [];
                  logged := []; unlinked := [] |} end in
  let st := run parse0 env0 st0 [Data 0 (lit "hel"); Data 0 (lit "lo" ++ [10%N]);
                                 Close 0] in
  unlinked st = [lit "/tmp/tm-7.sock"; lit "/tmp/tm-x.sock"]
  ∧ List.map r_pid (entries st) = [100%Z]
  ∧ length (logged st) = 4
  ∧ pending st = Z.of_nat (unresolved st).
Proof.
  intros st0 st. split; [reflexivity|]. split; [reflexivity|].
  split; [reflexivity|].
  apply (tm_list_settles_once parse0 env0
           [lit "tm-100.sock"; lit "tm-7.sock"; lit "tm-x.sock"; lit "notes.txt"]
           st0); reflexivity.
Defined.

End TmListSpec.
